(** * PlantEnergy: general wind-farm components

    A shallow embedding of [plantenergy/GeneralWindFarmComponents.py] and the
    properties of its components: the forward evaluations
    ([solve_nonlinear]), the Jacobian dictionaries ([linearize]) and the two
    free boundary helpers.

    Conventions of the embedding.
    - A Python float is a real number ([R]); numpy arithmetic is exact real
      arithmetic, so rounding, [nan] and [inf] are outside the model.
    - A one-dimensional numpy array is a [list R], a two-dimensional one a
      list of rows.  OpenMDAO allocates every declared array with the size
      given to [add_param]/[add_output]; reads [a[n]] inside a loop over
      [range(nTurbines)] are written [a.[n]] and the theorems carry the
      declared sizes as hypotheses.
    - A Python [dict] keyed by strings (or by pairs of strings, for a
      Jacobian) is a [gmap]; ['name%i' % k] is ["name" +:+ pretty k].
    - A raised exception is the [Raise] case of [result]. *)

From Stdlib Require Import Reals Lra Lia.
From stdpp Require Import gmap strings pretty list.

Set Warnings "-clear-no-such-hyp".

Open Scope R_scope.

(** ** Python and numpy primitives *)

Inductive exn : Type :=
| ValueError (msg : string)
| IndexError
| KeyError (key : string)
| AttributeError (attr : string)
| UnboundLocalError (name : string)
| ZeroDivisionError
| QhullError.

Inductive result (A : Type) : Type :=
| Ok (a : A)
| Raise (e : exn).
Arguments Ok {A} a.
Arguments Raise {A} e.

(** A [for] loop over a list of indices whose body may raise: the loop
    state is threaded through, and the first exception ends the loop. *)
Fixpoint for_range {S : Type} (body : S -> nat -> result S) (l : list nat) (s : S)
  : result S :=
  match l with
  | [] => Ok s
  | i :: l =>
      match body s i with
      | Ok s' => for_range body l s'
      | Raise e => Raise e
      end
  end.

(** [range(a, b)]. *)
Definition range (a b : nat) : list nat := seq a (b - a).

Abbreviation vec := (list R).
Abbreviation matrix := (list (list R)).

(** A numpy array of one or of two dimensions. *)
Inductive ndarray : Type :=
| A1 (v : vec)
| A2 (m : matrix).

(** A Jacobian dictionary: [J[output, input] = block]. *)
Abbreviation jacobian := (gmap (string * string) ndarray).

(** [a[n]] for an index known to be in range. *)
Definition idx (a : vec) (n : nat) : R := nth n a 0.
Notation "a .[ n ]" := (idx a n) (at level 1, n at level 200, format "a .[ n ]").

(** [M[i, j]]. *)
Definition idx2 (M : matrix) (i j : nat) : R := nth j (nth i M []) 0.

(** [np.zeros(n)], [np.ones(n)], [np.zeros([r, c])], [np.eye(n)]. *)
Definition np_zeros (n : nat) : vec := replicate n 0.
Definition np_ones (n : nat) : vec := replicate n 1.
Definition np_zeros2 (r c : nat) : matrix := replicate r (np_zeros c).
Definition np_eye (n : nat) : matrix :=
  (fun i => (fun j => if Nat.eqb i j then 1 else 0) <$> seq 0 n) <$> seq 0 n.

(** Elementwise arithmetic on arrays of one size, and array-by-scalar. *)
Definition vadd (a b : vec) : vec := zip_with Rplus a b.
Definition vsub (a b : vec) : vec := zip_with Rminus a b.
Definition vmul (a b : vec) : vec := zip_with Rmult a b.
Definition vscale (a : vec) (c : R) : vec := (fun x => x * c) <$> a.
Definition vdivs (a : vec) (c : R) : vec := (fun x => x / c) <$> a.

(** [M * v] for a matrix and a vector: numpy broadcasts [v] along the rows,
    so column [j] of [M] is scaled by [v[j]]. *)
Definition mrow_mul (M : matrix) (v : vec) : matrix := (fun row => vmul row v) <$> M.
Definition mscale (M : matrix) (c : R) : matrix := (fun row => vscale row c) <$> M.
Definition mdivs (M : matrix) (c : R) : matrix := (fun row => vdivs row c) <$> M.

(** [M[i][j] = x]. *)
Definition mset (M : matrix) (i j : nat) (x : R) : matrix :=
  alter (fun row => <[j := x]> row) i M.

(** Python's builtin [sum] and [np.sum] of a one-dimensional array: a left
    fold from [0]. *)
Definition py_sum (a : vec) : R := fold_left Rplus a 0.

(** [c * a] with the scalar on the left, and [-a]. *)
Definition svmul (c : R) (a : vec) : vec := (fun x => c * x) <$> a.
Definition vneg (a : vec) : vec := Ropp <$> a.

(** [np.sum(M, 0)] (column sums of a matrix with [ncols] columns) and
    [np.matmul(M, v)]. *)
Definition np_sum0 (M : matrix) (ncols : nat) : vec :=
  (fun j => py_sum ((fun row => row.[j]) <$> M)) <$> seq 0 ncols.
Definition np_matmul (M : matrix) (v : vec) : vec :=
  (fun row => py_sum (vmul row v)) <$> M.

(** [x ** y] with a float exponent [y]: [exp (y * ln x)] on a positive base,
    [0] for [0 ** y] with [y > 0] and [1] for [0 ** 0].  The model says
    nothing useful on a negative base (numpy: [nan] for a fractional
    exponent) nor on [0 ** y] with [y < 0] (numpy: [inf]); no property below
    evaluates it there. *)
Definition np_power (x y : R) : R :=
  if Req_EM_T x 0 then (if Req_EM_T y 0 then 1 else 0) else Rpower x y.

#[global] Instance Rle_decision (x y : R) : Decision (x <= y) := Rle_dec x y.
#[global] Instance Rlt_decision (x y : R) : Decision (x < y) := Rlt_dec x y.
#[global] Instance Rge_decision (x y : R) : Decision (x >= y) := Rge_dec x y.

(** [np.maximum(a, c)] and [np.minimum(a, c)] of an array and a scalar. *)
Definition np_maximum (a : vec) (c : R) : vec := (fun x => Rmax x c) <$> a.
Definition np_minimum (a : vec) (c : R) : vec := (fun x => Rmin x c) <$> a.

(** [np.interp(x, xp, fp)] for increasing sample points [xp] and as many
    values [fp] (its documented contract): [fp[0]] left of [xp[0]], [fp[-1]]
    right of [xp[-1]], and on the segment [xp[j] <= x < xp[j+1]] the value
    [(fp[j+1]-fp[j])/(xp[j+1]-xp[j]) * (x-xp[j]) + fp[j]].  This is the
    value for one query point on a well-formed table; the two checks numpy
    makes on the table before it looks at any query point are in
    [np_interp_array] below. *)
Fixpoint interp_segments (x : R) (xp fp : vec) : R :=
  match xp, fp with
  | x0 :: xp', f0 :: fp' =>
      match xp', fp' with
      | x1 :: _, f1 :: _ =>
          if Rlt_dec x x1 then (f1 - f0) / (x1 - x0) * (x - x0) + f0
          else interp_segments x xp' fp'
      | _, _ => f0
      end
  | _, _ => 0
  end.

Definition np_interp (x : R) (xp fp : vec) : R :=
  match xp, fp with
  | x0 :: _, f0 :: _ =>
      if Rlt_dec x x0 then f0
      else if Rlt_dec (List.last xp 0) x then List.last fp 0
      else interp_segments x xp fp
  | _, _ => 0
  end.

(** [np.interp(x, xp, fp)] (imported as [scipy.interp]) for an array [x]
    of query points: numpy first refuses an empty [xp], then an [fp] whose
    length is not that of [xp], each with a [ValueError], whatever [x]
    holds. *)
Definition np_interp_array (x : vec) (xp fp : vec) : result vec :=
  if decide (xp = []) then Raise (ValueError "array of sample points is empty")
  else if decide (length fp = length xp)
  then Ok ((fun x => np_interp x xp fp) <$> x)
  else Raise (ValueError "fp and xp are not of the same length.").

(** Points and direction vectors of the plane: a row of an array of shape
    [[n, 2]]. *)
Abbreviation vec2 := (R * R)%type.

(** [np.vdot(a, b)], [c * a] and [np.linalg.norm(a)] on such rows. *)
Definition vdot (a b : vec2) : R := a.1 * b.1 + a.2 * b.2.
Definition scale2 (c : R) (a : vec2) : vec2 := (c * a.1, c * a.2).
Definition div2 (a : vec2) (c : R) : vec2 := (a.1 / c, a.2 / c).
Definition norm2 (a : vec2) : R := sqrt (a.1 * a.1 + a.2 * a.2).

(** The finite sum [f 0 + ... + f (n-1)], as a specification writes
    [Σ_{i<n} f i]. *)
Fixpoint spec_sum (f : nat -> R) (n : nat) : R :=
  match n with
  | O => 0
  | S k => spec_sum f k + f k
  end.

(** ** WindFrame *)

Module WindFrame.

Record component := Build { nTurbines : nat; nSamples : nat }.

Record params := Params {
  wind_speed : R;
  wind_direction : R;
  turbineX : vec;
  turbineY : vec;
  wsPositionX : vec;
  wsPositionY : vec;
  wPositionZ : vec
}.

Record unknowns := Unknowns {
  turbineXw : vec;
  turbineYw : vec;
  wsPositionXw : vec;
  wsPositionYw : vec
}.

(** Names given to [add_param] and [add_output] by [__init__]. *)
Definition declared_params (self : component) : list string :=
  ["wind_speed"; "wind_direction"; "turbineX"; "turbineY"]
  ++ (if (0 <? nSamples self)%nat
      then ["wsPositionX"; "wsPositionY"; "wPositionZ"] else []).

Definition declared_outputs (self : component) : list string :=
  ["turbineXw"; "turbineYw"]
  ++ (if (0 <? nSamples self)%nat then ["wsPositionXw"; "wsPositionYw"] else []).

(** Outputs as allocated by [add_output]. *)
Definition init_unknowns (self : component) : unknowns :=
  Unknowns (np_zeros (nTurbines self)) (np_zeros (nTurbines self))
           (np_zeros (nSamples self)) (np_zeros (nSamples self)).

(** The meteorological direction turned into the inflow angle in radians
    (lines 93-97, and again 114-119). *)
Definition windDirectionRad (windDirectionDeg : R) : R :=
  let d := 270 - windDirectionDeg in
  let d := if Rlt_dec d 0 then d + 360 else d in
  PI * d / 180.

Definition solve_nonlinear (self : component) (p : params) (u : unknowns) : unknowns :=
  let rad := windDirectionRad (wind_direction p) in
  let Xw := vsub (vscale (turbineX p) (cos (- rad))) (vscale (turbineY p) (sin (- rad))) in
  let Yw := vadd (vscale (turbineX p) (sin (- rad))) (vscale (turbineY p) (cos (- rad))) in
  if (0 <? nSamples self)%nat then
    let velX := wsPositionX p in
    let velY := wsPositionY p in
    Unknowns Xw Yw
      (vsub (vscale velX (cos (- rad))) (vscale velY (sin (- rad))))
      (vadd (vscale velX (sin (- rad))) (vscale velY (cos (- rad))))
  else Unknowns Xw Yw (wsPositionXw u) (wsPositionYw u).

Definition linearize (self : component) (p : params) : jacobian :=
  let n := nTurbines self in
  let rad := windDirectionRad (wind_direction p) in
  let dturbineXw_dturbineX := mscale (np_eye n) (cos (- rad)) in
  let dturbineXw_dturbineY := mscale (np_eye n) (- sin (- rad)) in
  let dturbineYw_dturbineX := mscale (np_eye n) (sin (- rad)) in
  let dturbineYw_dturbineY := mscale (np_eye n) (cos (- rad)) in
  let J : jacobian := ∅ in
  let J := <[("turbineXw", "turbineX") := A2 dturbineXw_dturbineX]> J in
  let J := <[("turbineXw", "turbineY") := A2 dturbineXw_dturbineY]> J in
  let J := <[("turbineYw", "turbineX") := A2 dturbineYw_dturbineX]> J in
  let J := <[("turbineYw", "turbineY") := A2 dturbineYw_dturbineY]> J in
  J.

End WindFrame.

(** ** AdjustCtCpYaw *)

Module AdjustCtCpYaw.

Record component := Build { nTurbines : nat; direction_id : nat }.

Record params := Params {
  Ct_in : vec;
  Cp_in : vec;
  yaw : vec;               (* 'yaw%i' % direction_id, in degrees *)
  pP : R;                  (* gen_params:pP *)
  CTcorrected : bool;      (* gen_params:CTcorrected *)
  CPcorrected : bool       (* gen_params:CPcorrected *)
}.

Record unknowns := Unknowns { Ct_out : vec; Cp_out : vec }.

Definition yaw_name (self : component) : string := "yaw" +:+ pretty (direction_id self).

Definition declared_params (self : component) : list string :=
  ["Ct_in"; "Cp_in"; yaw_name self;
   "gen_params:pP"; "gen_params:CTcorrected"; "gen_params:CPcorrected"].

Definition declared_outputs (self : component) : list string := ["Ct_out"; "Cp_out"].

Definition solve_nonlinear (self : component) (p : params) : unknowns :=
  let Ct := Ct_in p in
  let Cp := Cp_in p in
  let yaw := vdivs (vscale (yaw p) PI) 180 in
  let pP := pP p in
  Unknowns
    (if negb (CTcorrected p) then vmul (vmul (cos <$> yaw) (cos <$> yaw)) Ct else Ct)
    (if negb (CPcorrected p)
     then vmul Cp ((fun y => np_power (cos y) pP) <$> yaw) else Cp).

Definition linearize (self : component) (p : params) : jacobian :=
  let Ct := Ct_in p in
  let Cp := Cp_in p in
  let n := length Ct in
  let yaw := vdivs (vscale (yaw p) PI) 180 in
  let pP := pP p in
  let J : jacobian := ∅ in
  let J :=
    if negb (CTcorrected p) then
      let J := <[("Ct_out", "Ct_in") :=
                   A2 (mrow_mul (mrow_mul (np_eye n) (cos <$> yaw)) (cos <$> yaw))]> J in
      let J := <[("Ct_out", "Cp_in") := A2 (np_zeros2 n n)]> J in
      <[("Ct_out", yaw_name self) :=
          A2 (mdivs (mscale (mrow_mul (mrow_mul (np_eye n) Ct)
                                  (vmul (svmul (-2) (sin <$> yaw)) (cos <$> yaw)))
                        PI) 180)]> J
    else
      let J := <[("Ct_out", "Ct_in") := A2 (np_eye n)]> J in
      let J := <[("Ct_out", "Cp_in") := A2 (np_zeros2 n n)]> J in
      <[("Ct_out", yaw_name self) := A2 (np_zeros2 n n)]> J in
  let J :=
    if negb (CPcorrected p) then
      let J := <[("Cp_out", "Cp_in") :=
                   A2 (mrow_mul (np_eye n) ((fun y => np_power (cos y) pP) <$> yaw))]> J in
      let J := <[("Cp_out", "Ct_in") := A2 (np_zeros2 n n)]> J in
      <[("Cp_out", yaw_name self) :=
          A2 (mdivs (mscale (mrow_mul (np_eye n)
                           (vmul (vmul (vscale (vneg Cp) pP) (sin <$> yaw))
                                 ((fun y => np_power (cos y) (pP - 1)) <$> yaw)))
                        PI) 180)]> J
    else
      let J := <[("Cp_out", "Cp_in") := A2 (np_eye n)]> J in
      let J := <[("Cp_out", "Ct_in") := A2 (np_zeros2 n n)]> J in
      <[("Cp_out", yaw_name self) := A2 (np_zeros2 n n)]> J in
  J.

End AdjustCtCpYaw.

(** ** WindFarmAEP *)

Module WindFarmAEP.

Record component := Build { nDirections : nat; rec_func_calls : bool }.

Record params := Params {
  dirPowers : vec;
  windFrequencies : vec;
  AEP_method : string      (* gen_params:AEP_method *)
}.

Definition declared_params (self : component) : list string :=
  ["dirPowers"; "windFrequencies"; "gen_params:AEP_method"].

Definition declared_outputs (self : component) : list string := ["AEP"].

(** The message of lines 298 and 329,
    [AEP_method must be one of ["none","log","inverse"]], quotes included. *)
Definition quote : string :=
  String (Ascii.Ascii false true false false false true false false) EmptyString.

Definition invalid_method : exn :=
  ValueError ("AEP_method must be one of [" +:+ quote +:+ "none" +:+ quote +:+ ","
              +:+ quote +:+ "log" +:+ quote +:+ "," +:+ quote +:+ "inverse" +:+ quote +:+ "]").

(** number of hours in a year *)
Definition hours : R := 8760.

(** The forward pass.  [calls] is this rank's entry of
    [config.obj_func_calls_array]; the result is the output [AEP] and the
    counter after the call.

    Python's builtin [sum] of an empty array is the integer [0], so with no
    direction [AEP] is the Python float [0.0] and [AEP**(-1)] raises
    [ZeroDivisionError]; with at least one direction [AEP] is a numpy float.
    The reals have no [-inf], [nan] or [inf], which numpy returns for
    [np.log] of a non-positive [AEP] and for the inverse of a numpy zero:
    [ln] and [/] stand for the code there only on [0 < AEP], respectively
    [AEP <> 0], and the properties below carry these conditions. *)
Definition solve_nonlinear (self : component) (p : params) (calls : nat)
  : result (R * nat) :=
  let AEP := py_sum (vmul (dirPowers p) (windFrequencies p)) * hours in
  let out :=
    if decide (AEP_method p = "none") then Ok AEP
    else if decide (AEP_method p = "log") then Ok (ln AEP)
    else if decide (AEP_method p = "inverse") then
      match vmul (dirPowers p) (windFrequencies p) with
      | [] => Raise ZeroDivisionError
      | _ :: _ => Ok (/ AEP)
      end
    else Raise invalid_method in
  match out with
  | Ok aep => Ok (aep, if rec_func_calls self then S calls else calls)
  | Raise e => Raise e
  end.

(** [calls] is this rank's entry of [config.sens_func_calls_array]. *)
Definition linearize (self : component) (p : params) (calls : nat)
  : result (jacobian * nat) :=
  let windFrequencies := windFrequencies p in
  let dirPowers := dirPowers p in
  let nDirs := length windFrequencies in
  let dAEP_dpower :=
    if decide (AEP_method p = "none")
    then Ok (vscale (vmul (np_ones nDirs) windFrequencies) hours)
    else if decide (AEP_method p = "log")
    then Ok (Rinv <$> dirPowers)
    else if decide (AEP_method p = "inverse")
    then Ok ((fun x => - / x) <$> vmul (svmul hours windFrequencies)
                                       ((fun x => x ^ 2) <$> dirPowers))
    else Raise invalid_method in
  match dAEP_dpower with
  | Ok d =>
      let J : jacobian := ∅ in
      let J := <[("AEP", "dirPowers") := A2 ([d])]> J in
      Ok (J, if rec_func_calls self then S calls else calls)
  | Raise e => Raise e
  end.

End WindFarmAEP.

(** ** WindDirectionPower *)

Module WindDirectionPower.

(** The optional [cp_curve_spline] object: calling it, and calling its
    [derivative()]. *)
Record spline := Spline { spline_call : R -> R; spline_derivative : R -> R }.

Record component := Build {
  nTurbines : nat;
  direction_id : nat;
  use_rotor_components : bool;
  cp_points : nat;
  cp_curve_spline : option spline
}.

(** The parameter store of the component.  [params['Cp']] hands out the
    stored array itself, so an item assignment through the local name [Cp]
    writes into the store. *)
Record params := Params {
  air_density : R;
  rotorDiameter : vec;
  Cp : vec;
  generatorEfficiency : vec;
  wtVelocity : vec;        (* 'wtVelocity%i' % direction_id *)
  rated_power : vec;
  cut_in_speed : vec;
  cp_curve_cp : vec;
  cp_curve_wind_speed : vec;
  use_power_curve_definition : bool;
  rated_wind_speed : vec;
  cut_out_speed : vec
}.

Record unknowns := Unknowns {
  wtPower : vec;           (* 'wtPower%i' % direction_id *)
  dir_power : R            (* 'dir_power%i' % direction_id *)
}.

Definition wtVelocity_name (self : component) : string :=
  "wtVelocity" +:+ pretty (direction_id self).
Definition wtPower_name (self : component) : string :=
  "wtPower" +:+ pretty (direction_id self).
Definition dir_power_name (self : component) : string :=
  "dir_power" +:+ pretty (direction_id self).

Definition declared_params (self : component) : list string :=
  ["air_density"; "rotorDiameter"; "Cp"; "generatorEfficiency"; wtVelocity_name self;
   "rated_power"; "cut_in_speed"; "cp_curve_cp"; "cp_curve_wind_speed";
   "use_power_curve_definition"; "rated_wind_speed"; "cut_out_speed"].

Definition declared_outputs (self : component) : list string :=
  [wtPower_name self; dir_power_name self].

(** [params['Cp'][i] = x]. *)
Definition store_Cp (p : params) (i : nat) (x : R) : params :=
  Params (air_density p) (rotorDiameter p) (<[i := x]> (Cp p)) (generatorEfficiency p)
         (wtVelocity p) (rated_power p) (cut_in_speed p) (cp_curve_cp p)
         (cp_curve_wind_speed p) (use_power_curve_definition p) (rated_wind_speed p)
         (cut_out_speed p).

Definition rotorArea (p : params) : vec :=
  svmul (0.25 * PI) ((fun d => d ^ 2) <$> rotorDiameter p).

(** One turn of the loop of lines 430-441. *)
Definition power_curve_step (p : params) (wtPower : vec) (n : nat) : vec :=
  if decide ((cut_in_speed p).[n] <= (wtVelocity p).[n]
             /\ (wtVelocity p).[n] < (rated_wind_speed p).[n])
  then <[n := (rated_power p).[n]
              * (((wtVelocity p).[n] - (cut_in_speed p).[n])
                 / ((rated_wind_speed p).[n] - (cut_in_speed p).[n])) ^ 3]> wtPower
  else if decide ((rated_wind_speed p).[n] <= (wtVelocity p).[n]
                  /\ (wtVelocity p).[n] < (cut_out_speed p).[n])
  then <[n := (rated_power p).[n]]> wtPower
  else wtPower.

(** One turn of the loop of lines 450-451: the interpolated value is
    written through [Cp], that is into the parameter store. *)
Definition interp_Cp_step (p : params) (i : nat) : params :=
  store_Cp p i (np_interp (wtVelocity p).[i] (cp_curve_wind_speed p) (cp_curve_cp p)).

(** Lines 471-473 and 475-477. *)
Definition rated_step (p : params) (wtPower : vec) (i : nat) : vec :=
  if decide (wtPower.[i] >= (rated_power p).[i])
  then <[i := (rated_power p).[i]]> wtPower else wtPower.

Definition cut_in_step (p : params) (wtPower : vec) (i : nat) : vec :=
  if decide ((wtVelocity p).[i] < (cut_in_speed p).[i])
  then <[i := 0]> wtPower else wtPower.

(** The forward pass: the parameter store after the call, and the outputs. *)
Definition solve_nonlinear (self : component) (p : params) : params * unknowns :=
  let nTurbines := nTurbines self in
  if use_power_curve_definition p then
    let wtPower := fold_left (power_curve_step p) (seq 0 nTurbines) (np_zeros nTurbines) in
    (p, Unknowns wtPower (py_sum wtPower))
  else
    let '(p, Cp) :=
      if (1 <? cp_points self)%nat then
        match cp_curve_spline self with
        | None =>
            let p' := fold_left interp_Cp_step (seq 0 nTurbines) p in
            (p', Cp p')
        | Some cp_curve_spline => (p, spline_call cp_curve_spline <$> wtVelocity p)
        end
      else (p, Cp p) in
    let wtPower :=
      vmul (generatorEfficiency p)
           (vmul (vmul (svmul (0.5 * air_density p) (rotorArea p)) Cp)
                 ((fun v => v ^ 3) <$> wtVelocity p)) in
    let wtPower := vdivs wtPower 1000 in
    let wtPower :=
      if negb (use_rotor_components self)
      then fold_left (rated_step p) (seq 0 nTurbines) wtPower else wtPower in
    let wtPower := fold_left (cut_in_step p) (seq 0 nTurbines) wtPower in
    (p, Unknowns wtPower (py_sum wtPower)).

(** One turn of the loop of lines 540-552. *)
Definition power_curve_deriv_step (p : params) (d : matrix) (n : nat) : matrix :=
  if decide ((cut_in_speed p).[n] <= (wtVelocity p).[n]
             /\ (wtVelocity p).[n] < (rated_wind_speed p).[n])
  then mset d n n
         (3 * (rated_power p).[n]
            * (((wtVelocity p).[n] - (cut_in_speed p).[n])
               / ((rated_wind_speed p).[n] - (cut_in_speed p).[n])) ^ 2
          * (1 / ((rated_wind_speed p).[n] - (cut_in_speed p).[n])))
  else if decide ((rated_wind_speed p).[n] <= (wtVelocity p).[n]
                  /\ (wtVelocity p).[n] < (cut_out_speed p).[n])
  then mset d n n 0
  else d.

(** One turn of the loop of lines 574-579: [Cp[i]] is again written into
    the store, and [dCpdV[i]] is a central difference with step 1e-6. *)
Definition dv : R := 1 / 1000000.

Definition interp_deriv_step (s : params * vec) (i : nat) : params * vec :=
  let '(p, dCpdV) := s in
  let p := interp_Cp_step p i in
  (p, <[i := (np_interp ((wtVelocity p).[i] + dv) (cp_curve_wind_speed p) (cp_curve_cp p)
              - np_interp ((wtVelocity p).[i] - dv) (cp_curve_wind_speed p) (cp_curve_cp p))
             / (2 * dv)]> dCpdV).

(** Lines 618-622 and 625-629, for the three diagonal blocks at once. *)
Definition zero_diag (i : nat) (ds : matrix * matrix * matrix) : matrix * matrix * matrix :=
  let '(dV, dC, dD) := ds in (mset dV i i 0, mset dC i i 0, mset dD i i 0).

Definition rated_deriv_step (p : params) (wtPower : vec)
    (ds : matrix * matrix * matrix) (i : nat) : matrix * matrix * matrix :=
  if decide (wtPower.[i] >= (rated_power p).[i]) then zero_diag i ds else ds.

Definition cut_in_deriv_step (p : params)
    (ds : matrix * matrix * matrix) (i : nat) : matrix * matrix * matrix :=
  if decide ((wtVelocity p).[i] < (cut_in_speed p).[i]) then zero_diag i ds else ds.

(** The Jacobian pass: the parameter store after the call, and [J]. *)
Definition linearize (self : component) (p : params) (u : unknowns) : params * jacobian :=
  let nTurbines := nTurbines self in
  let wtPower := wtPower u in
  if use_power_curve_definition p then
    let dwtPower_dwtVelocity :=
      fold_left (power_curve_deriv_step p) (seq 0 nTurbines) (np_zeros2 nTurbines nTurbines) in
    let ddir_power_dwtVelocity := np_matmul dwtPower_dwtVelocity (np_ones nTurbines) in
    let J : jacobian := ∅ in
    let J := <[(wtPower_name self, wtVelocity_name self) := A2 dwtPower_dwtVelocity]> J in
    let J := <[(wtPower_name self, "rotorDiameter") := A2 (np_zeros2 nTurbines nTurbines)]> J in
    let J := <[(wtPower_name self, "Cp") := A2 (np_zeros2 nTurbines nTurbines)]> J in
    let J := <[(dir_power_name self, wtVelocity_name self) := A2 ([ddir_power_dwtVelocity])]> J in
    let J := <[(dir_power_name self, "rotorDiameter") := A2 (np_zeros2 1 nTurbines)]> J in
    let J := <[(dir_power_name self, "Cp") := A2 (np_zeros2 1 nTurbines)]> J in
    (p, J)
  else
    let dCpdV := np_zeros (length (Cp p)) in
    let '(p, Cp, dCpdV) :=
      match cp_curve_spline self with
      | None =>
          if (1 <? cp_points self)%nat then
            let '(p', dCpdV) := fold_left interp_deriv_step (seq 0 nTurbines) (p, dCpdV) in
            (p', Cp p', dCpdV)
          else (p, Cp p, dCpdV)
      | Some cp_curve_spline =>
          (p, spline_call cp_curve_spline <$> wtVelocity p,
              spline_derivative cp_curve_spline <$> wtVelocity p)
      end in
    let v := wtVelocity p in
    let dwtPower_dwtVelocity :=
      mrow_mul (mrow_mul (mscale (mrow_mul (mscale (np_eye nTurbines) 0.5)
                                           (generatorEfficiency p))
                                 (air_density p))
                         (rotorArea p))
               (vadd (vmul (svmul 3 Cp) ((fun v => v ^ 2) <$> v))
                     (vmul ((fun v => v ^ 3) <$> v) dCpdV)) in
    let dwtPower_dCp :=
      mrow_mul (mrow_mul (np_eye nTurbines) (generatorEfficiency p))
               (vmul (svmul (0.5 * air_density p) (rotorArea p))
                     ((fun v => v ^ 3) <$> v)) in
    let dwtPower_drotorDiameter :=
      mrow_mul (mrow_mul (np_eye nTurbines) (generatorEfficiency p))
               (vmul (vmul (svmul (0.5 * air_density p) (svmul (0.5 * PI) (rotorDiameter p)))
                           Cp)
                     ((fun v => v ^ 3) <$> v)) in
    let ds := (mdivs dwtPower_dwtVelocity 1000, mdivs dwtPower_dCp 1000,
               mdivs dwtPower_drotorDiameter 1000) in
    let ds := fold_left (rated_deriv_step p wtPower) (seq 0 nTurbines) ds in
    let ds := fold_left (cut_in_deriv_step p) (seq 0 nTurbines) ds in
    let '(dwtPower_dwtVelocity, dwtPower_dCp, dwtPower_drotorDiameter) := ds in
    let ddir_power_dwtVelocity := [np_sum0 dwtPower_dwtVelocity nTurbines] in
    let ddir_power_dCp := [np_sum0 dwtPower_dCp nTurbines] in
    let ddir_power_drotorDiameter := [np_sum0 dwtPower_drotorDiameter nTurbines] in
    let J : jacobian := ∅ in
    let J := <[(wtPower_name self, wtVelocity_name self) := A2 dwtPower_dwtVelocity]> J in
    let J := <[(wtPower_name self, "Cp") := A2 dwtPower_dCp]> J in
    let J := <[(wtPower_name self, "rotorDiameter") := A2 dwtPower_drotorDiameter]> J in
    let J := <[(dir_power_name self, wtVelocity_name self) := A2 ddir_power_dwtVelocity]> J in
    let J := <[(dir_power_name self, "Cp") := A2 ddir_power_dCp]> J in
    let J := <[(dir_power_name self, "rotorDiameter") := A2 ddir_power_drotorDiameter]> J in
    (p, J).

End WindDirectionPower.

(** ** SpacingComp *)

Module SpacingComp.

Record component := Build { nTurbines : nat }.

Record params := Params { turbineX : vec; turbineY : vec }.

Definition declared_params (self : component) : list string := ["turbineX"; "turbineY"].
Definition declared_outputs (self : component) : list string := ["wtSeparationSquared"].

(** [int((nTurbines-1)*nTurbines/2)]. *)
Definition nPairs (nTurbines : nat) : nat := ((nTurbines - 1) * nTurbines / 2)%nat.

(** The body of the inner loop of lines 684-687, on the state
    [(k, separation_squared)]. *)
Definition separation_step (p : params) (i : nat) (s : nat * vec) (j : nat) : nat * vec :=
  let '(k, separation_squared) := s in
  (S k, <[k := ((turbineX p).[j] - (turbineX p).[i]) ^ 2
               + ((turbineY p).[j] - (turbineY p).[i]) ^ 2]> separation_squared).

Definition solve_nonlinear (self : component) (p : params) : vec :=
  let nTurbines := length (turbineX p) in
  let separation_squared := np_zeros (nPairs nTurbines) in
  snd (fold_left
         (fun s i => fold_left (separation_step p i) (range (i + 1) nTurbines) s)
         (range 0 nTurbines) (0%nat, separation_squared)).

(** The body of the inner loop of lines 707-717, on the state [(k, dS)]. *)
Definition gradient_step (p : params) (nTurbines i : nat) (s : nat * matrix) (j : nat)
  : nat * matrix :=
  let '(k, dS) := s in
  let dS := mset dS k j (2 * ((turbineX p).[j] - (turbineX p).[i])) in
  let dS := mset dS k i (-2 * ((turbineX p).[j] - (turbineX p).[i])) in
  let dS := mset dS k (j + nTurbines) (2 * ((turbineY p).[j] - (turbineY p).[i])) in
  let dS := mset dS k (i + nTurbines) (-2 * ((turbineY p).[j] - (turbineY p).[i])) in
  (S k, dS).

Definition linearize (self : component) (p : params) : jacobian :=
  let nTurbines := length (turbineX p) in
  let dS := np_zeros2 (nPairs nTurbines) (2 * nTurbines) in
  let dS :=
    snd (fold_left
           (fun s i => fold_left (gradient_step p nTurbines i) (range (i + 1) nTurbines) s)
           (range 0 nTurbines) (0%nat, dS)) in
  let J : jacobian := ∅ in
  let J := <[("wtSeparationSquared", "turbineX") := A2 (take nTurbines <$> dS)]> J in
  let J := <[("wtSeparationSquared", "turbineY") := A2 (drop nTurbines <$> dS)]> J in
  J.

End SpacingComp.

(** ** The boundary helpers [calculate_boundary] and [calculate_distance] *)

(** [a[j]] on an array of rows, for an index in range. *)
Definition row (a : list vec2) (j : nat) : vec2 := nth j a (0, 0).

(** One turn of the loop of lines 864-874; [j] is below [nVertices], so
    the rows [j], [j+1] and [0] exist. *)
Definition normal_step (vertices : list vec2) (nVertices : nat)
    (unit_normals : list vec2) (j : nat) : list vec2 :=
  if (j <? nVertices - 1)%nat then
    let normal := ((row vertices (j + 1)).2 - (row vertices j).2,
                   - ((row vertices (j + 1)).1 - (row vertices j).1)) in
    <[j := div2 normal (norm2 normal)]> unit_normals
  else
    let normal := ((row vertices 0).2 - (row vertices j).2,
                   - ((row vertices 0).1 - (row vertices j).1)) in
    <[j := div2 normal (norm2 normal)]> unit_normals.

(** [vertices[hull.vertices]]: the rows picked by a list of indices. *)
Definition take_rows (vertices : list vec2) (ks : list nat) : result (list vec2) :=
  match mapM (fun k => vertices !! k) ks with
  | Some vs => Ok vs
  | None => Raise IndexError
  end.

(** [ConvexHull] is scipy's; the helper is embedded over the indices
    [hull.vertices] it returns, or the exception it raises. *)
Definition calculate_boundary (ConvexHull : list vec2 -> result (list nat))
    (vertices : list vec2) : result (list vec2 * list vec2) :=
  match ConvexHull vertices with
  | Raise e => Raise e
  | Ok hull_vertices =>
      match take_rows vertices hull_vertices with
      | Raise e => Raise e
      | Ok vertices =>
          let nVertices := length vertices in
          let unit_normals := replicate nVertices (0, 0) in
          let unit_normals :=
            fold_left (normal_step vertices nVertices) (range 0 nVertices) unit_normals in
          Ok (vertices, unit_normals)
      end
  end.

(** Lines 908-914 (and 929-935): the distance of point [i] to face [j] is
    stored in [face_distance[i, j]]. *)
Definition face_step (points vertices unit_normals : list vec2) (i : nat)
    (face_distance : matrix) (j : nat) : result matrix :=
  match points !! i, vertices !! j, unit_normals !! j with
  | Some pt, Some v, Some n =>
      let pa := (v.1 - pt.1, v.2 - pt.2) in
      let d_vec := scale2 (vdot pa n) n in
      Ok (mset face_distance i j (vdot d_vec n))
  | _, _, _ => Raise IndexError
  end.

(** [np.all(a >= 0)]. *)
Definition all_nonneg (a : vec) : bool := forallb (fun x => bool_decide (x >= 0)) a.

(** Lines 923-939: the faces of point [i], then its flag. *)
Definition inside_step (points vertices unit_normals : list vec2)
    (s : matrix * vec) (i : nat) : result (matrix * vec) :=
  let '(face_distance, inside) := s in
  match for_range (face_step points vertices unit_normals i)
                  (range 0 (length vertices)) face_distance with
  | Raise e => Raise e
  | Ok face_distance =>
      Ok (face_distance,
          if all_nonneg (nth i face_distance []) then <[i := 1]> inside else inside)
  end.

(** What [calculate_distance] returns: [face_distance] alone, or the pair
    [face_distance, inside]. *)
Inductive distance_result : Type :=
| Distances (face_distance : matrix)
| DistancesInside (face_distance : matrix) (inside : vec).

Definition calculate_distance (points vertices unit_normals : list vec2)
    (return_bool : bool) : result distance_result :=
  let nPoints := length points in
  let nVertices := length vertices in
  let face_distance := np_zeros2 nPoints nVertices in
  if negb return_bool then
    match for_range
            (fun fd i => for_range (face_step points vertices unit_normals i)
                                   (range 0 nVertices) fd)
            (range 0 nPoints) face_distance with
    | Raise e => Raise e
    | Ok face_distance => Ok (Distances face_distance)
    end
  else
    let inside := np_zeros nPoints in
    match for_range (inside_step points vertices unit_normals)
                    (range 0 nPoints) (face_distance, inside) with
    | Raise e => Raise e
    | Ok (face_distance, inside) => Ok (DistancesInside face_distance inside)
    end.

(** ** BoundaryComp *)

Module BoundaryComp.

Inductive boundary_type : Type := polygon | circle.

Record component := Build {
  nTurbines : nat;
  nVertices : Z;
  type : boundary_type     (* self.type *)
}.

Record params := Params {
  boundaryVertices : list vec2;
  boundaryNormals : list vec2;
  boundary_radius : R;
  boundary_center : vec2;
  turbineX : vec;
  turbineY : vec
}.

(** The constructor.  For [nVertices <= 0] line 742 builds a [ValueError]
    and drops it (there is no [raise]); [type] is a local name of
    [__init__] that was then never assigned, so reading it on line 744
    raises [UnboundLocalError]. *)
Definition init (nTurbines : nat) (nVertices : Z) : result component :=
  if (1 <? nVertices)%Z then Ok (Build nTurbines nVertices polygon)
  else if (nVertices =? 1)%Z then Ok (Build nTurbines nVertices circle)
  else Raise (UnboundLocalError "type").

Definition declared_params (self : component) : list string :=
  match type self with
  | polygon => ["boundaryVertices"; "boundaryNormals"]
  | circle => ["boundary_radius"; "boundary_center"]
  end ++ ["turbineX"; "turbineY"].

Definition declared_outputs (self : component) : list string := ["boundaryDistances"].

Definition solve_nonlinear (self : component) (p : params) : result ndarray :=
  let turbineX := turbineX p in
  let turbineY := turbineY p in
  match type self with
  | polygon =>
      let locations := (fun i => (turbineX.[i], turbineY.[i])) <$> range 0 (nTurbines self) in
      match calculate_distance locations (boundaryVertices p) (boundaryNormals p) false with
      | Ok (Distances d) => Ok (A2 d)
      | Ok (DistancesInside d _) => Ok (A2 d)
      | Raise e => Raise e
      end
  | circle =>
      let xc := (boundary_center p).1 in
      let yc := (boundary_center p).2 in
      let r := boundary_radius p in
      Ok (A1 ((fun d => r ^ 2 - d)
                <$> vadd ((fun x => (x - xc) ^ 2) <$> turbineX)
                         ((fun y => (y - yc) ^ 2) <$> turbineY)))
  end.

(** The body of the inner loop of lines 808-820, on the state
    [(dfaceDistance_dx, dfaceDistance_dy)]. *)
Definition gradient_step (nVertices : nat) (unit_normals : list vec2) (i : nat)
    (s : matrix * matrix) (j : nat) : result (matrix * matrix) :=
  let '(dfaceDistance_dx, dfaceDistance_dy) := s in
  match unit_normals !! j with
  | None => Raise IndexError
  | Some n =>
      let dpa_dx := (-1, 0) in
      let dpa_dy := (0, -1) in
      let ddistanceVec_dx := scale2 (vdot dpa_dx n) n in
      let ddistanceVec_dy := scale2 (vdot dpa_dy n) n in
      Ok (mset dfaceDistance_dx (i * nVertices + j) i (vdot ddistanceVec_dx n),
          mset dfaceDistance_dy (i * nVertices + j) i (vdot ddistanceVec_dy n))
  end.

Definition linearize (self : component) (p : params) : result jacobian :=
  let blocks :=
    match type self with
    | polygon =>
        let unit_normals := boundaryNormals p in
        let nT := nTurbines self in
        let nV := Z.to_nat (nVertices self) in
        for_range
          (fun s i => for_range (gradient_step nV unit_normals i) (range 0 nV) s)
          (range 0 nT) (np_zeros2 (nT * nV) nT, np_zeros2 (nT * nV) nT)
    | circle =>
        let xc := (boundary_center p).1 in
        let yc := (boundary_center p).2 in
        let A := np_eye (nTurbines self) in
        let B := svmul (-2) ((fun x => x - xc) <$> turbineX p) in
        let C := svmul (-2) ((fun y => y - yc) <$> turbineY p) in
        Ok (mrow_mul A B, mrow_mul A C)
    end in
  match blocks with
  | Raise e => Raise e
  | Ok (dfaceDistance_dx, dfaceDistance_dy) =>
      let J : jacobian := ∅ in
      let J := <[("boundaryDistances", "turbineX") := A2 dfaceDistance_dx]> J in
      let J := <[("boundaryDistances", "turbineY") := A2 dfaceDistance_dy]> J in
      Ok J
  end.

End BoundaryComp.

(** ** MUX and DeMUX *)

Module MUX.

Record component := Build { nElements : nat }.

Definition input_name (i : nat) : string := "input" +:+ pretty i.

Definition declared_params (self : component) : list string :=
  input_name <$> range 0 (nElements self).
Definition declared_outputs (self : component) : list string := ["Array"].

(** [unknowns['Array'][i] = params['input%i']]. *)
Definition solve_step (params : gmap string R) (Array : vec) (i : nat) : result vec :=
  match params !! input_name i with
  | None => Raise (KeyError (input_name i))
  | Some x =>
      if decide (i < length Array)%nat then Ok (<[i := x]> Array) else Raise IndexError
  end.

(** [Array] is [unknowns['Array']] before the call; the result is the
    array after it. *)
Definition solve_nonlinear (self : component) (params : gmap string R) (Array : vec)
  : result vec :=
  for_range (solve_step params) (range 0 (nElements self)) Array.

Definition linearize_step (s : vec * jacobian) (i : nat) : vec * jacobian :=
  let '(dArray_dInput, J) := s in
  let dArray_dInput := <[i := 1]> dArray_dInput in
  let J := <[("Array", input_name i) := A1 dArray_dInput]> J in
  let dArray_dInput := <[i := 0]> dArray_dInput in
  (dArray_dInput, J).

Definition linearize (self : component) : jacobian :=
  let dArray_dInput := np_zeros (nElements self) in
  let J : jacobian := ∅ in
  snd (fold_left linearize_step (range 0 (nElements self)) (dArray_dInput, J)).

End MUX.

Module DeMUX.

Record component := Build { nElements : nat }.

Definition output_name (i : nat) : string := "output" +:+ pretty i.

Definition declared_params (self : component) : list string := ["Array"].
Definition declared_outputs (self : component) : list string :=
  output_name <$> range 0 (nElements self).

(** [unknowns['output%i'] = params['Array'][i]]. *)
Definition solve_step (Array : vec) (unknowns : gmap string R) (i : nat)
  : result (gmap string R) :=
  match Array !! i with
  | None => Raise IndexError
  | Some x => Ok (<[output_name i := x]> unknowns)
  end.

Definition solve_nonlinear (self : component) (Array : vec) (unknowns : gmap string R)
  : result (gmap string R) :=
  for_range (solve_step Array) (range 0 (nElements self)) unknowns.

Definition linearize (self : component) : jacobian :=
  let doutput_dArray := np_eye (nElements self) in
  let J : jacobian := ∅ in
  fold_left (fun J i => <[(output_name i, "Array") := A2 [nth i doutput_dArray []]]> J)
            (range 0 (nElements self)) J.

End DeMUX.

(** ** CPCT interpolation: the table variant *)

Module CPCT_Interpolate_Gradients.

Record component := Build { nTurbines : nat; direction_id : nat; datasize : nat }.

Record params := Params {
  yaw : vec;                           (* 'yaw%i' % direction_id *)
  wtVelocity : vec;                    (* 'wtVelocity%i' % direction_id *)
  pP : R;                              (* gen_params:pP *)
  windSpeedToCPCT_wind_speed : vec;    (* gen_params:windSpeedToCPCT_wind_speed *)
  windSpeedToCPCT_CP : vec;            (* gen_params:windSpeedToCPCT_CP *)
  windSpeedToCPCT_CT : vec             (* gen_params:windSpeedToCPCT_CT *)
}.

Record unknowns := Unknowns { Cp_out : vec; Ct_out : vec }.

Definition yaw_name (self : component) : string := "yaw" +:+ pretty (direction_id self).
Definition wtVelocity_name (self : component) : string :=
  "wtVelocity" +:+ pretty (direction_id self).

Definition declared_params (self : component) : list string :=
  [yaw_name self; wtVelocity_name self; "gen_params:pP";
   "gen_params:windSpeedToCPCT_wind_speed"; "gen_params:windSpeedToCPCT_CP";
   "gen_params:windSpeedToCPCT_CT"].
Definition declared_outputs (self : component) : list string := ["Cp_out"; "Ct_out"].

(** [np.cos(yaw*np.pi/180.0)]. *)
Definition cos_yaw (yaw : vec) : vec := (fun y => cos (y * PI / 180)) <$> yaw.

(** Lines 1084-1087: the axial wind speed, held between the first and
    the last wind speed of the table.  [[0]] raises on an empty table. *)
Definition wind_speed_ax (p : params) (yaw wtVelocity : vec) : result vec :=
  let wind_speed_ax := vmul ((fun c => np_power c (pP p / 3)) <$> cos_yaw yaw) wtVelocity in
  match windSpeedToCPCT_wind_speed p with
  | [] => Raise IndexError
  | first :: _ =>
      let wind_speed_ax := np_maximum wind_speed_ax first in
      let wind_speed_ax :=
        np_minimum wind_speed_ax (List.last (windSpeedToCPCT_wind_speed p) 0) in
      Ok wind_speed_ax
  end.

(** Lines 1084-1095, as a function of the yaw and wind-speed arrays: the
    forward pass applies it to the inputs, the Jacobian pass (lines
    1103-1138) to the inputs shifted by [h].  The Jacobian pass makes its
    [interp] calls in another order (the four on [CP], then the four on
    [CT]); the first one to raise raises the same [ValueError] there. *)
Definition coefficients (p : params) (yaw wtVelocity : vec) : result unknowns :=
  match wind_speed_ax p yaw wtVelocity with
  | Raise e => Raise e
  | Ok wind_speed_ax =>
      let ws := windSpeedToCPCT_wind_speed p in
      match np_interp_array wind_speed_ax ws (windSpeedToCPCT_CP p) with
      | Raise e => Raise e
      | Ok Cp =>
          match np_interp_array wind_speed_ax ws (windSpeedToCPCT_CT p) with
          | Raise e => Raise e
          | Ok Ct =>
              Ok (Unknowns (vmul Cp ((fun c => np_power c (pP p)) <$> cos_yaw yaw))
                           (vmul Ct ((fun c => c ^ 2) <$> cos_yaw yaw)))
          end
      end
  end.

Definition solve_nonlinear (self : component) (p : params) : result unknowns :=
  coefficients p (yaw p) (wtVelocity p).

Definition h : R := 1 / 1000000.

Definition linearize (self : component) (p : params) : result jacobian :=
  let up (a : vec) := (fun x => x + h) <$> a in
  let down (a : vec) := (fun x => x - h) <$> a in
  match coefficients p (up (yaw p)) (wtVelocity p),
        coefficients p (down (yaw p)) (wtVelocity p),
        coefficients p (yaw p) (up (wtVelocity p)),
        coefficients p (yaw p) (down (wtVelocity p)) with
  | Ok high_yaw, Ok low_yaw, Ok high_wind, Ok low_wind =>
      let eye := np_eye (nTurbines self) in
      let dCP_dyaw := mdivs (mrow_mul eye (vsub (Cp_out high_yaw) (Cp_out low_yaw))) (2 * h) in
      let dCP_dwind := mdivs (mrow_mul eye (vsub (Cp_out high_wind) (Cp_out low_wind))) (2 * h) in
      let dCT_dyaw := mdivs (mrow_mul eye (vsub (Ct_out high_yaw) (Ct_out low_yaw))) (2 * h) in
      let dCT_dwind := mdivs (mrow_mul eye (vsub (Ct_out high_wind) (Ct_out low_wind))) (2 * h) in
      let J : jacobian := ∅ in
      let J := <[("Cp_out", yaw_name self) := A2 dCP_dyaw]> J in
      let J := <[("Cp_out", wtVelocity_name self) := A2 dCP_dwind]> J in
      let J := <[("Ct_out", yaw_name self) := A2 dCT_dyaw]> J in
      let J := <[("Ct_out", wtVelocity_name self) := A2 dCT_dwind]> J in
      Ok J
  | Raise e, _, _, _ | _, Raise e, _, _ | _, _, Raise e, _ | _, _, _, Raise e => Raise e
  end.

End CPCT_Interpolate_Gradients.

(** ** CPCT interpolation: the smooth variant *)

Module CPCT_Interpolate_Gradients_Smooth.

(** The derivative arrays a forward pass leaves on [self]. *)
Record cache := Cache {
  dCp_out_dyaw : vec;
  dCp_out_dvel : vec;
  dCt_out_dyaw : vec;
  dCt_out_dvel : vec
}.

Record component := Build {
  nTurbines : nat;
  direction_id : nat;
  datasize : nat;
  cached : option cache
}.

Record params := Params {
  yaw : vec;                           (* 'yaw%i' % direction_id *)
  wtVelocity : vec;                    (* 'wtVelocity%i' % direction_id *)
  pP : R;                              (* gen_params:pP *)
  windSpeedToCPCT_wind_speed : vec;    (* gen_params:windSpeedToCPCT_wind_speed *)
  windSpeedToCPCT_CP : vec;            (* gen_params:windSpeedToCPCT_CP *)
  windSpeedToCPCT_CT : vec             (* gen_params:windSpeedToCPCT_CT *)
}.

Record unknowns := Unknowns { Cp_out : vec; Ct_out : vec }.

Definition yaw_name (self : component) : string := "yaw" +:+ pretty (direction_id self).
Definition wtVelocity_name (self : component) : string :=
  "wtVelocity" +:+ pretty (direction_id self).

Definition declared_params (self : component) : list string :=
  [yaw_name self; wtVelocity_name self; "gen_params:pP";
   "gen_params:windSpeedToCPCT_wind_speed"; "gen_params:windSpeedToCPCT_CP";
   "gen_params:windSpeedToCPCT_CT"].
Definition declared_outputs (self : component) : list string := ["Cp_out"; "Ct_out"].

Section Forward.

(** The [akima] package: [Akima xpt ypt x] is the value and the slope
    that [Akima(xpt, ypt).interp] returns at the query point [x]. *)
Variable Akima : vec -> vec -> R -> R * R.

(** The forward pass: the component with its derivative arrays set, and
    the outputs.  The splines are queried at [wtVelocity] itself. *)
Definition solve_nonlinear (self : component) (p : params) : component * unknowns :=
  let pP := pP p in
  let yaw := yaw p in
  let Cp := windSpeedToCPCT_CP p in
  let Ct := windSpeedToCPCT_CT p in
  let windspeeds := windSpeedToCPCT_wind_speed p in
  let CPspline := Akima windspeeds Cp in
  let CTspline := Akima windspeeds Ct in
  let CP := (fun x => (CPspline x).1) <$> wtVelocity p in
  let dCPdvel := (fun x => (CPspline x).2) <$> wtVelocity p in
  let CT := (fun x => (CTspline x).1) <$> wtVelocity p in
  let dCTdvel := (fun x => (CTspline x).2) <$> wtVelocity p in
  let rad := (fun y => y * PI / 180) <$> yaw in
  let Cp_out := vmul CP ((fun r => np_power (cos r) pP) <$> rad) in
  let Ct_out := vmul CT ((fun r => (cos r) ^ 2) <$> rad) in
  let dCp_out_dyaw :=
    vmul (vmul (vscale (vscale ((fun r => - sin r) <$> rad) (PI / 180)) pP) CP)
         ((fun r => np_power (cos r) (pP - 1)) <$> rad) in
  let dCp_out_dvel := vmul dCPdvel ((fun r => np_power (cos r) pP) <$> rad) in
  let dCt_out_dyaw :=
    vmul (vmul (vscale (vscale ((fun r => - sin r) <$> rad) (PI / 180)) 2) CT)
         (cos <$> rad) in
  let dCt_out_dvel := vmul dCTdvel ((fun r => (cos r) ^ 2) <$> rad) in
  (Build (nTurbines self) (direction_id self) (datasize self)
         (Some (Cache dCp_out_dyaw dCp_out_dvel dCt_out_dyaw dCt_out_dvel)),
   Unknowns Cp_out Ct_out).

End Forward.

Definition linearize (self : component) : result jacobian :=
  match cached self with
  | None => Raise (AttributeError "dCp_out_dyaw")
  | Some c =>
      let eye := np_eye (nTurbines self) in
      let J : jacobian := ∅ in
      let J := <[("Cp_out", yaw_name self) := A2 (mrow_mul eye (dCp_out_dyaw c))]> J in
      let J := <[("Cp_out", wtVelocity_name self) := A2 (mrow_mul eye (dCp_out_dvel c))]> J in
      let J := <[("Ct_out", yaw_name self) := A2 (mrow_mul eye (dCt_out_dyaw c))]> J in
      let J := <[("Ct_out", wtVelocity_name self) := A2 (mrow_mul eye (dCt_out_dvel c))]> J in
      Ok J
  end.

End CPCT_Interpolate_Gradients_Smooth.

(** * Specification-side definitions *)

(** A loop that rewrites entry [n] of an array from its index and its old
    value, which is the shape of every per-turbine loop of the components. *)
Definition pointwise (F : nat -> R -> R) (w : vec) (n : nat) : vec := <[n := F n w.[n]]> w.

(** The output [AEP] of a forward pass, if it returned. *)
Definition AEP_output (r : result (R * nat)) : option R :=
  match r with
  | Ok (aep, _) => Some aep
  | Raise _ => None
  end.

(** The power curve of lines 432-441 for turbine [n], given the value [old]
    already in [wtPower[n]]. *)
Definition power_curve_value (p : WindDirectionPower.params) (n : nat) (old : R) : R :=
  let v := (WindDirectionPower.wtVelocity p).[n] in
  let cut_in := (WindDirectionPower.cut_in_speed p).[n] in
  let rated := (WindDirectionPower.rated_wind_speed p).[n] in
  let cut_out := (WindDirectionPower.cut_out_speed p).[n] in
  if decide (cut_in <= v /\ v < rated)
  then (WindDirectionPower.rated_power p).[n] * ((v - cut_in) / (rated - cut_in)) ^ 3
  else if decide (rated <= v /\ v < cut_out)
  then (WindDirectionPower.rated_power p).[n]
  else old.

(** A one-turbine farm in coefficient mode with a two-point Cp table and no
    spline. *)
Definition table_component : WindDirectionPower.component :=
  WindDirectionPower.Build 1 0 false 2 None.

Definition table_params : WindDirectionPower.params :=
  WindDirectionPower.Params 1.1716 [126.4] [0.4] [0.944] [5] [5000] [3]
    [0; 0.5] [0; 10] false [11.4] [25].








(** The value [calculate_distance] stores for a point and a face, the row of
    a point, the whole array, and the flags. *)
Definition face_value (pt v n : vec2) : R :=
  vdot (scale2 (vdot (v.1 - pt.1, v.2 - pt.2) n) n) n.

Definition distance_row (vertices unit_normals : list vec2) (pt : vec2) : vec :=
  zip_with (face_value pt) vertices unit_normals.

Definition distance_rows (points vertices unit_normals : list vec2) : matrix :=
  distance_row vertices unit_normals <$> points.

Definition inside_flags (points vertices unit_normals : list vec2) : vec :=
  (fun pt => if all_nonneg (distance_row vertices unit_normals pt) then 1 else 0) <$> points.

(** Difference and cross product of plane vectors, and the polygon that a
    list of indices picks out of a point set. *)
Definition sub2 (a b : vec2) : vec2 := (a.1 - b.1, a.2 - b.2).
Definition cross2 (a b : vec2) : R := a.1 * b.2 - a.2 * b.1.
Definition polygon_of (pts : list vec2) (hull : list nat) : list vec2 :=
  (fun k => row pts k) <$> hull.

(** The unit normal that [normal_step] stores for face [j]. *)
Definition unit_normal (vertices : list vec2) (nVertices j : nat) : vec2 :=
  let next := row vertices (if (j <? nVertices - 1)%nat then j + 1 else 0)%nat in
  let normal := (next.2 - (row vertices j).2, - (next.1 - (row vertices j).1)) in
  div2 normal (norm2 normal).

(** All pairs (output name, input name). *)
Definition pairs (outs ins : list string) : gset (string * string) :=
  list_to_set (o ← outs; (fun i => (o, i)) <$> ins).

(** A call of [linearize] on one of the components. *)
Inductive linearize_call : Type :=
| call_WindFrame (self : WindFrame.component) (p : WindFrame.params)
| call_AdjustCtCpYaw (self : AdjustCtCpYaw.component) (p : AdjustCtCpYaw.params)
| call_WindFarmAEP (self : WindFarmAEP.component) (p : WindFarmAEP.params) (calls : nat)
| call_WindDirectionPower (self : WindDirectionPower.component)
    (p : WindDirectionPower.params) (u : WindDirectionPower.unknowns)
| call_SpacingComp (self : SpacingComp.component) (p : SpacingComp.params)
| call_BoundaryComp (self : BoundaryComp.component) (p : BoundaryComp.params)
| call_MUX (self : MUX.component)
| call_DeMUX (self : DeMUX.component)
| call_CPCT (self : CPCT_Interpolate_Gradients.component)
    (p : CPCT_Interpolate_Gradients.params)
| call_CPCT_Smooth (self : CPCT_Interpolate_Gradients_Smooth.component).

Definition of_result {A : Type} (r : result A) : option A :=
  match r with
  | Ok a => Some a
  | Raise _ => None
  end.

(** The dictionary the call returns, if it returns. *)
Definition returned_jacobian (c : linearize_call) : option jacobian :=
  match c with
  | call_WindFrame self p => Some (WindFrame.linearize self p)
  | call_AdjustCtCpYaw self p => Some (AdjustCtCpYaw.linearize self p)
  | call_WindFarmAEP self p calls => fst <$> of_result (WindFarmAEP.linearize self p calls)
  | call_WindDirectionPower self p u => Some (WindDirectionPower.linearize self p u).2
  | call_SpacingComp self p => Some (SpacingComp.linearize self p)
  | call_BoundaryComp self p => of_result (BoundaryComp.linearize self p)
  | call_MUX self => Some (MUX.linearize self)
  | call_DeMUX self => Some (DeMUX.linearize self)
  | call_CPCT self p => of_result (CPCT_Interpolate_Gradients.linearize self p)
  | call_CPCT_Smooth self => of_result (CPCT_Interpolate_Gradients_Smooth.linearize self)
  end.

Definition declared_outputs_of (c : linearize_call) : list string :=
  match c with
  | call_WindFrame self _ => WindFrame.declared_outputs self
  | call_AdjustCtCpYaw self _ => AdjustCtCpYaw.declared_outputs self
  | call_WindFarmAEP self _ _ => WindFarmAEP.declared_outputs self
  | call_WindDirectionPower self _ _ => WindDirectionPower.declared_outputs self
  | call_SpacingComp self _ => SpacingComp.declared_outputs self
  | call_BoundaryComp self _ => BoundaryComp.declared_outputs self
  | call_MUX self => MUX.declared_outputs self
  | call_DeMUX self => DeMUX.declared_outputs self
  | call_CPCT self _ => CPCT_Interpolate_Gradients.declared_outputs self
  | call_CPCT_Smooth self => CPCT_Interpolate_Gradients_Smooth.declared_outputs self
  end.

Definition declared_params_of (c : linearize_call) : list string :=
  match c with
  | call_WindFrame self _ => WindFrame.declared_params self
  | call_AdjustCtCpYaw self _ => AdjustCtCpYaw.declared_params self
  | call_WindFarmAEP self _ _ => WindFarmAEP.declared_params self
  | call_WindDirectionPower self _ _ => WindDirectionPower.declared_params self
  | call_SpacingComp self _ => SpacingComp.declared_params self
  | call_BoundaryComp self _ => BoundaryComp.declared_params self
  | call_MUX self => MUX.declared_params self
  | call_DeMUX self => DeMUX.declared_params self
  | call_CPCT self _ => CPCT_Interpolate_Gradients.declared_params self
  | call_CPCT_Smooth self => CPCT_Interpolate_Gradients_Smooth.declared_params self
  end.

(** The outputs and the inputs that the dictionary of each component
    really pairs up. *)
Definition jacobian_outputs (c : linearize_call) : list string :=
  match c with
  | call_WindFrame _ _ => ["turbineXw"; "turbineYw"]
  | _ => declared_outputs_of c
  end.

Definition jacobian_params (c : linearize_call) : list string :=
  match c with
  | call_WindFrame _ _ => ["turbineX"; "turbineY"]
  | call_AdjustCtCpYaw self _ => ["Ct_in"; "Cp_in"; AdjustCtCpYaw.yaw_name self]
  | call_WindFarmAEP _ _ _ => ["dirPowers"]
  | call_WindDirectionPower self _ _ =>
      [WindDirectionPower.wtVelocity_name self; "rotorDiameter"; "Cp"]
  | call_SpacingComp self _ => SpacingComp.declared_params self
  | call_BoundaryComp _ _ => ["turbineX"; "turbineY"]
  | call_MUX self => MUX.declared_params self
  | call_DeMUX self => DeMUX.declared_params self
  | call_CPCT self _ =>
      [CPCT_Interpolate_Gradients.yaw_name self;
       CPCT_Interpolate_Gradients.wtVelocity_name self]
  | call_CPCT_Smooth self =>
      [CPCT_Interpolate_Gradients_Smooth.yaw_name self;
       CPCT_Interpolate_Gradients_Smooth.wtVelocity_name self]
  end.

(** The components whose dictionary covers every declared input. *)
Definition covers_all_declared (c : linearize_call) : bool :=
  match c with
  | call_SpacingComp _ _ | call_MUX _ | call_DeMUX _ => true
  | _ => false
  end.

(** The pairs without dependence for which the dictionary holds a block of
    zeros: the cross blocks of AdjustCtCpYaw and its yaw blocks when the
    coefficient is passed through, and the rotorDiameter and Cp blocks of
    WindDirectionPower in power-curve mode. *)
Definition zero_blocks (c : linearize_call) : list (string * string) :=
  match c with
  | call_AdjustCtCpYaw self p =>
      [("Ct_out", "Cp_in"); ("Cp_out", "Ct_in")]
      ++ (if AdjustCtCpYaw.CTcorrected p then [("Ct_out", AdjustCtCpYaw.yaw_name self)] else [])
      ++ (if AdjustCtCpYaw.CPcorrected p then [("Cp_out", AdjustCtCpYaw.yaw_name self)] else [])
  | call_WindDirectionPower self p _ =>
      if WindDirectionPower.use_power_curve_definition p then
        [(WindDirectionPower.wtPower_name self, "rotorDiameter");
         (WindDirectionPower.wtPower_name self, "Cp");
         (WindDirectionPower.dir_power_name self, "rotorDiameter");
         (WindDirectionPower.dir_power_name self, "Cp")]
      else []
  | _ => []
  end.

(** Two turbines with the default envelope (cut-in 3, rated 11.4, cut-out
    25 m/s, 5000 kW), one on the ramp and one at rated speed. *)
Definition curve_params : WindDirectionPower.params :=
  WindDirectionPower.Params 1.1716 [126.4; 126.4] [0.4; 0.4] [0.944; 0.944] [7.2; 11.4]
    [5000; 5000] [3; 3] [0] [1] true [11.4; 11.4] [25; 25].

(** Two degenerate envelopes: cut-in speed equal to rated wind speed, with
    the wind at that speed, and rated wind speed equal to cut-out speed,
    with the wind at that speed. *)
Definition no_ramp_params : WindDirectionPower.params :=
  WindDirectionPower.Params 1.1716 [126.4] [0.4] [0.944] [3]
    [5000] [3] [0] [1] true [3] [25].

Definition no_plateau_params : WindDirectionPower.params :=
  WindDirectionPower.Params 1.1716 [126.4] [0.4] [0.944] [25]
    [5000] [3] [0] [1] true [25] [25].

Definition table_cpct_params : CPCT_Interpolate_Gradients.params :=
  CPCT_Interpolate_Gradients.Params [0] [30] 1.88 [0; 10; 20] [0; 0.4; 0.4] [0; 0.8; 0.8].

(** A triangle, as scipy returns it, and the unit square with its outward
    normals. *)
Definition triangle : list vec2 := [(0, 0); (1, 0); (0, 1)].
Definition triangle_hull (_ : list vec2) : result (list nat) := Ok [0; 1; 2]%nat.

Definition square : list vec2 := [(0, 0); (1, 0); (1, 1); (0, 1)].
Definition square_normals : list vec2 := [(0, -1); (1, 0); (0, 1); (-1, 0)].

(** The block [J[output, input]] of a Jacobian dictionary, when it is a
    two-dimensional array. *)
Definition block (J : jacobian) (output input : string) : matrix :=
  match J !! (output, input) with
  | Some (A2 m) => m
  | _ => []
  end.

(** An [n × n] matrix with the entries of [d] on its diagonal and zeros
    elsewhere. *)
Definition is_diag (M : matrix) (d : vec) (n : nat) : Prop :=
  length M = n /\
  forall i, (i < n)%nat ->
    length (nth i M []) = n /\
    forall j, (j < n)%nat -> idx2 M i j = if decide (i = j) then d.[i] else 0.

(** The power coefficient the coefficient mode of WindDirectionPower uses
    for turbine [i] (lines 447-455), and the power before the rated-power
    and cut-in adjustments (lines 458-461). *)
Definition effective_Cp (self : WindDirectionPower.component)
    (p : WindDirectionPower.params) (i : nat) : R :=
  if (1 <? WindDirectionPower.cp_points self)%nat then
    match WindDirectionPower.cp_curve_spline self with
    | None => np_interp (WindDirectionPower.wtVelocity p).[i]
                (WindDirectionPower.cp_curve_wind_speed p) (WindDirectionPower.cp_curve_cp p)
    | Some s => WindDirectionPower.spline_call s (WindDirectionPower.wtVelocity p).[i]
    end
  else (WindDirectionPower.Cp p).[i].

Definition raw_power (self : WindDirectionPower.component)
    (p : WindDirectionPower.params) (i : nat) : R :=
  (WindDirectionPower.generatorEfficiency p).[i]
  * (0.5 * WindDirectionPower.air_density p
     * (0.25 * PI * (WindDirectionPower.rotorDiameter p).[i] ^ 2)
     * effective_Cp self p i
     * (WindDirectionPower.wtVelocity p).[i] ^ 3)
  / 1000.

(** Every per-turbine array of the parameters has [nTurbines] entries. *)
Definition turbine_arrays (self : WindDirectionPower.component)
    (p : WindDirectionPower.params) : Prop :=
  let n := WindDirectionPower.nTurbines self in
  length (WindDirectionPower.rotorDiameter p) = n /\
  length (WindDirectionPower.Cp p) = n /\
  length (WindDirectionPower.generatorEfficiency p) = n /\
  length (WindDirectionPower.wtVelocity p) = n.

(** The vector with [1] at position [i] and [0] elsewhere. *)
Definition one_hot (n i : nat) : vec := <[i := 1]> (np_zeros n).

(** The parameters with every yaw, or every wind speed, shifted by [d]. *)
Definition shift_yaw (p : CPCT_Interpolate_Gradients.params) (d : R)
  : CPCT_Interpolate_Gradients.params :=
  CPCT_Interpolate_Gradients.Params
    ((fun x => x + d) <$> CPCT_Interpolate_Gradients.yaw p)
    (CPCT_Interpolate_Gradients.wtVelocity p)
    (CPCT_Interpolate_Gradients.pP p)
    (CPCT_Interpolate_Gradients.windSpeedToCPCT_wind_speed p)
    (CPCT_Interpolate_Gradients.windSpeedToCPCT_CP p)
    (CPCT_Interpolate_Gradients.windSpeedToCPCT_CT p).

Definition shift_speed (p : CPCT_Interpolate_Gradients.params) (d : R)
  : CPCT_Interpolate_Gradients.params :=
  CPCT_Interpolate_Gradients.Params
    (CPCT_Interpolate_Gradients.yaw p)
    ((fun x => x + d) <$> CPCT_Interpolate_Gradients.wtVelocity p)
    (CPCT_Interpolate_Gradients.pP p)
    (CPCT_Interpolate_Gradients.windSpeedToCPCT_wind_speed p)
    (CPCT_Interpolate_Gradients.windSpeedToCPCT_CP p)
    (CPCT_Interpolate_Gradients.windSpeedToCPCT_CT p).

(** The two outputs of a forward pass of the table variant, empty when it
    raised. *)
Definition table_Cp (self : CPCT_Interpolate_Gradients.component)
    (p : CPCT_Interpolate_Gradients.params) : vec :=
  match CPCT_Interpolate_Gradients.solve_nonlinear self p with
  | Ok u => CPCT_Interpolate_Gradients.Cp_out u
  | Raise _ => []
  end.

Definition table_Ct (self : CPCT_Interpolate_Gradients.component)
    (p : CPCT_Interpolate_Gradients.params) : vec :=
  match CPCT_Interpolate_Gradients.solve_nonlinear self p with
  | Ok u => CPCT_Interpolate_Gradients.Ct_out u
  | Raise _ => []
  end.

(** The central difference quotient of step [h]. *)
Definition central_difference (f : R -> vec) (h : R) : vec :=
  vdivs (vsub (f h) (f (- h))) (2 * h).

(** The turbine pairs [(i, j)], [i < j < n], in the order the double loop
    of SpacingComp visits them, the squared separation of one pair, and the
    row of the gradient array [dS] the loop writes for it (lines 707-717:
    a row of [2 n] zeros with four entries set). *)
Definition turbine_pairs (n : nat) : list (nat * nat) :=
  i ← range 0 n; (fun j => (i, j)) <$> range (i + 1) n.

Definition separation (p : SpacingComp.params) (ij : nat * nat) : R :=
  ((SpacingComp.turbineX p).[ij.2] - (SpacingComp.turbineX p).[ij.1]) ^ 2
  + ((SpacingComp.turbineY p).[ij.2] - (SpacingComp.turbineY p).[ij.1]) ^ 2.

Definition translate (p : SpacingComp.params) (dx dy : R) : SpacingComp.params :=
  SpacingComp.Params ((fun x => x + dx) <$> SpacingComp.turbineX p)
                     ((fun y => y + dy) <$> SpacingComp.turbineY p).

(** The partial derivative of the squared separation of the pair [(i, j)]
    in the coordinate of turbine [c], for a coordinate array [a]. *)
Definition separation_gradient (a : vec) (ij : nat * nat) (c : nat) : R :=
  if decide (c = ij.1) then -2 * (a.[ij.2] - a.[ij.1])
  else if decide (c = ij.2) then 2 * (a.[ij.2] - a.[ij.1])
  else 0.

(** The parameters with the x (or y) coordinate of turbine [c] replaced. *)
Definition with_turbineX (p : SpacingComp.params) (c : nat) (x : R) : SpacingComp.params :=
  SpacingComp.Params (<[c := x]> (SpacingComp.turbineX p)) (SpacingComp.turbineY p).

Definition with_turbineY (p : SpacingComp.params) (c : nat) (y : R) : SpacingComp.params :=
  SpacingComp.Params (SpacingComp.turbineX p) (<[c := y]> (SpacingComp.turbineY p)).

(** The output of BoundaryComp for a circular boundary, for one turbine
    (line 785). *)
Definition circle_distance (r : R) (center : vec2) (x y : R) : R :=
  r ^ 2 - ((x - center.1) ^ 2 + (y - center.2) ^ 2).

(** The pairs (turbine, face) in the order the double loop of
    [BoundaryComp.linearize] visits them. *)
Definition turbine_faces (nT nV : nat) : list (nat * nat) :=
  i ← range 0 nT; (fun j => (i, j)) <$> range 0 nV.

(** The output [AEP] of the forward pass as a number ([0] if the pass
    raised), the parameters with the power of direction [i] replaced, and
    the energy before the method is applied (line 290). *)
Definition AEP_value (self : WindFarmAEP.component) (p : WindFarmAEP.params) : R :=
  match WindFarmAEP.solve_nonlinear self p 0 with
  | Ok (aep, _) => aep
  | Raise _ => 0
  end.

Definition with_dirPower (p : WindFarmAEP.params) (i : nat) (x : R) : WindFarmAEP.params :=
  WindFarmAEP.Params (<[i := x]> (WindFarmAEP.dirPowers p)) (WindFarmAEP.windFrequencies p)
                     (WindFarmAEP.AEP_method p).

Definition annual_energy (p : WindFarmAEP.params) : R :=
  py_sum (vmul (WindFarmAEP.dirPowers p) (WindFarmAEP.windFrequencies p)) * WindFarmAEP.hours.

(** The parameters of AdjustCtCpYaw with the yaw of turbine [i] replaced. *)
Definition with_yaw (p : AdjustCtCpYaw.params) (i : nat) (y : R) : AdjustCtCpYaw.params :=
  AdjustCtCpYaw.Params (AdjustCtCpYaw.Ct_in p) (AdjustCtCpYaw.Cp_in p)
    (<[i := y]> (AdjustCtCpYaw.yaw p)) (AdjustCtCpYaw.pP p)
    (AdjustCtCpYaw.CTcorrected p) (AdjustCtCpYaw.CPcorrected p).

(** The diagonal entry the power-curve branch of
    [WindDirectionPower.linearize] leaves for turbine [n] (lines 540-552). *)
Definition power_curve_slope (p : WindDirectionPower.params) (n : nat) : R :=
  let v := (WindDirectionPower.wtVelocity p).[n] in
  let cut_in := (WindDirectionPower.cut_in_speed p).[n] in
  let rated := (WindDirectionPower.rated_wind_speed p).[n] in
  if decide (cut_in <= v /\ v < rated)
  then 3 * (WindDirectionPower.rated_power p).[n] * ((v - cut_in) / (rated - cut_in)) ^ 2
       * (1 / (rated - cut_in))
  else 0.

(** The parameters of WindDirectionPower with the wind speed at turbine [i]
    replaced. *)
Definition with_wtVelocity (p : WindDirectionPower.params) (i : nat) (x : R)
  : WindDirectionPower.params :=
  WindDirectionPower.Params
    (WindDirectionPower.air_density p) (WindDirectionPower.rotorDiameter p)
    (WindDirectionPower.Cp p) (WindDirectionPower.generatorEfficiency p)
    (<[i := x]> (WindDirectionPower.wtVelocity p))
    (WindDirectionPower.rated_power p) (WindDirectionPower.cut_in_speed p)
    (WindDirectionPower.cp_curve_cp p) (WindDirectionPower.cp_curve_wind_speed p)
    (WindDirectionPower.use_power_curve_definition p)
    (WindDirectionPower.rated_wind_speed p) (WindDirectionPower.cut_out_speed p).

(** The turbines whose gradients the coefficient branch of
    [WindDirectionPower.linearize] sets to zero (lines 618-629): those at or
    above rated power in the outputs handed in, and those below cut-in. *)
Definition gradient_zeroed (p : WindDirectionPower.params) (u : WindDirectionPower.unknowns)
    (i : nat) : Prop :=
  (WindDirectionPower.wtPower u).[i] >= (WindDirectionPower.rated_power p).[i]
  \/ (WindDirectionPower.wtVelocity p).[i] < (WindDirectionPower.cut_in_speed p).[i].

#[global] Instance gradient_zeroed_decision p u i : Decision (gradient_zeroed p u i).
Proof. unfold gradient_zeroed. apply _. Defined.

(** One turn of a loop that zeroes the diagonal entry [i] of one matrix
    whenever [Q i] holds. *)
Definition zero_step (Q : nat -> Prop) `{!forall i, Decision (Q i)} (M : matrix) (i : nat)
  : matrix :=
  if decide (Q i) then mset M i i 0 else M.

(** * Properties *)

(** ** Array lemmas *)

Lemma idx_zip_with (f : R -> R -> R) (a b : vec) (i : nat) :
  (i < length a)%nat -> (i < length b)%nat ->
  (zip_with f a b).[i] = f a.[i] b.[i].
Proof.
  unfold idx. revert b i.
  induction a as [|x a IH]; intros [|y b] [|i]; simpl; intros; try lia.
  - reflexivity.
  - apply IH; lia.
Qed.

Lemma idx_fmap (f : R -> R) (a : vec) (i : nat) :
  (i < length a)%nat -> (f <$> a).[i] = f a.[i].
Proof.
  unfold idx. revert i.
  induction a as [|x a IH]; intros [|i]; simpl; intros; try lia.
  - reflexivity.
  - apply IH; lia.
Qed.

Lemma py_sum_app (a : vec) (x : R) : py_sum (a ++ [x]) = py_sum a + x.
Proof. unfold py_sum. rewrite fold_left_app. reflexivity. Qed.

Lemma spec_sum_ext (f g : nat -> R) (n : nat) :
  (forall i, (i < n)%nat -> f i = g i) -> spec_sum f n = spec_sum g n.
Proof.
  induction n as [|n IH]; intros H; simpl; [reflexivity|].
  rewrite IH by (intros; apply H; lia). rewrite H by lia. reflexivity.
Qed.

Lemma py_sum_spec_sum (a : vec) : py_sum a = spec_sum (fun i => a.[i]) (length a).
Proof.
  induction a as [|x a IH] using rev_ind; [reflexivity|].
  rewrite py_sum_app, length_app, Nat.add_1_r. simpl.
  rewrite IH. f_equal.
  - apply spec_sum_ext. intros i Hi. unfold idx. rewrite app_nth1 by lia. reflexivity.
  - unfold idx. rewrite app_nth2 by lia. rewrite Nat.sub_diag. reflexivity.
Qed.

Lemma idx_insert (w : vec) (n i : nat) (x : R) :
  (<[n := x]> w).[i] = if decide (n = i /\ (n < length w)%nat) then x else w.[i].
Proof.
  unfold idx. rewrite !nth_lookup.
  destruct (decide (n = i /\ (n < length w)%nat)) as [[-> Hn]|Hne].
  - rewrite list_lookup_insert_eq by exact Hn. reflexivity.
  - destruct (decide (n = i)) as [->|Hni].
    + rewrite list_insert_ge by lia. reflexivity.
    + rewrite list_lookup_insert_ne by exact Hni. reflexivity.
Qed.

Lemma insert_idx_same (w : vec) (n : nat) : <[n := w.[n]]> w = w.
Proof.
  destruct (decide (n < length w)%nat) as [Hn|Hn].
  - apply list_insert_id. unfold idx. rewrite nth_lookup.
    destruct (lookup_lt_is_Some_2 w n Hn) as [x Hx]. rewrite Hx. reflexivity.
  - apply list_insert_ge. lia.
Qed.

Lemma fold_pointwise_length (F : nat -> R -> R) (l : list nat) (w : vec) :
  length (fold_left (pointwise F) l w) = length w.
Proof.
  revert w. induction l as [|a l IH]; intros w; simpl; [reflexivity|].
  rewrite IH. unfold pointwise. apply length_insert.
Qed.

Lemma fold_pointwise_idx (F : nat -> R -> R) (a n : nat) (w : vec) (i : nat) :
  (i < length w)%nat ->
  (fold_left (pointwise F) (seq a n) w).[i]
  = if decide (a <= i < a + n)%nat then F i w.[i] else w.[i].
Proof.
  revert a w. induction n as [|n IH]; intros a w Hi; simpl.
  - destruct (decide _); [lia | reflexivity].
  - rewrite IH by (unfold pointwise; rewrite length_insert; exact Hi).
    assert (Hpw : (pointwise F w a).[i] = if decide (a = i) then F i w.[i] else w.[i]).
    { unfold pointwise. rewrite idx_insert.
      destruct (decide (a = i /\ (a < length w)%nat)) as [[-> _]|Hne], (decide _);
        try reflexivity; try lia; subst; tauto. }
    rewrite !Hpw.
    destruct (decide (a = i)) as [->|Hne].
    + destruct (decide (S i <= i < S i + n)%nat); [lia|].
      destruct (decide (i <= i < i + S n)%nat); [reflexivity | lia].
    + destruct (decide (S a <= i < S a + n)%nat), (decide (a <= i < a + S n)%nat);
        try lia; reflexivity.
Qed.

Lemma fold_fill {A : Type} (g : nat -> A) (init : list A) (k : nat) :
  (k <= length init)%nat ->
  fold_left (fun acc j => <[j := g j]> acc) (seq 0 k) init = (g <$> seq 0 k) ++ drop k init.
Proof.
  induction k as [|k IH]; intros Hk.
  - reflexivity.
  - rewrite seq_S, fold_left_app, IH by lia. simpl.
    destruct (lookup_lt_is_Some_2 init k ltac:(lia)) as [y Hy].
    rewrite fmap_app, (drop_S init y k Hy), <- app_assoc. simpl.
    rewrite insert_app_r_alt by (rewrite length_fmap, length_seq; lia).
    rewrite length_fmap, length_seq, Nat.sub_diag. reflexivity.
Qed.

(** ** WindFrame *)

(** C7. The forward transform of WindFrame preserves the squared distance to
    the origin of every turbine, for every wind direction. *)
Theorem WindFrame_isometry (self : WindFrame.component) (p : WindFrame.params)
    (u : WindFrame.unknowns) (i : nat) :
  length (WindFrame.turbineX p) = WindFrame.nTurbines self ->
  length (WindFrame.turbineY p) = WindFrame.nTurbines self ->
  (i < WindFrame.nTurbines self)%nat ->
  let u' := WindFrame.solve_nonlinear self p u in
  (WindFrame.turbineXw u').[i] ^ 2 + (WindFrame.turbineYw u').[i] ^ 2
  = (WindFrame.turbineX p).[i] ^ 2 + (WindFrame.turbineY p).[i] ^ 2.
Proof.
  intros HX HY Hi u'.
  assert (WindFrame.turbineXw u' =
          vsub (vscale (WindFrame.turbineX p) (cos (- WindFrame.windDirectionRad (WindFrame.wind_direction p))))
               (vscale (WindFrame.turbineY p) (sin (- WindFrame.windDirectionRad (WindFrame.wind_direction p)))))
    as -> by (unfold u', WindFrame.solve_nonlinear; destruct (0 <? _)%nat; reflexivity).
  assert (WindFrame.turbineYw u' =
          vadd (vscale (WindFrame.turbineX p) (sin (- WindFrame.windDirectionRad (WindFrame.wind_direction p))))
               (vscale (WindFrame.turbineY p) (cos (- WindFrame.windDirectionRad (WindFrame.wind_direction p)))))
    as -> by (unfold u', WindFrame.solve_nonlinear; destruct (0 <? _)%nat; reflexivity).
  unfold vsub, vadd, vscale.
  rewrite !idx_zip_with by (rewrite !length_fmap; lia).
  rewrite !idx_fmap by lia.
  set (t := - WindFrame.windDirectionRad _).
  pose proof (sin2_cos2 t) as H. unfold Rsqr in H.
  nra.
Qed.

(** ** WindFarmAEP *)

(** C3. With [S = 8760 · Σ_i dirPowers_i · windFrequencies_i], the forward
    pass of WindFarmAEP outputs [S] for method 'none', [ln S] for 'log'
    where [0 < S] and [1/S] for 'inverse' where [S <> 0]; for dirPowers
    [100, 200] and windFrequencies [0.5, 0.5] with method 'none' the output
    is 1314000. *)
Theorem WindFarmAEP_forward (self : WindFarmAEP.component) (dp wf : vec) (calls : nat) :
  length dp = WindFarmAEP.nDirections self ->
  length wf = WindFarmAEP.nDirections self ->
  let S := 8760 * spec_sum (fun i => dp.[i] * wf.[i]) (WindFarmAEP.nDirections self) in
  let out m := AEP_output (WindFarmAEP.solve_nonlinear self (WindFarmAEP.Params dp wf m) calls) in
  out "none"%string = Some S /\
  (0 < S -> out "log"%string = Some (ln S)) /\
  (S <> 0 -> out "inverse"%string = Some (/ S)) /\
  AEP_output (WindFarmAEP.solve_nonlinear (WindFarmAEP.Build 2 false)
                (WindFarmAEP.Params [100; 200] [0.5; 0.5] "none") 0) = Some 1314000.
Proof.
  intros Hdp Hwf S out.
  assert (HS : py_sum (vmul dp wf) * WindFarmAEP.hours = S).
  { unfold S, WindFarmAEP.hours. rewrite py_sum_spec_sum.
    unfold vmul at 2. rewrite length_zip_with, Hdp, Hwf, Nat.min_id.
    rewrite Rmult_comm. f_equal. apply spec_sum_ext. intros i Hi.
    apply idx_zip_with; lia. }
  split; [|split; [|split]].
  - unfold out, WindFarmAEP.solve_nonlinear; simpl. rewrite HS. reflexivity.
  - intros _. unfold out, WindFarmAEP.solve_nonlinear; simpl. rewrite HS. reflexivity.
  - intros HS0. unfold out, WindFarmAEP.solve_nonlinear.
    cbn [WindFarmAEP.dirPowers WindFarmAEP.windFrequencies WindFarmAEP.AEP_method].
    destruct (decide ("inverse"%string = "none"%string)) as [E|_]; [discriminate E|].
    destruct (decide ("inverse"%string = "log"%string)) as [E|_]; [discriminate E|].
    destruct (decide ("inverse"%string = "inverse"%string)) as [_|E]; [|congruence].
    destruct (vmul dp wf) as [|x l] eqn:Hv.
    + exfalso. apply HS0. rewrite <- HS. unfold py_sum. simpl. lra.
    + rewrite HS. reflexivity.
  - unfold WindFarmAEP.solve_nonlinear, WindFarmAEP.hours, py_sum; simpl. f_equal. lra.
Qed.

(** ** WindDirectionPower *)

Lemma power_curve_step_pointwise (p : WindDirectionPower.params) (w : vec) (n : nat) :
  WindDirectionPower.power_curve_step p w n = pointwise (power_curve_value p) w n.
Proof.
  unfold WindDirectionPower.power_curve_step, pointwise, power_curve_value.
  repeat case_decide; try reflexivity.
  symmetry. apply insert_idx_same.
Qed.

Lemma fold_left_ext {A B : Type} (f g : A -> B -> A) (l : list B) (a : A) :
  (forall x y, f x y = g x y) -> fold_left f l a = fold_left g l a.
Proof.
  intros H. revert a. induction l as [|b l IH]; intros a; simpl; [reflexivity|].
  rewrite H. apply IH.
Qed.

Lemma idx_np_zeros (n i : nat) : (np_zeros n).[i] = 0.
Proof.
  unfold idx, np_zeros. rewrite nth_lookup.
  destruct (decide (i < n)%nat).
  - rewrite lookup_replicate_2 by lia. reflexivity.
  - rewrite lookup_ge_None_2 by (rewrite length_replicate; lia). reflexivity.
Qed.

(** C4, amended. In power-curve mode, with envelope arrays of [nTurbines]
    entries, the power of turbine [n] is the cubic ramp on
    [cut_in <= v < rated_wind_speed], the rated power on
    [rated_wind_speed <= v < cut_out], and [0] otherwise; so it is [0] at
    [v = cut_in] when [cut_in < rated_wind_speed], and the rated power at
    [v = rated_wind_speed] when [rated_wind_speed < cut_out]; and
    [dir_power] is the sum of [wtPower] over the turbines. *)
Theorem WindDirectionPower_power_curve (self : WindDirectionPower.component)
    (p : WindDirectionPower.params) (n : nat) :
  WindDirectionPower.use_power_curve_definition p = true ->
  (n < WindDirectionPower.nTurbines self)%nat ->
  length (WindDirectionPower.wtVelocity p) = WindDirectionPower.nTurbines self ->
  length (WindDirectionPower.rated_power p) = WindDirectionPower.nTurbines self ->
  length (WindDirectionPower.cut_in_speed p) = WindDirectionPower.nTurbines self ->
  length (WindDirectionPower.rated_wind_speed p) = WindDirectionPower.nTurbines self ->
  length (WindDirectionPower.cut_out_speed p) = WindDirectionPower.nTurbines self ->
  let u := (WindDirectionPower.solve_nonlinear self p).2 in
  let wtPower := WindDirectionPower.wtPower u in
  let v := (WindDirectionPower.wtVelocity p).[n] in
  let cut_in := (WindDirectionPower.cut_in_speed p).[n] in
  let rated := (WindDirectionPower.rated_wind_speed p).[n] in
  let cut_out := (WindDirectionPower.cut_out_speed p).[n] in
  let rated_power := (WindDirectionPower.rated_power p).[n] in
  (cut_in <= v /\ v < rated ->
     wtPower.[n] = rated_power * ((v - cut_in) / (rated - cut_in)) ^ 3) /\
  (rated <= v /\ v < cut_out -> wtPower.[n] = rated_power) /\
  (~ (cut_in <= v /\ v < rated) -> ~ (rated <= v /\ v < cut_out) -> wtPower.[n] = 0) /\
  (v = cut_in -> cut_in < rated -> wtPower.[n] = 0) /\
  (v = rated -> rated < cut_out -> wtPower.[n] = rated_power) /\
  length wtPower = WindDirectionPower.nTurbines self /\
  WindDirectionPower.dir_power u
  = spec_sum (fun k => wtPower.[k]) (WindDirectionPower.nTurbines self).
Proof.
  intros Hmode Hn _ _ _ _ _ u wtPower v cut_in rated cut_out rated_power.
  assert (Hw : wtPower = fold_left (pointwise (power_curve_value p))
                           (seq 0 (WindDirectionPower.nTurbines self))
                           (np_zeros (WindDirectionPower.nTurbines self))).
  { unfold wtPower, u, WindDirectionPower.solve_nonlinear. rewrite Hmode. simpl.
    apply fold_left_ext. apply power_curve_step_pointwise. }
  assert (Hlen : length wtPower = WindDirectionPower.nTurbines self).
  { rewrite Hw, fold_pointwise_length. apply length_replicate. }
  assert (Hval : wtPower.[n] = power_curve_value p n 0).
  { rewrite Hw, fold_pointwise_idx by (unfold np_zeros; rewrite length_replicate; lia).
    rewrite idx_np_zeros. destruct (decide _); [reflexivity | lia]. }
  assert (Hsum : WindDirectionPower.dir_power u
                 = spec_sum (fun k => wtPower.[k]) (WindDirectionPower.nTurbines self)).
  { rewrite <- Hlen, <- py_sum_spec_sum.
    unfold wtPower, u, WindDirectionPower.solve_nonlinear. rewrite Hmode. reflexivity. }
  rewrite Hval. unfold power_curve_value.
  fold v cut_in rated cut_out rated_power.
  repeat split; try assumption.
  - intros H. rewrite decide_True by exact H. reflexivity.
  - intros H. rewrite decide_False by lra. rewrite decide_True by exact H. reflexivity.
  - intros H1 H2. rewrite decide_False by exact H1. rewrite decide_False by exact H2.
    reflexivity.
  - intros Hv Hlt. rewrite decide_True by lra. rewrite Hv.
    replace (cut_in - cut_in) with 0 by lra. unfold Rdiv. rewrite Rmult_0_l. lra.
  - intros Hv Hlt. rewrite decide_False by lra. rewrite decide_True by lra. reflexivity.
Qed.

(** C4, as stated, fails on a degenerate envelope.  With the cut-in speed
    equal to the rated wind speed there is no ramp, and a wind at that
    speed falls in the rated branch: the power at [v = cut_in] is the rated
    power, not [0].  With the rated wind speed equal to the cut-out speed
    there is no rated branch, and the power at [v = rated_wind_speed] is
    [0], not the rated power. *)
Lemma WindDirectionPower_degenerate_envelope :
  let self := WindDirectionPower.Build 1 0 false 1 None in
  let power p := (WindDirectionPower.wtPower (WindDirectionPower.solve_nonlinear self p).2).[0] in
  ((WindDirectionPower.wtVelocity no_ramp_params).[0]
   = (WindDirectionPower.cut_in_speed no_ramp_params).[0] /\
   power no_ramp_params = 5000 /\ power no_ramp_params <> 0) /\
  ((WindDirectionPower.wtVelocity no_plateau_params).[0]
   = (WindDirectionPower.rated_wind_speed no_plateau_params).[0] /\
   power no_plateau_params = 0 /\
   power no_plateau_params <> (WindDirectionPower.rated_power no_plateau_params).[0]).
Proof.
  cbv beta zeta.
  assert (H1 : (WindDirectionPower.wtPower
                  (WindDirectionPower.solve_nonlinear
                     (WindDirectionPower.Build 1 0 false 1 None) no_ramp_params).2).[0] = 5000).
  { unfold WindDirectionPower.solve_nonlinear, no_ramp_params. simpl.
    unfold WindDirectionPower.power_curve_step, idx. simpl.
    rewrite decide_False by lra. rewrite decide_True by lra. reflexivity. }
  assert (H2 : (WindDirectionPower.wtPower
                  (WindDirectionPower.solve_nonlinear
                     (WindDirectionPower.Build 1 0 false 1 None) no_plateau_params).2).[0] = 0).
  { unfold WindDirectionPower.solve_nonlinear, no_plateau_params. simpl.
    unfold WindDirectionPower.power_curve_step, idx. simpl.
    rewrite decide_False by lra. rewrite decide_False by lra. reflexivity. }
  rewrite H1, H2. unfold idx. simpl.
  repeat split; try reflexivity; lra.
Qed.

(** The store is left alone in power-curve mode, when a spline is given,
    and when there is a single Cp point. *)
Lemma WindDirectionPower_solve_keeps_params (self : WindDirectionPower.component)
    (p : WindDirectionPower.params) :
  WindDirectionPower.use_power_curve_definition p = true
  \/ WindDirectionPower.cp_curve_spline self <> None
  \/ (WindDirectionPower.cp_points self <= 1)%nat ->
  (WindDirectionPower.solve_nonlinear self p).1 = p.
Proof.
  unfold WindDirectionPower.solve_nonlinear.
  intros [H | [H | H]].
  - rewrite H. reflexivity.
  - destruct (WindDirectionPower.use_power_curve_definition p); [reflexivity|].
    destruct (WindDirectionPower.cp_curve_spline self); [|congruence].
    destruct (1 <? _)%nat; reflexivity.
  - destruct (WindDirectionPower.use_power_curve_definition p); [reflexivity|].
    replace (1 <? WindDirectionPower.cp_points self)%nat with false
      by (symmetry; apply Nat.ltb_ge; exact H).
    reflexivity.
Qed.

(** In coefficient mode with a Cp table and no spline, the forward pass
    leaves in [params['Cp'][i]] the coefficient interpolated at the speed
    of turbine [i], whatever was stored there. *)
Lemma WindDirectionPower_solve_table_writes_Cp (self : WindDirectionPower.component)
    (p : WindDirectionPower.params) (i : nat) :
  WindDirectionPower.use_power_curve_definition p = false ->
  WindDirectionPower.cp_curve_spline self = None ->
  (1 < WindDirectionPower.cp_points self)%nat ->
  (i < WindDirectionPower.nTurbines self)%nat ->
  length (WindDirectionPower.Cp p) = WindDirectionPower.nTurbines self ->
  (WindDirectionPower.Cp (WindDirectionPower.solve_nonlinear self p).1).[i]
  = np_interp (WindDirectionPower.wtVelocity p).[i]
      (WindDirectionPower.cp_curve_wind_speed p) (WindDirectionPower.cp_curve_cp p).
Proof.
  intros Hmode Hspline Hpoints Hi Hlen.
  unfold WindDirectionPower.solve_nonlinear. rewrite Hmode, Hspline.
  replace (1 <? WindDirectionPower.cp_points self)%nat with true
    by (symmetry; apply Nat.ltb_lt; exact Hpoints).
  cbn [fst].
  set (g := fun k => np_interp (WindDirectionPower.wtVelocity p).[k]
                       (WindDirectionPower.cp_curve_wind_speed p)
                       (WindDirectionPower.cp_curve_cp p)).
  assert (Hfold : forall l q,
             WindDirectionPower.wtVelocity q = WindDirectionPower.wtVelocity p ->
             WindDirectionPower.cp_curve_wind_speed q = WindDirectionPower.cp_curve_wind_speed p ->
             WindDirectionPower.cp_curve_cp q = WindDirectionPower.cp_curve_cp p ->
             WindDirectionPower.Cp (fold_left WindDirectionPower.interp_Cp_step l q)
             = fold_left (fun acc k => <[k := g k]> acc) l (WindDirectionPower.Cp q)).
  { induction l as [|k l IH]; intros q H1 H2 H3; simpl; [reflexivity|].
    rewrite IH by (simpl; assumption). f_equal.
    unfold WindDirectionPower.interp_Cp_step, WindDirectionPower.store_Cp. simpl.
    unfold g. rewrite H1, H2, H3. reflexivity. }
  rewrite Hfold by reflexivity.
  rewrite fold_fill by lia.
  unfold idx. apply nth_lookup_Some.
  rewrite lookup_app_l by (rewrite length_fmap, length_seq; lia).
  rewrite list_lookup_fmap, lookup_seq_lt by lia. reflexivity.
Qed.

(** C2. The forward pass of WindDirectionPower in coefficient mode with a
    Cp table and no spline writes the interpolated coefficient into the
    input array [Cp]: the stored [0.4] has become [0.25] after the call. *)
Theorem WindDirectionPower_solve_overwrites_Cp :
  WindDirectionPower.Cp table_params = [0.4] /\
  WindDirectionPower.Cp (WindDirectionPower.solve_nonlinear table_component table_params).1
  = [0.25] /\
  (WindDirectionPower.solve_nonlinear table_component table_params).1 <> table_params.
Proof.
  assert (H : WindDirectionPower.Cp
                (WindDirectionPower.solve_nonlinear table_component table_params).1 = [0.25]).
  { cbn. unfold WindDirectionPower.interp_Cp_step, np_interp, idx. cbn.
    destruct (Rlt_dec 5 0) as [H|_]; [lra|].
    destruct (Rlt_dec 10 5) as [H|_]; [lra|].
    destruct (Rlt_dec 5 10) as [_|H]; [|lra].
    f_equal. lra. }
  split; [reflexivity|]. split; [exact H|].
  intros Heq. rewrite Heq in H. cbn in H.
  injection H as H. lra.
Qed.

(** ** BoundaryComp and the invalid-configuration errors *)

(** An unknown [AEP_method] makes both passes of WindFarmAEP raise the
    [ValueError] of lines 298 and 329. *)
Lemma WindFarmAEP_invalid_method (self : WindFarmAEP.component) (dp wf : vec)
    (m : string) (calls : nat) :
  m <> "none"%string -> m <> "log"%string -> m <> "inverse"%string ->
  WindFarmAEP.solve_nonlinear self (WindFarmAEP.Params dp wf m) calls
  = Raise WindFarmAEP.invalid_method /\
  WindFarmAEP.linearize self (WindFarmAEP.Params dp wf m) calls
  = Raise WindFarmAEP.invalid_method.
Proof.
  intros H1 H2 H3.
  unfold WindFarmAEP.solve_nonlinear, WindFarmAEP.linearize; simpl.
  rewrite !decide_False by assumption. split; reflexivity.
Qed.

(** A vertex count below one never yields a component, and never the
    [ValueError] that line 742 builds. *)
Lemma BoundaryComp_init_invalid (nTurbines : nat) (nVertices : Z) :
  (nVertices < 1)%Z ->
  BoundaryComp.init nTurbines nVertices = Raise (UnboundLocalError "type").
Proof.
  intros H. unfold BoundaryComp.init.
  destruct (Z.ltb_spec 1 nVertices); [lia|].
  destruct (Z.eqb_spec nVertices 1); [lia|]. reflexivity.
Qed.

(** C5. [BoundaryComp(nTurbines=1, nVertices=0)]: the invalid-configuration
    [ValueError] is not what reaches the caller; the constructor stops one
    statement later on the unassigned local [type]. *)
Theorem BoundaryComp_init_zero_vertices :
  BoundaryComp.init 1 0 = Raise (UnboundLocalError "type") /\
  (forall msg, BoundaryComp.init 1 0 <> Raise (ValueError msg)).
Proof.
  split; [reflexivity|]. intros msg H. discriminate H.
Qed.

(** ** CPCT interpolation *)


Lemma np_interp_array_ok (x xp fp : vec) :
  xp <> [] -> length fp = length xp ->
  np_interp_array x xp fp = Ok ((fun x => np_interp x xp fp) <$> x).
Proof.
  intros Hne Hlen. unfold np_interp_array.
  rewrite decide_False by exact Hne. rewrite decide_True by exact Hlen. reflexivity.
Qed.

Lemma np_interp_array_mismatch (x xp fp : vec) :
  xp <> [] -> length fp <> length xp ->
  np_interp_array x xp fp = Raise (ValueError "fp and xp are not of the same length.").
Proof.
  intros Hne Hlen. unfold np_interp_array.
  rewrite decide_False by exact Hne. rewrite decide_False by exact Hlen. reflexivity.
Qed.

(** On a non-empty table whose coefficient arrays have the length of the
    wind-speed array, lines 1084-1095 return the table values at the
    clamped axial speeds, scaled by the yaw factors. *)
Lemma CPCT_coefficients_value (p : CPCT_Interpolate_Gradients.params) (yaw v : vec) :
  let ws := CPCT_Interpolate_Gradients.windSpeedToCPCT_wind_speed p in
  let CP := CPCT_Interpolate_Gradients.windSpeedToCPCT_CP p in
  let CT := CPCT_Interpolate_Gradients.windSpeedToCPCT_CT p in
  let pP := CPCT_Interpolate_Gradients.pP p in
  let x := np_minimum
             (np_maximum
                (vmul ((fun c => np_power c (pP / 3))
                         <$> CPCT_Interpolate_Gradients.cos_yaw yaw) v)
                (List.hd 0 ws))
             (List.last ws 0) in
  ws <> [] -> length CP = length ws -> length CT = length ws ->
  CPCT_Interpolate_Gradients.coefficients p yaw v
  = Ok (CPCT_Interpolate_Gradients.Unknowns
          (vmul ((fun x => np_interp x ws CP) <$> x)
                ((fun c => np_power c pP) <$> CPCT_Interpolate_Gradients.cos_yaw yaw))
          (vmul ((fun x => np_interp x ws CT) <$> x)
                ((fun c => c ^ 2) <$> CPCT_Interpolate_Gradients.cos_yaw yaw))).
Proof.
  intros ws CP CT pP x Hne HCP HCT.
  unfold CPCT_Interpolate_Gradients.coefficients, CPCT_Interpolate_Gradients.wind_speed_ax.
  fold ws CP CT pP.
  assert (Hx : match ws with
               | [] => Raise IndexError
               | first :: _ =>
                   Ok (np_minimum
                         (np_maximum
                            (vmul ((fun c => np_power c (pP / 3))
                                     <$> CPCT_Interpolate_Gradients.cos_yaw yaw) v)
                            first)
                         (List.last ws 0))
               end = Ok x).
  { unfold x. destruct ws; [congruence | reflexivity]. }
  rewrite Hx, !np_interp_array_ok by assumption. reflexivity.
Qed.



Lemma np_power_one (y : R) : np_power 1 y = 1.
Proof.
  unfold np_power. destruct (Req_EM_T 1 0) as [H|_]; [lra|].
  unfold Rpower. rewrite ln_1, Rmult_0_r. apply exp_0.
Qed.




(** ** MUX and DeMUX *)

Lemma for_range_app {S : Type} (body : S -> nat -> result S) (l1 l2 : list nat) (s : S) :
  for_range body (l1 ++ l2) s
  = match for_range body l1 s with
    | Ok s' => for_range body l2 s'
    | Raise e => Raise e
    end.
Proof.
  revert s. induction l1 as [|i l1 IH]; intros s; simpl; [reflexivity|].
  destruct (body s i); [apply IH | reflexivity].
Qed.

Lemma range_0_S (k : nat) : range 0 (S k) = range 0 k ++ [k].
Proof. unfold range. rewrite !Nat.sub_0_r. apply seq_S. Qed.

Lemma MUX_solve_prefix (params : gmap string R) (v Array0 : vec) (k : nat) :
  (forall i x, v !! i = Some x -> params !! MUX.input_name i = Some x) ->
  length Array0 = length v -> (k <= length v)%nat ->
  for_range (MUX.solve_step params) (range 0 k) Array0 = Ok (take k v ++ drop k Array0).
Proof.
  intros Hp Hlen. induction k as [|k IH]; intros Hk.
  - reflexivity.
  - rewrite range_0_S, for_range_app, IH by lia. simpl.
    destruct (lookup_lt_is_Some_2 v k ltac:(lia)) as [x Hx].
    destruct (lookup_lt_is_Some_2 Array0 k ltac:(lia)) as [y Hy].
    unfold MUX.solve_step. rewrite (Hp k x Hx).
    rewrite decide_True
      by (rewrite length_app, length_take, length_drop; lia).
    f_equal. rewrite (take_S_r v k x Hx), (drop_S Array0 y k Hy), <- app_assoc.
    rewrite insert_app_r_alt by (rewrite length_take; lia).
    rewrite length_take, Nat.min_l, Nat.sub_diag by lia. reflexivity.
Qed.

#[global] Instance MUX_input_name_inj : Inj (=) (=) MUX.input_name.
Proof. intros i j H. unfold MUX.input_name in H. by simplify_eq. Qed.

#[global] Instance DeMUX_output_name_inj : Inj (=) (=) DeMUX.output_name.
Proof. intros i j H. unfold DeMUX.output_name in H. by simplify_eq. Qed.

Lemma DeMUX_solve_prefix (Array : vec) (unknowns0 : gmap string R) (k : nat) :
  (k <= length Array)%nat ->
  exists out, for_range (DeMUX.solve_step Array) (range 0 k) unknowns0 = Ok out /\
    (forall i, (i < k)%nat -> out !! DeMUX.output_name i = Array !! i) /\
    (forall key, (forall i, (i < k)%nat -> key <> DeMUX.output_name i) ->
                 out !! key = unknowns0 !! key).
Proof.
  induction k as [|k IH]; intros Hk.
  - exists unknowns0. split; [reflexivity|]. split; [intros; lia | reflexivity].
  - destruct IH as (out & Hrun & Hin & Hout); [lia|].
    destruct (lookup_lt_is_Some_2 Array k ltac:(lia)) as [x Hx].
    exists (<[DeMUX.output_name k := x]> out).
    rewrite range_0_S, for_range_app, Hrun. simpl.
    unfold DeMUX.solve_step. rewrite Hx. split; [reflexivity|]. split.
    + intros i Hi. destruct (decide (i = k)) as [->|Hne].
      * rewrite lookup_insert_eq. symmetry. exact Hx.
      * rewrite lookup_insert_ne by (intros H; apply Hne; symmetry; exact (inj _ _ _ H)).
        apply Hin. lia.
    + intros key Hkey.
      rewrite lookup_insert_ne by (intros H; apply (Hkey k); [lia | symmetry; exact H]).
      apply Hout. intros i Hi. apply Hkey. lia.
Qed.

(** C8. Feeding the elements of [v] to the inputs [input0 .. input(N-1)] of
    a MUX and its [Array] to a DeMUX of the same size gives [v] back:
    [Array] is [v], and output [i] holds [v[i]]. *)
Theorem MUX_DeMUX_roundtrip (v : vec) (params : gmap string R) (Array0 : vec)
    (unknowns0 : gmap string R) :
  (forall i x, v !! i = Some x -> params !! MUX.input_name i = Some x) ->
  length Array0 = length v ->
  exists Array out,
    MUX.solve_nonlinear (MUX.Build (length v)) params Array0 = Ok Array /\
    DeMUX.solve_nonlinear (DeMUX.Build (length v)) Array unknowns0 = Ok out /\
    Array = v /\
    forall i, (i < length v)%nat -> out !! DeMUX.output_name i = v !! i.
Proof.
  intros Hp Hlen.
  destruct (DeMUX_solve_prefix v unknowns0 (length v) ltac:(lia)) as (out & Hrun & Hin & _).
  exists v, out. repeat split.
  - unfold MUX.solve_nonlinear. simpl.
    rewrite (MUX_solve_prefix params v Array0 (length v) Hp Hlen) by lia.
    rewrite firstn_all, drop_ge, app_nil_r by lia. reflexivity.
  - exact Hrun.
  - exact Hin.
Qed.

(** ** The boundary helpers *)

Lemma insert_take_drop {A : Type} (new old : list A) (k : nat) (x : A) :
  new !! k = Some x -> (k < length old)%nat ->
  <[k := x]> (take k new ++ drop k old) = take (S k) new ++ drop (S k) old.
Proof.
  intros Hx Hk.
  destruct (lookup_lt_is_Some_2 old k Hk) as [y Hy].
  pose proof (lookup_lt_Some _ _ _ Hx) as Hk'.
  rewrite (take_S_r new k x Hx), (drop_S old y k Hy), <- app_assoc.
  rewrite insert_app_r_alt by (rewrite length_take; lia).
  rewrite length_take, Nat.min_l, Nat.sub_diag by lia. reflexivity.
Qed.

Lemma keep_take_drop {A : Type} (new old : list A) (k : nat) (x : A) :
  new !! k = Some x -> old !! k = Some x ->
  take k new ++ drop k old = take (S k) new ++ drop (S k) old.
Proof.
  intros Hx Hy.
  rewrite (take_S_r new k x Hx), (drop_S old x k Hy), <- app_assoc. reflexivity.
Qed.

Lemma face_loop (points vertices unit_normals : list vec2) (i : nat) (pt : vec2)
    (fd : matrix) (k : nat) :
  points !! i = Some pt ->
  length unit_normals = length vertices ->
  (k <= length vertices)%nat ->
  (forall r, fd !! i = Some r -> length r = length vertices) ->
  for_range (face_step points vertices unit_normals i) (range 0 k) fd
  = Ok (alter (fun r => take k (distance_row vertices unit_normals pt) ++ drop k r) i fd).
Proof.
  intros Hpt Hlen Hk Hrow. induction k as [|k IH].
  - simpl. rewrite list_alter_id; [reflexivity|]. intros r. reflexivity.
  - rewrite range_0_S, for_range_app, IH by lia. simpl.
    destruct (lookup_lt_is_Some_2 vertices k ltac:(lia)) as [v Hv].
    destruct (lookup_lt_is_Some_2 unit_normals k ltac:(lia)) as [n Hn].
    unfold face_step. rewrite Hpt, Hv, Hn. unfold mset.
    rewrite list_alter_alter_eq. f_equal.
    apply list_alter_ext; [|reflexivity].
    intros r Hr. simpl. apply insert_take_drop.
    + unfold distance_row. rewrite lookup_zip_with, Hv, Hn. reflexivity.
    + rewrite (Hrow r Hr). lia.
Qed.

Lemma length_distance_row (vertices unit_normals : list vec2) (pt : vec2) :
  length unit_normals = length vertices ->
  length (distance_row vertices unit_normals pt) = length vertices.
Proof. intros H. unfold distance_row. rewrite length_zip_with. lia. Qed.

(** The loop over the faces of point [k], run on an array whose rows below
    [k] are already filled. *)
Lemma face_loop_row (points vertices unit_normals : list vec2) (fd0 : matrix) (k : nat) :
  length unit_normals = length vertices ->
  (k < length points)%nat ->
  length fd0 = length points ->
  Forall (fun r => length r = length vertices) fd0 ->
  let rows := distance_rows points vertices unit_normals in
  for_range (face_step points vertices unit_normals k) (range 0 (length vertices))
            (take k rows ++ drop k fd0)
  = Ok (take (S k) rows ++ drop (S k) fd0).
Proof.
  intros Hlen Hk Hfd Hrows rows.
  destruct (lookup_lt_is_Some_2 points k Hk) as [pt Hpt].
  destruct (lookup_lt_is_Some_2 fd0 k ltac:(lia)) as [r0 Hr0].
  assert (Hr0len : length r0 = length vertices).
  { rewrite Forall_lookup in Hrows. exact (Hrows k r0 Hr0). }
  assert (Hrowk : rows !! k = Some (distance_row vertices unit_normals pt)).
  { unfold rows, distance_rows. rewrite list_lookup_fmap, Hpt. reflexivity. }
  assert (Htk : length (take k rows) = k).
  { rewrite length_take. unfold rows, distance_rows. rewrite length_fmap. lia. }
  assert (Hcur : (take k rows ++ drop k fd0) !! k = Some r0).
  { rewrite lookup_app_r by lia. rewrite Htk, Nat.sub_diag, lookup_drop, Nat.add_0_r.
    exact Hr0. }
  rewrite (face_loop points vertices unit_normals k pt _ (length vertices) Hpt Hlen).
  - f_equal.
    rewrite <- (insert_take_drop rows fd0 k _ Hrowk) by lia.
    rewrite list_insert_alter. apply list_alter_ext; [|reflexivity].
    intros r Hr. rewrite Hcur in Hr. injection Hr as <-.
    rewrite take_ge by (rewrite length_distance_row; lia).
    rewrite drop_ge by lia. apply app_nil_r.
  - lia.
  - intros r Hr. rewrite Hcur in Hr. injection Hr as <-. exact Hr0len.
Qed.

Lemma distance_loop (points vertices unit_normals : list vec2) (fd0 : matrix) (k : nat) :
  length unit_normals = length vertices ->
  (k <= length points)%nat ->
  length fd0 = length points ->
  Forall (fun r => length r = length vertices) fd0 ->
  for_range (fun fd i => for_range (face_step points vertices unit_normals i)
                                   (range 0 (length vertices)) fd)
            (range 0 k) fd0
  = Ok (take k (distance_rows points vertices unit_normals) ++ drop k fd0).
Proof.
  intros Hlen Hk Hfd Hrows. induction k as [|k IH].
  - reflexivity.
  - rewrite range_0_S, for_range_app, IH by lia. simpl.
    rewrite face_loop_row by (assumption || lia). reflexivity.
Qed.

Lemma inside_loop (points vertices unit_normals : list vec2) (fd0 : matrix) (k : nat) :
  length unit_normals = length vertices ->
  (k <= length points)%nat ->
  length fd0 = length points ->
  Forall (fun r => length r = length vertices) fd0 ->
  for_range (inside_step points vertices unit_normals) (range 0 k)
            (fd0, np_zeros (length points))
  = Ok (take k (distance_rows points vertices unit_normals) ++ drop k fd0,
        take k (inside_flags points vertices unit_normals)
        ++ drop k (np_zeros (length points))).
Proof.
  intros Hlen Hk Hfd Hrows. induction k as [|k IH].
  - reflexivity.
  - rewrite range_0_S, for_range_app, IH by lia. simpl.
    rewrite face_loop_row by (assumption || lia).
    destruct (lookup_lt_is_Some_2 points k ltac:(lia)) as [pt Hpt].
    set (rows := distance_rows points vertices unit_normals).
    set (flags := inside_flags points vertices unit_normals).
    assert (Hrowk : rows !! k = Some (distance_row vertices unit_normals pt)).
    { unfold rows, distance_rows. rewrite list_lookup_fmap, Hpt. reflexivity. }
    assert (Hnth : nth k (take (S k) rows ++ drop (S k) fd0) []
                   = distance_row vertices unit_normals pt).
    { apply nth_lookup_Some. rewrite lookup_app_l.
      - rewrite lookup_take_lt by lia. exact Hrowk.
      - rewrite length_take. unfold rows, distance_rows. rewrite length_fmap. lia. }
    rewrite Hnth.
    assert (Hflag : flags !! k
                    = Some (if all_nonneg (distance_row vertices unit_normals pt)
                            then 1 else 0)).
    { unfold flags, inside_flags. rewrite list_lookup_fmap, Hpt. reflexivity. }
    destruct (all_nonneg (distance_row vertices unit_normals pt)).
    + rewrite (insert_take_drop flags _ k 1 Hflag)
        by (unfold np_zeros; rewrite length_replicate; lia).
      reflexivity.
    + rewrite (keep_take_drop flags _ k 0 Hflag)
        by (unfold np_zeros; apply lookup_replicate_2; lia).
      reflexivity.
Qed.

Lemma unit_normal_dot (n : vec2) : norm2 n = 1 -> n.1 * n.1 + n.2 * n.2 = 1.
Proof.
  unfold norm2. intros H.
  assert (Hnn : 0 <= n.1 * n.1 + n.2 * n.2) by nra.
  rewrite <- (sqrt_sqrt _ Hnn), H. lra.
Qed.

Lemma face_value_unit (pt v n : vec2) :
  norm2 n = 1 -> face_value pt v n = vdot (v.1 - pt.1, v.2 - pt.2) n.
Proof.
  intros H. apply unit_normal_dot in H.
  transitivity (vdot (v.1 - pt.1, v.2 - pt.2) n * (n.1 * n.1 + n.2 * n.2)).
  - unfold face_value, vdot, scale2. simpl. ring.
  - rewrite H. ring.
Qed.

Lemma all_nonneg_spec (a : vec) :
  all_nonneg a = true <-> forall j x, a !! j = Some x -> x >= 0.
Proof.
  unfold all_nonneg. rewrite forallb_forall. split.
  - intros H j x Hx. apply (bool_decide_eq_true_1 (x >= 0)).
    apply H. apply list_elem_of_In. eapply list_elem_of_lookup_2. exact Hx.
  - intros H x Hx. apply (bool_decide_eq_true_2 (x >= 0)).
    apply list_elem_of_In, list_elem_of_lookup in Hx as [j Hj]. exact (H j x Hj).
Qed.

(** C10. With normals that match the vertices and have unit length,
    [calculate_distance(..., return_bool=True)] returns the face distances
    [dot(vertices[j] - points[i], unit_normals[j])] and flags with
    [inside[i] = 1] exactly when all of them are non-negative and
    [inside[i] = 0] otherwise; the distance array is the one returned with
    [return_bool=False]. *)
Theorem calculate_distance_inside (points vertices unit_normals : list vec2) :
  length unit_normals = length vertices ->
  Forall (fun n => norm2 n = 1) unit_normals ->
  exists face_distance inside,
    calculate_distance points vertices unit_normals true
    = Ok (DistancesInside face_distance inside) /\
    calculate_distance points vertices unit_normals false = Ok (Distances face_distance) /\
    length face_distance = length points /\
    length inside = length points /\
    forall i pt, points !! i = Some pt ->
      let all_faces_nonneg :=
        forall j v n, vertices !! j = Some v -> unit_normals !! j = Some n ->
                      vdot (v.1 - pt.1, v.2 - pt.2) n >= 0 in
      (forall j v n, vertices !! j = Some v -> unit_normals !! j = Some n ->
         idx2 face_distance i j = vdot (v.1 - pt.1, v.2 - pt.2) n) /\
      (all_faces_nonneg -> inside.[i] = 1) /\
      (~ all_faces_nonneg -> inside.[i] = 0).
Proof.
  intros Hlen Hunit.
  set (fd0 := np_zeros2 (length points) (length vertices)).
  assert (Hfd0 : length fd0 = length points) by apply length_replicate.
  assert (Hrows0 : Forall (fun r => length r = length vertices) fd0).
  { apply Forall_replicate. apply length_replicate. }
  exists (distance_rows points vertices unit_normals),
         (inside_flags points vertices unit_normals).
  assert (Hfull : forall (A : Type) (new old : list A) (n : nat),
             length new = n -> length old = n -> take n new ++ drop n old = new).
  { intros A new old n H1 H2. rewrite take_ge, drop_ge, app_nil_r by lia. reflexivity. }
  assert (Hlr : length (distance_rows points vertices unit_normals) = length points)
    by (unfold distance_rows; apply length_fmap).
  assert (Hlf : length (inside_flags points vertices unit_normals) = length points)
    by (unfold inside_flags; apply length_fmap).
  assert (Hlz : length (np_zeros (length points)) = length points)
    by apply length_replicate.
  split; [|split; [|split; [|split]]].
  - unfold calculate_distance. simpl. fold fd0.
    rewrite (inside_loop points vertices unit_normals fd0 (length points)) by (assumption || lia).
    rewrite (Hfull _ _ fd0 (length points) Hlr Hfd0).
    rewrite (Hfull _ _ (np_zeros (length points)) (length points) Hlf Hlz).
    reflexivity.
  - unfold calculate_distance. simpl. fold fd0.
    rewrite (distance_loop points vertices unit_normals fd0 (length points)) by (assumption || lia).
    rewrite (Hfull _ _ fd0 (length points) Hlr Hfd0).
    reflexivity.
  - unfold distance_rows. apply length_fmap.
  - unfold inside_flags. apply length_fmap.
  - intros i pt Hpt all_faces_nonneg.
    assert (Hrow : nth i (distance_rows points vertices unit_normals) []
                   = distance_row vertices unit_normals pt).
    { apply nth_lookup_Some. unfold distance_rows. rewrite list_lookup_fmap, Hpt. reflexivity. }
    assert (Hentry : forall j v n, vertices !! j = Some v -> unit_normals !! j = Some n ->
              distance_row vertices unit_normals pt !! j
              = Some (vdot (v.1 - pt.1, v.2 - pt.2) n)).
    { intros j v n Hv Hn. unfold distance_row. rewrite lookup_zip_with, Hv, Hn. simpl.
      f_equal. apply face_value_unit.
      rewrite Forall_lookup in Hunit. exact (Hunit j n Hn). }
    assert (Hflag : (inside_flags points vertices unit_normals).[i]
                    = if all_nonneg (distance_row vertices unit_normals pt) then 1 else 0).
    { unfold idx. apply nth_lookup_Some. unfold inside_flags.
      rewrite list_lookup_fmap, Hpt. reflexivity. }
    assert (Hall : all_nonneg (distance_row vertices unit_normals pt) = true
                   <-> all_faces_nonneg).
    { rewrite all_nonneg_spec. unfold all_faces_nonneg. split.
      - intros H j v n Hv Hn. exact (H j _ (Hentry j v n Hv Hn)).
      - intros H j x Hx.
        unfold distance_row in Hx. apply lookup_zip_with_Some in Hx as (v & n & -> & Hv & Hn).
        rewrite face_value_unit by (rewrite Forall_lookup in Hunit; exact (Hunit j n Hn)).
        exact (H j v n Hv Hn). }
    split; [|split].
    + intros j v n Hv Hn. unfold idx2. rewrite Hrow.
      apply nth_lookup_Some. exact (Hentry j v n Hv Hn).
    + intros H. rewrite Hflag. apply Hall in H. rewrite H. reflexivity.
    + intros H. rewrite Hflag.
      destruct (all_nonneg (distance_row vertices unit_normals pt)) eqn:E; [|reflexivity].
      exfalso. apply H, Hall. reflexivity.
Qed.

Lemma normal_step_insert (vertices : list vec2) (nVertices : nat)
    (unit_normals : list vec2) (j : nat) :
  normal_step vertices nVertices unit_normals j
  = <[j := unit_normal vertices nVertices j]> unit_normals.
Proof.
  unfold normal_step, unit_normal. destruct (j <? nVertices - 1)%nat; reflexivity.
Qed.

Lemma take_rows_polygon (pts : list vec2) (hull : list nat) :
  Forall (fun k => (k < length pts)%nat) hull ->
  take_rows pts hull = Ok (polygon_of pts hull).
Proof.
  intros H. unfold take_rows.
  assert (Hm : mapM (fun k => pts !! k) hull = Some (polygon_of pts hull)).
  { apply mapM_Some. unfold polygon_of.
    induction H as [|k hull Hk _ IH]; simpl; constructor; [|exact IH].
    unfold row. destruct (lookup_lt_is_Some_2 pts k Hk) as [x Hx].
    rewrite Hx. f_equal. symmetry. apply nth_lookup_Some. exact Hx. }
  rewrite Hm. reflexivity.
Qed.

Lemma next_index (n j : nat) :
  (j < n)%nat -> (if (j <? n - 1)%nat then j + 1 else 0)%nat = ((j + 1) mod n)%nat.
Proof.
  intros Hj. destruct (Nat.ltb_spec j (n - 1)).
  - rewrite Nat.mod_small by lia. reflexivity.
  - replace (j + 1)%nat with n by lia. rewrite Nat.Div0.mod_same. reflexivity.
Qed.

(** The normal of a non-degenerate edge [e], turned a quarter to the right
    and scaled by its length: unit, normal to [e], and pointing away from
    whatever lies to the left of [e]. *)
Lemma right_normal (e d : vec2) :
  e <> (0, 0) ->
  let normal := (e.2, - e.1) in
  let u := div2 normal (norm2 normal) in
  norm2 u = 1 /\ vdot u e = 0 /\ (0 <= cross2 e d -> vdot u d <= 0).
Proof.
  destruct e as [dx dy], d as [qx qy]. intros Hne normal u.
  assert (Hpos : 0 < dy * dy + - dx * - dx).
  { destruct (Req_dec dx 0) as [Hx|Hx], (Req_dec dy 0) as [Hy|Hy]; subst; try nra.
    exfalso. apply Hne. reflexivity. }
  assert (HN : 0 < norm2 normal)
    by (unfold norm2, normal; simpl; apply sqrt_lt_R0; exact Hpos).
  assert (HNN : norm2 normal * norm2 normal = dy * dy + - dx * - dx).
  { unfold norm2, normal. simpl. apply sqrt_sqrt. lra. }
  unfold u, div2. remember (norm2 normal) as N eqn:EN. clear EN.
  unfold vdot, cross2, norm2, normal. simpl. repeat split.
  - replace (dy / N * (dy / N) + - dx / N * (- dx / N)) with 1.
    + apply sqrt_1.
    + transitivity ((dy * dy + - dx * - dx) / (N * N)).
      * rewrite <- HNN. field. lra.
      * field. lra.
  - field. lra.
  - intros Hc.
    replace (dy / N * qx + - dx / N * qy) with (- (dx * qy - dy * qx) * / N) by (field; lra).
    pose proof (Rinv_0_lt_compat N HN) as Hinv. nra.
Qed.

(** C9. Given the indices scipy's [ConvexHull] returns for the point set
    (in range, counter-clockwise, consecutive vertices distinct, every
    input point on the left of or on each edge), [calculate_boundary]
    returns the hull vertices and as many unit normals; normal [i] has
    length 1, is normal to the edge from vertex [i] to vertex [(i+1) mod n],
    and points outward: no input point lies on its positive side. *)
Theorem calculate_boundary_normals (ConvexHull : list vec2 -> result (list nat))
    (pts : list vec2) (hull : list nat) :
  ConvexHull pts = Ok hull ->
  Forall (fun k => (k < length pts)%nat) hull ->
  let n := length hull in
  let V i := row (polygon_of pts hull) i in
  (forall i, (i < n)%nat -> V ((i + 1) mod n)%nat <> V i) ->
  (forall i q, (i < n)%nat -> q ∈ pts ->
     0 <= cross2 (sub2 (V ((i + 1) mod n)%nat) (V i)) (sub2 q (V i))) ->
  exists vertices unit_normals,
    calculate_boundary ConvexHull pts = Ok (vertices, unit_normals) /\
    vertices = polygon_of pts hull /\
    length vertices = n /\
    length unit_normals = n /\
    forall i, (i < n)%nat ->
      let edge := sub2 (row vertices ((i + 1) mod n)%nat) (row vertices i) in
      let u := row unit_normals i in
      norm2 u = 1 /\
      vdot u edge = 0 /\
      forall q, q ∈ pts -> vdot u (sub2 q (row vertices i)) <= 0.
Proof.
  intros Hhull Hrange n V Hdistinct Hccw.
  assert (Hn : length (polygon_of pts hull) = n) by (unfold polygon_of; apply length_fmap).
  exists (polygon_of pts hull),
         ((unit_normal (polygon_of pts hull) n) <$> seq 0 n).
  split; [|split; [|split; [|split]]].
  - unfold calculate_boundary. rewrite Hhull, take_rows_polygon by exact Hrange.
    rewrite Hn. f_equal. f_equal.
    rewrite (fold_left_ext _ (fun acc j => <[j := unit_normal (polygon_of pts hull) n j]> acc))
      by (intros; apply normal_step_insert).
    unfold range. rewrite Nat.sub_0_r, fold_fill by (rewrite length_replicate; lia).
    rewrite drop_ge by (rewrite length_replicate; lia). apply app_nil_r.
  - reflexivity.
  - exact Hn.
  - rewrite length_fmap, length_seq. reflexivity.
  - intros i Hi edge u.
    assert (Hu : u = unit_normal (polygon_of pts hull) n i).
    { unfold u, row. apply nth_lookup_Some.
      rewrite list_lookup_fmap, lookup_seq_lt by lia. reflexivity. }
    assert (Hedge : edge <> (0, 0)).
    { unfold edge, sub2. intros H. apply (Hdistinct i Hi).
      injection H as H1 H2. unfold V.
      destruct (row (polygon_of pts hull) ((i + 1) mod n)) as [a b],
               (row (polygon_of pts hull) i) as [c d]. simpl in *.
      f_equal; lra. }
    assert (Hshape : u = div2 (edge.2, - edge.1) (norm2 (edge.2, - edge.1))).
    { rewrite Hu. unfold unit_normal. rewrite (next_index n i Hi). reflexivity. }
    rewrite Hshape. repeat split.
    + apply (right_normal edge (0, 0) Hedge).
    + apply (right_normal edge (0, 0) Hedge).
    + intros q Hq. apply (right_normal edge _ Hedge). apply (Hccw i q Hi Hq).
Qed.

(** ** The keys of the Jacobian dictionaries *)

Lemma elem_of_pairs (o i : string) (outs ins : list string) :
  (o, i) ∈ pairs outs ins <-> o ∈ outs /\ i ∈ ins.
Proof.
  unfold pairs. rewrite elem_of_list_to_set, list_elem_of_bind. split.
  - intros (o' & Hin & Ho'). apply list_elem_of_fmap in Hin as (i' & Heq & Hi').
    injection Heq as -> ->. split; assumption.
  - intros [Ho Hi]. exists o. split; [|exact Ho].
    apply list_elem_of_fmap. exists i. split; [reflexivity | exact Hi].
Qed.

Lemma MUX_linearize_dom (l : list nat) (d : vec) (J : jacobian) :
  dom (fold_left MUX.linearize_step l (d, J)).2
  = dom J ∪ list_to_set ((fun i => ("Array"%string, MUX.input_name i)) <$> l).
Proof.
  revert d J. induction l as [|i l IH]; intros d J; simpl.
  - set_solver.
  - rewrite IH, dom_insert_L. set_solver.
Qed.

Lemma DeMUX_linearize_dom (l : list nat) (M : matrix) (J : jacobian) :
  dom (fold_left (fun J i => <[(DeMUX.output_name i, "Array"%string) := A2 [nth i M []]]> J) l J)
  = dom J ∪ list_to_set ((fun i => (DeMUX.output_name i, "Array"%string)) <$> l).
Proof.
  revert J. induction l as [|i l IH]; intros J; simpl.
  - set_solver.
  - rewrite IH, dom_insert_L. set_solver.
Qed.

(** C1, as stated, fails: a one-turbine WindFrame declares the input
    [wind_direction] and the output [turbineXw], and its dictionary has no
    block for that pair. *)
Lemma WindFrame_jacobian_incomplete :
  exists c J,
    c = call_WindFrame (WindFrame.Build 1 0) (WindFrame.Params 8 270 [0] [0] [] [] []) /\
    returned_jacobian c = Some J /\
    (("turbineXw"%string, "wind_direction"%string)
       ∈ pairs (declared_outputs_of c) (declared_params_of c)) /\
    (("turbineXw"%string, "wind_direction"%string) ∉ dom J) /\
    dom J <> pairs (declared_outputs_of c) (declared_params_of c).
Proof.
  eexists _, _. split; [reflexivity|]. split; [reflexivity|].
  assert (Hin : ("turbineXw"%string, "wind_direction"%string)
                  ∈ pairs (declared_outputs_of
                             (call_WindFrame (WindFrame.Build 1 0)
                                (WindFrame.Params 8 270 [0] [0] [] [] [])))
                          (declared_params_of
                             (call_WindFrame (WindFrame.Build 1 0)
                                (WindFrame.Params 8 270 [0] [0] [] [] [])))).
  { apply elem_of_pairs. simpl. split; set_solver. }
  assert (Hout : ("turbineXw"%string, "wind_direction"%string)
                   ∉ dom (WindFrame.linearize (WindFrame.Build 1 0)
                            (WindFrame.Params 8 270 [0] [0] [] [] []))).
  { unfold WindFrame.linearize. rewrite !dom_insert_L, dom_empty_L. set_solver. }
  split; [exact Hin|]. split; [exact Hout|].
  intros Heq. apply Hout. rewrite Heq. exact Hin.
Qed.

Lemma pairs_subseteq (outs ins outs' ins' : list string) :
  outs ⊆ outs' -> ins ⊆ ins' -> pairs outs ins ⊆ pairs outs' ins'.
Proof.
  intros Ho Hi [o i] H. apply elem_of_pairs in H as [H1 H2].
  apply elem_of_pairs. split; [apply Ho | apply Hi]; assumption.
Qed.

Lemma pairs_nil (ins : list string) : pairs [] ins = ∅.
Proof. reflexivity. Qed.

Lemma pairs_cons (o : string) (outs ins : list string) :
  pairs (o :: outs) ins = list_to_set ((fun i => (o, i)) <$> ins) ∪ pairs outs ins.
Proof. unfold pairs. simpl. apply list_to_set_app_L. Qed.

(** Key sets written as unions of singletons, for [set_solver]. *)
Ltac keys_norm :=
  rewrite ?dom_insert_L, ?dom_empty_L, ?pairs_cons, ?pairs_nil, ?fmap_cons, ?fmap_nil,
    ?list_to_set_cons, ?list_to_set_nil.

Lemma jacobian_dom (c : linearize_call) (J : jacobian) :
  returned_jacobian c = Some J -> dom J = pairs (jacobian_outputs c) (jacobian_params c).
Proof.
  destruct c;
    cbn [returned_jacobian jacobian_outputs jacobian_params declared_outputs_of];
    intros HJ.
  - injection HJ as <-. unfold WindFrame.linearize. keys_norm. set_solver.
  - injection HJ as <-. unfold AdjustCtCpYaw.linearize, AdjustCtCpYaw.declared_outputs.
    destruct (AdjustCtCpYaw.CTcorrected p), (AdjustCtCpYaw.CPcorrected p);
      cbn [negb]; keys_norm; set_solver.
  - unfold WindFarmAEP.linearize, WindFarmAEP.declared_outputs in *.
    repeat (destruct (decide _) in HJ); cbn in HJ; try discriminate;
      injection HJ as <-; keys_norm; set_solver.
  - injection HJ as <-.
    unfold WindDirectionPower.linearize, WindDirectionPower.declared_outputs.
    destruct (WindDirectionPower.use_power_curve_definition p).
    + cbn [snd]. keys_norm. set_solver.
    + repeat match goal with
             | |- context [let '(_, _) := ?x in _] => destruct x
             end.
      cbn [snd]. keys_norm. set_solver.
  - injection HJ as <-.
    unfold SpacingComp.linearize, SpacingComp.declared_outputs, SpacingComp.declared_params.
    keys_norm. set_solver.
  - unfold BoundaryComp.linearize, BoundaryComp.declared_outputs in *.
    match type of HJ with
    | of_result (match ?b with _ => _ end) = _ => destruct b as [[dx dy]|e]
    end; cbn in HJ; [|discriminate].
    injection HJ as <-. keys_norm. set_solver.
  - injection HJ as <-. unfold MUX.linearize.
    rewrite MUX_linearize_dom, dom_empty_L. apply set_eq. intros [o i].
    rewrite elem_of_pairs. unfold MUX.declared_params, MUX.declared_outputs.
    rewrite elem_of_union, elem_of_list_to_set, !list_elem_of_fmap, list_elem_of_singleton.
    split.
    + intros [H|(k & Heq & Hk)]; [set_solver|]. injection Heq as -> ->. eauto.
    + intros [-> (k & -> & Hk)]. right. eauto.
  - injection HJ as <-. unfold DeMUX.linearize.
    rewrite DeMUX_linearize_dom, dom_empty_L. apply set_eq. intros [o i].
    rewrite elem_of_pairs. unfold DeMUX.declared_params, DeMUX.declared_outputs.
    rewrite elem_of_union, elem_of_list_to_set, !list_elem_of_fmap, list_elem_of_singleton.
    split.
    + intros [H|(k & Heq & Hk)]; [set_solver|]. injection Heq as -> ->. eauto.
    + intros [(k & -> & Hk) ->]. right. eauto.
  - unfold CPCT_Interpolate_Gradients.linearize,
      CPCT_Interpolate_Gradients.declared_outputs in *.
    repeat match type of HJ with
           | context [match ?x with Ok _ => _ | Raise _ => _ end] =>
               destruct x; cbn in HJ; try discriminate
           end.
    injection HJ as <-. keys_norm. set_solver.
  - unfold CPCT_Interpolate_Gradients_Smooth.linearize,
      CPCT_Interpolate_Gradients_Smooth.declared_outputs in *.
    destruct (CPCT_Interpolate_Gradients_Smooth.cached self); cbn in HJ; [|discriminate].
    injection HJ as <-. keys_norm. set_solver.
Qed.

(** Keys that differ in a leading character. *)
Ltac key_ne :=
  unfold AdjustCtCpYaw.yaw_name, WindDirectionPower.wtVelocity_name,
    WindDirectionPower.wtPower_name, WindDirectionPower.dir_power_name;
  cbn [String.append]; intros Hkey; discriminate Hkey.

Ltac lookup_block :=
  repeat first [ rewrite lookup_insert_eq | rewrite lookup_insert_ne by key_ne ].

Lemma jacobian_zero_blocks (c : linearize_call) (J : jacobian) (k : string * string) :
  returned_jacobian c = Some J -> k ∈ zero_blocks c ->
  exists r q, J !! k = Some (A2 (np_zeros2 r q)).
Proof.
  destruct c; cbn [returned_jacobian zero_blocks]; intros HJ Hk;
    try (apply elem_of_nil in Hk; contradiction).
  - injection HJ as <-. unfold AdjustCtCpYaw.linearize.
    destruct (AdjustCtCpYaw.CTcorrected p), (AdjustCtCpYaw.CPcorrected p);
      cbn [negb app] in *;
      repeat (apply elem_of_cons in Hk as [->|Hk]);
      try (apply elem_of_nil in Hk; contradiction);
      lookup_block; eauto.
  - injection HJ as <-. unfold WindDirectionPower.linearize.
    destruct (WindDirectionPower.use_power_curve_definition p);
      [|apply elem_of_nil in Hk; contradiction].
    cbn [snd].
    repeat (apply elem_of_cons in Hk as [->|Hk]);
      try (apply elem_of_nil in Hk; contradiction);
      lookup_block; eauto.
Qed.

Lemma jacobian_within_declared (c : linearize_call) :
  jacobian_outputs c ⊆ declared_outputs_of c /\ jacobian_params c ⊆ declared_params_of c.
Proof.
  destruct c; cbn [jacobian_outputs jacobian_params declared_outputs_of declared_params_of];
    try (split; [reflexivity | ]); try reflexivity.
  - unfold WindFrame.declared_outputs, WindFrame.declared_params.
    split; intros x Hx; apply elem_of_app; left; set_solver.
  - unfold AdjustCtCpYaw.declared_params. set_solver.
  - unfold WindFarmAEP.declared_params. set_solver.
  - unfold WindDirectionPower.declared_params. set_solver.
  - unfold BoundaryComp.declared_params. intros x Hx. apply elem_of_app. right. exact Hx.
  - unfold CPCT_Interpolate_Gradients.declared_params. set_solver.
  - unfold CPCT_Interpolate_Gradients_Smooth.declared_params. set_solver.
Qed.

(** C1, amended. The dictionary a [linearize] returns has exactly the keys
    [jacobian_outputs × jacobian_params] of its component, all of them
    pairs of a declared output and a declared input; that is every
    declared pair for SpacingComp, MUX and DeMUX, while WindFrame,
    AdjustCtCpYaw, WindFarmAEP, WindDirectionPower, BoundaryComp and the two
    CPCT components leave declared inputs (and WindFrame two declared
    outputs) without a block.  The pairs of [zero_blocks] hold an explicit
    block of zeros. *)
Theorem jacobian_keys (c : linearize_call) (J : jacobian) :
  returned_jacobian c = Some J ->
  dom J = pairs (jacobian_outputs c) (jacobian_params c) /\
  jacobian_outputs c ⊆ declared_outputs_of c /\
  jacobian_params c ⊆ declared_params_of c /\
  (covers_all_declared c = true ->
     dom J = pairs (declared_outputs_of c) (declared_params_of c)) /\
  (forall k, k ∈ zero_blocks c -> exists r q, J !! k = Some (A2 (np_zeros2 r q))).
Proof.
  intros HJ.
  split; [exact (jacobian_dom c J HJ)|].
  split; [apply jacobian_within_declared|].
  split; [apply jacobian_within_declared|].
  split.
  - intros Hall. rewrite (jacobian_dom c J HJ).
    destruct c; try discriminate Hall; reflexivity.
  - intros k Hk. exact (jacobian_zero_blocks c J k HJ Hk).
Qed.

(** ** Instances of the theorems on concrete farms *)

Lemma jacobian_keys_witness :
  dom (WindFrame.linearize (WindFrame.Build 1 0) (WindFrame.Params 8 270 [0] [0] [] [] []))
  = pairs ["turbineXw"; "turbineYw"]%string ["turbineX"; "turbineY"]%string.
Proof.
  exact (proj1 (jacobian_keys
                  (call_WindFrame (WindFrame.Build 1 0)
                     (WindFrame.Params 8 270 [0] [0] [] [] []))
                  _ eq_refl)).
Defined.

Lemma WindFarmAEP_forward_witness :
  AEP_output (WindFarmAEP.solve_nonlinear (WindFarmAEP.Build 2 false)
                (WindFarmAEP.Params [100; 200] [0.5; 0.5] "log") 0)
  = Some (ln (8760 * spec_sum (fun i => [100; 200].[i] * [0.5; 0.5].[i]) 2)).
Proof.
  destruct (WindFarmAEP_forward (WindFarmAEP.Build 2 false) [100; 200] [0.5; 0.5] 0
              eq_refl eq_refl) as (_ & Hlog & _).
  apply Hlog. unfold idx. simpl. lra.
Defined.

Lemma WindDirectionPower_power_curve_witness :
  (WindDirectionPower.wtPower
     (WindDirectionPower.solve_nonlinear (WindDirectionPower.Build 2 0 false 1 None)
        curve_params).2).[0]
  = 5000 * ((7.2 - 3) / (11.4 - 3)) ^ 3.
Proof.
  destruct (WindDirectionPower_power_curve (WindDirectionPower.Build 2 0 false 1 None)
              curve_params 0 eq_refl ltac:(simpl; lia) eq_refl eq_refl eq_refl eq_refl eq_refl)
    as (Hramp & _).
  apply Hramp. unfold idx. simpl. lra.
Defined.


Lemma WindFrame_isometry_witness :
  let p := WindFrame.Params 8 30 [3; 0] [4; 1] [] [] [] in
  let u := WindFrame.solve_nonlinear (WindFrame.Build 2 0) p
             (WindFrame.init_unknowns (WindFrame.Build 2 0)) in
  (WindFrame.turbineXw u).[0] ^ 2 + (WindFrame.turbineYw u).[0] ^ 2 = 3 ^ 2 + 4 ^ 2.
Proof.
  exact (WindFrame_isometry (WindFrame.Build 2 0)
           (WindFrame.Params 8 30 [3; 0] [4; 1] [] [] [])
           (WindFrame.init_unknowns (WindFrame.Build 2 0)) 0
           eq_refl eq_refl ltac:(simpl; lia)).
Defined.

Lemma MUX_DeMUX_roundtrip_witness :
  exists Array out,
    MUX.solve_nonlinear (MUX.Build 2) (<["input0"%string := 7]> (<["input1"%string := 9]> ∅))
      [0; 0] = Ok Array /\
    DeMUX.solve_nonlinear (DeMUX.Build 2) Array ∅ = Ok out /\
    Array = [7; 9] /\
    forall i, (i < 2)%nat -> out !! DeMUX.output_name i = [7; 9] !! i.
Proof.
  apply (MUX_DeMUX_roundtrip [7; 9]
           (<["input0"%string := 7]> (<["input1"%string := 9]> ∅)) [0; 0] ∅).
  - intros [|[|i]] x Hx; simpl in Hx; try discriminate Hx; injection Hx as <-; reflexivity.
  - reflexivity.
Defined.

Lemma calculate_boundary_normals_witness :
  exists vertices unit_normals,
    calculate_boundary triangle_hull triangle = Ok (vertices, unit_normals) /\
    vertices = triangle /\
    length unit_normals = 3%nat /\
    norm2 (row unit_normals 1) = 1.
Proof.
  destruct (calculate_boundary_normals triangle_hull triangle [0; 1; 2]%nat eq_refl)
    as (vs & ns & Hrun & Hvs & _ & Hlen & Hall).
  - repeat constructor.
  - intros [|[|[|i]]] Hi; simpl in Hi; try lia; simpl; intros H; injection H; lra.
  - intros [|[|[|i]]] q Hi Hq; simpl in Hi; try lia;
      repeat (apply elem_of_cons in Hq as [->|Hq]);
      try (apply elem_of_nil in Hq; contradiction);
      unfold cross2, sub2; simpl; lra.
  - exists vs, ns. split; [exact Hrun|]. split; [exact Hvs|]. split; [exact Hlen|].
    apply (Hall 1%nat). simpl. lia.
Defined.

Lemma calculate_distance_inside_witness :
  exists face_distance inside,
    calculate_distance [(0.5, 0.5); (2, 0.5)] square square_normals true
    = Ok (DistancesInside face_distance inside) /\
    calculate_distance [(0.5, 0.5); (2, 0.5)] square square_normals false
    = Ok (Distances face_distance) /\
    length inside = 2%nat.
Proof.
  destruct (calculate_distance_inside [(0.5, 0.5); (2, 0.5)] square square_normals eq_refl)
    as (fd & ins & Htrue & Hfalse & _ & Hlen & _).
  - repeat constructor; unfold norm2; simpl;
      match goal with |- sqrt ?x = 1 => replace x with 1 by lra end; apply sqrt_1.
  - exists fd, ins. split; [exact Htrue|]. split; [exact Hfalse|]. exact Hlen.
Defined.

(** ** The worked examples of the specification *)

Example SpacingComp_two_turbines :
  SpacingComp.solve_nonlinear (SpacingComp.Build 2) (SpacingComp.Params [0; 3] [0; 4]) = [25].
Proof.
  unfold SpacingComp.solve_nonlinear, SpacingComp.separation_step, idx. simpl.
  f_equal. lra.
Qed.

Example BoundaryComp_circle :
  BoundaryComp.init 3 1 = Ok (BoundaryComp.Build 3 1 BoundaryComp.circle) /\
  BoundaryComp.solve_nonlinear (BoundaryComp.Build 3 1 BoundaryComp.circle)
    (BoundaryComp.Params [] [] 10 (0, 0) [10; 0; 20] [0; 0; 0])
  = Ok (A1 [0; 100; -300]).
Proof.
  split; [reflexivity|].
  unfold BoundaryComp.solve_nonlinear. simpl.
  repeat f_equal; lra.
Qed.

Example AdjustCtCpYaw_zero_yaw (self : AdjustCtCpYaw.component) (ct cp pP : R)
    (CTcorrected CPcorrected : bool) :
  AdjustCtCpYaw.solve_nonlinear self
    (AdjustCtCpYaw.Params [ct] [cp] [0] pP CTcorrected CPcorrected)
  = AdjustCtCpYaw.Unknowns [ct] [cp].
Proof.
  unfold AdjustCtCpYaw.solve_nonlinear. simpl.
  replace (0 * PI / 180) with 0 by lra. rewrite cos_0, np_power_one.
  destruct CTcorrected, CPcorrected; simpl; repeat f_equal; lra.
Qed.

Example WindFrame_direction_270 (x y : R) :
  let u := WindFrame.solve_nonlinear (WindFrame.Build 1 0)
             (WindFrame.Params 8 270 [x] [y] [] [] [])
             (WindFrame.init_unknowns (WindFrame.Build 1 0)) in
  WindFrame.turbineXw u = [x] /\ WindFrame.turbineYw u = [y].
Proof.
  assert (H : WindFrame.windDirectionRad 270 = 0).
  { unfold WindFrame.windDirectionRad. replace (270 - 270) with 0 by lra.
    destruct (Rlt_dec 0 0); lra. }
  unfold WindFrame.solve_nonlinear. simpl. rewrite H.
  replace (- 0) with 0 by lra. rewrite cos_0, sin_0.
  split; f_equal; lra.
Qed.

(** * Further properties of the components *)

(** ** Diagonal blocks *)

Lemma vec_ext (a b : vec) :
  length a = length b -> (forall i, (i < length a)%nat -> a.[i] = b.[i]) -> a = b.
Proof.
  intros Hlen H. apply list_eq_same_length with (length a); [lia | lia |].
  intros i x y Hi Hx Hy.
  pose proof (H i Hi) as He. unfold idx in He.
  rewrite (nth_lookup_Some _ _ _ _ Hx), (nth_lookup_Some _ _ _ _ Hy) in He. exact He.
Qed.

Lemma idx_ge (a : vec) (i : nat) : (length a <= i)%nat -> a.[i] = 0.
Proof. intros H. unfold idx. apply nth_overflow. exact H. Qed.

Lemma idx_vscale (a : vec) (c : R) (i : nat) : (vscale a c).[i] = a.[i] * c.
Proof.
  destruct (decide (i < length a)%nat).
  - unfold vscale. apply idx_fmap. assumption.
  - rewrite !idx_ge by (unfold vscale; rewrite ?length_fmap; lia). lra.
Qed.

Lemma idx_vdivs (a : vec) (c : R) (i : nat) : (vdivs a c).[i] = a.[i] / c.
Proof.
  destruct (decide (i < length a)%nat).
  - unfold vdivs. apply idx_fmap. assumption.
  - rewrite !idx_ge by (unfold vdivs; rewrite ?length_fmap; lia). lra.
Qed.

Lemma idx_vmul (a b : vec) (i : nat) : (vmul a b).[i] = a.[i] * b.[i].
Proof.
  destruct (decide (i < length a)%nat), (decide (i < length b)%nat).
  - unfold vmul. apply idx_zip_with; assumption.
  - rewrite (idx_ge (vmul a b)), (idx_ge b) by (unfold vmul; rewrite ?length_zip_with; lia). lra.
  - rewrite (idx_ge (vmul a b)), (idx_ge a) by (unfold vmul; rewrite ?length_zip_with; lia). lra.
  - rewrite (idx_ge (vmul a b)), (idx_ge a) by (unfold vmul; rewrite ?length_zip_with; lia). lra.
Qed.

Lemma nth_fmap_row (f : vec -> vec) (M : matrix) (i : nat) :
  f [] = [] -> nth i (f <$> M) [] = f (nth i M []).
Proof.
  intros Hf. destruct (decide (i < length M)%nat) as [Hi|Hi].
  - destruct (lookup_lt_is_Some_2 M i Hi) as [r Hr].
    rewrite (nth_lookup_Some M i [] r Hr).
    apply nth_lookup_Some. rewrite list_lookup_fmap, Hr. reflexivity.
  - rewrite !nth_overflow by (rewrite ?length_fmap; lia). symmetry. exact Hf.
Qed.

Lemma idx2_mscale (M : matrix) (c : R) (i j : nat) :
  idx2 (mscale M c) i j = idx2 M i j * c.
Proof.
  unfold idx2, mscale. rewrite nth_fmap_row by reflexivity. apply idx_vscale.
Qed.

Lemma idx2_mdivs (M : matrix) (c : R) (i j : nat) :
  idx2 (mdivs M c) i j = idx2 M i j / c.
Proof.
  unfold idx2, mdivs. rewrite nth_fmap_row by reflexivity. apply idx_vdivs.
Qed.

Lemma idx2_mrow_mul (M : matrix) (v : vec) (i j : nat) :
  idx2 (mrow_mul M v) i j = idx2 M i j * v.[j].
Proof.
  unfold idx2, mrow_mul. rewrite nth_fmap_row by reflexivity. apply idx_vmul.
Qed.

Lemma nth_np_eye (n i : nat) :
  (i < n)%nat -> nth i (np_eye n) [] = (fun j => if Nat.eqb i j then 1 else 0) <$> seq 0 n.
Proof.
  intros Hi. apply nth_lookup_Some. unfold np_eye.
  rewrite list_lookup_fmap, lookup_seq_lt by lia. reflexivity.
Qed.

Lemma idx_np_ones (n i : nat) : (i < n)%nat -> (np_ones n).[i] = 1.
Proof.
  intros Hi. unfold idx, np_ones. apply nth_lookup_Some. apply lookup_replicate_2. exact Hi.
Qed.

Lemma is_diag_eye (n : nat) : is_diag (np_eye n) (np_ones n) n.
Proof.
  split; [unfold np_eye; rewrite length_fmap; apply length_seq|].
  intros i Hi. rewrite (nth_np_eye n i Hi). split.
  - rewrite length_fmap. apply length_seq.
  - intros j Hj. unfold idx2. rewrite (nth_np_eye n i Hi).
    transitivity (if Nat.eqb i j then 1 else 0).
    + apply nth_lookup_Some. rewrite list_lookup_fmap, lookup_seq_lt by lia. reflexivity.
    + rewrite idx_np_ones by exact Hi.
      destruct (Nat.eqb_spec i j), (decide (i = j)); try reflexivity; contradiction.
Qed.

Lemma length_nth_fmap_row (f : vec -> vec) (M : matrix) (i n : nat) :
  (forall r, length (f r) = length r) -> (i < length M)%nat ->
  length (nth i M []) = n -> length (nth i (f <$> M) []) = n.
Proof.
  intros Hf Hi Hn. destruct (lookup_lt_is_Some_2 M i Hi) as [r Hr].
  rewrite (nth_lookup_Some M i [] r Hr) in Hn.
  erewrite nth_lookup_Some by (rewrite list_lookup_fmap, Hr; reflexivity).
  rewrite Hf. exact Hn.
Qed.

Lemma is_diag_mscale (M : matrix) (d : vec) (n : nat) (c : R) :
  is_diag M d n -> is_diag (mscale M c) (vscale d c) n.
Proof.
  intros [Hlen H]. split; [unfold mscale; rewrite length_fmap; exact Hlen|].
  intros i Hi. destruct (H i Hi) as [Hrow Hent]. split.
  - unfold mscale. apply length_nth_fmap_row; [|lia|exact Hrow].
    intros r. unfold vscale. apply length_fmap.
  - intros j Hj. rewrite idx2_mscale, (Hent j Hj), idx_vscale.
    destruct (decide (i = j)); lra.
Qed.

Lemma is_diag_mdivs (M : matrix) (d : vec) (n : nat) (c : R) :
  is_diag M d n -> is_diag (mdivs M c) (vdivs d c) n.
Proof.
  intros [Hlen H]. split; [unfold mdivs; rewrite length_fmap; exact Hlen|].
  intros i Hi. destruct (H i Hi) as [Hrow Hent]. split.
  - unfold mdivs. apply length_nth_fmap_row; [|lia|exact Hrow].
    intros r. unfold vdivs. apply length_fmap.
  - intros j Hj. rewrite idx2_mdivs, (Hent j Hj), idx_vdivs.
    destruct (decide (i = j)); lra.
Qed.

Lemma is_diag_mrow_mul (M : matrix) (d v : vec) (n : nat) :
  length v = n -> is_diag M d n -> is_diag (mrow_mul M v) (vmul d v) n.
Proof.
  intros Hv [Hlen H]. split; [unfold mrow_mul; rewrite length_fmap; exact Hlen|].
  intros i Hi. destruct (H i Hi) as [Hrow Hent]. split.
  - destruct (lookup_lt_is_Some_2 M i ltac:(lia)) as [r Hr].
    rewrite (nth_lookup_Some M i [] r Hr) in Hrow.
    unfold mrow_mul.
    erewrite nth_lookup_Some by (rewrite list_lookup_fmap, Hr; reflexivity).
    unfold vmul. rewrite length_zip_with. lia.
  - intros j Hj. rewrite idx2_mrow_mul, (Hent j Hj), idx_vmul.
    destruct (decide (i = j)) as [->|]; lra.
Qed.

Lemma is_diag_ext (M : matrix) (d d' : vec) (n : nat) :
  (forall i, (i < n)%nat -> d.[i] = d'.[i]) -> is_diag M d n -> is_diag M d' n.
Proof.
  intros Hd [Hlen H]. split; [exact Hlen|].
  intros i Hi. destruct (H i Hi) as [Hrow Hent]. split; [exact Hrow|].
  intros j Hj. rewrite (Hent j Hj), (Hd i Hi). reflexivity.
Qed.

Lemma spec_sum_single (f : nat -> R) (i n : nat) :
  (i < n)%nat -> (forall j, (j < n)%nat -> j <> i -> f j = 0) -> spec_sum f n = f i.
Proof.
  induction n as [|n IH]; intros Hi H; [lia|]. simpl.
  destruct (decide (i = n)) as [->|Hne].
  - assert (Hz : spec_sum f n = 0).
    { clear IH Hi. induction n as [|m IHm]; [reflexivity|]. simpl.
      rewrite IHm by (intros j Hj Hjn; apply H; lia). rewrite H by lia. lra. }
    rewrite Hz. lra.
  - rewrite IH by (try lia; intros j Hj Hji; apply H; lia).
    rewrite (H n) by lia. lra.
Qed.

(** A diagonal matrix times a vector: the elementwise product. *)
Lemma np_matmul_diag (M : matrix) (d x : vec) (n : nat) :
  is_diag M d n -> length d = n -> length x = n -> np_matmul M x = vmul d x.
Proof.
  intros [Hlen H] Hd Hx. apply vec_ext.
  - unfold np_matmul, vmul. rewrite length_fmap, length_zip_with. lia.
  - unfold np_matmul at 1. rewrite length_fmap, Hlen. intros i Hi.
    destruct (H i Hi) as [Hrow Hent].
    destruct (lookup_lt_is_Some_2 M i ltac:(lia)) as [r Hr].
    assert (Hnth : nth i M [] = r) by (apply nth_lookup_Some; exact Hr).
    transitivity (py_sum (vmul r x)).
    { unfold np_matmul, idx. apply nth_lookup_Some.
      rewrite list_lookup_fmap, Hr. reflexivity. }
    rewrite py_sum_spec_sum.
    assert (Hl : length (vmul r x) = n)
      by (unfold vmul; rewrite length_zip_with; rewrite <- Hnth, Hrow; lia).
    rewrite Hl, (spec_sum_single _ i n Hi).
    + rewrite !idx_vmul. f_equal.
      pose proof (Hent i Hi) as He. unfold idx2 in He. rewrite Hnth in He.
      rewrite decide_True in He by reflexivity. exact He.
    + intros j Hj Hji. rewrite idx_vmul.
      pose proof (Hent j Hj) as He. unfold idx2 in He. rewrite Hnth in He.
      rewrite decide_False in He by (intros ->; contradiction).
      unfold idx. rewrite He. lra.
Qed.

Lemma vmul_ones (x : vec) (n : nat) : length x = n -> vmul (np_ones n) x = x.
Proof.
  intros Hx. apply vec_ext.
  - unfold vmul, np_ones. rewrite length_zip_with, length_replicate. lia.
  - unfold vmul at 1. rewrite length_zip_with. unfold np_ones at 1.
    rewrite length_replicate. intros i Hi.
    rewrite idx_vmul, idx_np_ones by lia. lra.
Qed.

(** ** WindFrame: the Jacobian and the rotation *)

(** Keys made of string literals. *)
Ltac literal_key_ne := intros Hkey; discriminate Hkey.

(** X1. The forward transform is linear in the positions, and the blocks
    of [linearize] are its matrices: each output is the sum of its two
    blocks applied to [turbineX] and [turbineY]. *)
Theorem WindFrame_forward_is_jacobian_product (self : WindFrame.component)
    (p : WindFrame.params) (u : WindFrame.unknowns) :
  length (WindFrame.turbineX p) = WindFrame.nTurbines self ->
  length (WindFrame.turbineY p) = WindFrame.nTurbines self ->
  let J := WindFrame.linearize self p in
  let u' := WindFrame.solve_nonlinear self p u in
  WindFrame.turbineXw u'
  = vadd (np_matmul (block J "turbineXw" "turbineX") (WindFrame.turbineX p))
         (np_matmul (block J "turbineXw" "turbineY") (WindFrame.turbineY p)) /\
  WindFrame.turbineYw u'
  = vadd (np_matmul (block J "turbineYw" "turbineX") (WindFrame.turbineX p))
         (np_matmul (block J "turbineYw" "turbineY") (WindFrame.turbineY p)).
Proof.
  intros HX HY J u'.
  set (n := WindFrame.nTurbines self) in *.
  set (rad := WindFrame.windDirectionRad (WindFrame.wind_direction p)).
  assert (Hmat : forall c x, length x = n ->
            np_matmul (mscale (np_eye n) c) x = vmul (vscale (np_ones n) c) x).
  { intros c x Hx. apply (np_matmul_diag _ _ _ n).
    - apply is_diag_mscale, is_diag_eye.
    - unfold vscale, np_ones. rewrite length_fmap. apply length_replicate.
    - exact Hx. }
  assert (Hent : forall c x i, (i < n)%nat -> (vmul (vscale (np_ones n) c) x).[i] = c * x.[i]).
  { intros c x i Hi. rewrite idx_vmul, idx_vscale, idx_np_ones by exact Hi. lra. }
  assert (HXw : WindFrame.turbineXw u'
                = vsub (vscale (WindFrame.turbineX p) (cos (- rad)))
                       (vscale (WindFrame.turbineY p) (sin (- rad))))
    by (unfold u', WindFrame.solve_nonlinear; destruct (0 <? _)%nat; reflexivity).
  assert (HYw : WindFrame.turbineYw u'
                = vadd (vscale (WindFrame.turbineX p) (sin (- rad)))
                       (vscale (WindFrame.turbineY p) (cos (- rad))))
    by (unfold u', WindFrame.solve_nonlinear; destruct (0 <? _)%nat; reflexivity).
  assert (Hxx : block J "turbineXw" "turbineX" = mscale (np_eye n) (cos (- rad))).
  { unfold block, J, WindFrame.linearize.
    repeat first [ rewrite lookup_insert_eq | rewrite lookup_insert_ne by literal_key_ne ].
    reflexivity. }
  assert (Hxy : block J "turbineXw" "turbineY" = mscale (np_eye n) (- sin (- rad))).
  { unfold block, J, WindFrame.linearize.
    repeat first [ rewrite lookup_insert_eq | rewrite lookup_insert_ne by literal_key_ne ].
    reflexivity. }
  assert (Hyx : block J "turbineYw" "turbineX" = mscale (np_eye n) (sin (- rad))).
  { unfold block, J, WindFrame.linearize.
    repeat first [ rewrite lookup_insert_eq | rewrite lookup_insert_ne by literal_key_ne ].
    reflexivity. }
  assert (Hyy : block J "turbineYw" "turbineY" = mscale (np_eye n) (cos (- rad))).
  { unfold block, J, WindFrame.linearize.
    repeat first [ rewrite lookup_insert_eq | rewrite lookup_insert_ne by literal_key_ne ].
    reflexivity. }
  rewrite HXw, HYw, Hxx, Hxy, Hyx, Hyy, !Hmat by assumption.
  assert (Hl : forall c x, length x = n -> length (vmul (vscale (np_ones n) c) x) = n).
  { intros c x Hx. unfold vmul, vscale, np_ones.
    rewrite length_zip_with, length_fmap, length_replicate. lia. }
  split; apply vec_ext.
  - unfold vsub, vadd. rewrite !length_zip_with, !Hl by assumption.
    unfold vscale. rewrite !length_fmap. lia.
  - unfold vsub at 1. rewrite length_zip_with. unfold vscale at 1 2. rewrite !length_fmap.
    intros i Hi. unfold vsub, vadd.
    rewrite !idx_zip_with by (rewrite ?Hl by assumption; unfold vscale; rewrite ?length_fmap; lia).
    rewrite !Hent, !idx_vscale by lia. lra.
  - unfold vadd. rewrite !length_zip_with, !Hl by assumption.
    unfold vscale. rewrite !length_fmap. lia.
  - unfold vadd at 1. rewrite length_zip_with. unfold vscale at 1 2. rewrite !length_fmap.
    intros i Hi. unfold vadd.
    rewrite !idx_zip_with by (rewrite ?Hl by assumption; unfold vscale; rewrite ?length_fmap; lia).
    rewrite !Hent, !idx_vscale by lia. lra.
Qed.

Lemma WindFrame_forward_is_jacobian_product_witness :
  let p := WindFrame.Params 8 30 [3; 0] [4; 1] [] [] [] in
  let J := WindFrame.linearize (WindFrame.Build 2 0) p in
  WindFrame.turbineXw
    (WindFrame.solve_nonlinear (WindFrame.Build 2 0) p
       (WindFrame.init_unknowns (WindFrame.Build 2 0)))
  = vadd (np_matmul (block J "turbineXw" "turbineX") [3; 0])
         (np_matmul (block J "turbineXw" "turbineY") [4; 1]).
Proof.
  exact (proj1 (WindFrame_forward_is_jacobian_product (WindFrame.Build 2 0)
                  (WindFrame.Params 8 30 [3; 0] [4; 1] [] [] [])
                  (WindFrame.init_unknowns (WindFrame.Build 2 0)) eq_refl eq_refl)).
Defined.

Lemma WindFrame_angle (d : R) :
  let theta := PI * (270 - d) / 180 in
  cos (- WindFrame.windDirectionRad d) = cos theta /\
  sin (- WindFrame.windDirectionRad d) = - sin theta.
Proof.
  intros theta. unfold WindFrame.windDirectionRad.
  rewrite cos_neg, sin_neg.
  destruct (Rlt_dec (270 - d) 0) as [Hneg|Hpos].
  - replace (PI * (270 - d + 360) / 180) with (theta + 2 * PI) by (unfold theta; field).
    rewrite cos_plus, sin_plus, cos_2PI, sin_2PI. split; ring.
  - split; reflexivity.
Qed.

(** X2. Wrapping the angle into [0, 360) changes nothing: for every wind
    direction [d] the outputs are the positions rotated by
    [theta = pi (270 - d) / 180], [Xw = X cos theta + Y sin theta] and
    [Yw = Y cos theta - X sin theta]. *)
Theorem WindFrame_rotation (self : WindFrame.component) (p : WindFrame.params)
    (u : WindFrame.unknowns) (i : nat) :
  length (WindFrame.turbineX p) = WindFrame.nTurbines self ->
  length (WindFrame.turbineY p) = WindFrame.nTurbines self ->
  (i < WindFrame.nTurbines self)%nat ->
  let theta := PI * (270 - WindFrame.wind_direction p) / 180 in
  let u' := WindFrame.solve_nonlinear self p u in
  (WindFrame.turbineXw u').[i]
  = (WindFrame.turbineX p).[i] * cos theta + (WindFrame.turbineY p).[i] * sin theta /\
  (WindFrame.turbineYw u').[i]
  = (WindFrame.turbineY p).[i] * cos theta - (WindFrame.turbineX p).[i] * sin theta.
Proof.
  intros HX HY Hi theta u'.
  destruct (WindFrame_angle (WindFrame.wind_direction p)) as [Hc Hs]. fold theta in Hc, Hs.
  set (rad := WindFrame.windDirectionRad (WindFrame.wind_direction p)) in *.
  assert (HXw : WindFrame.turbineXw u'
                = vsub (vscale (WindFrame.turbineX p) (cos (- rad)))
                       (vscale (WindFrame.turbineY p) (sin (- rad))))
    by (unfold u', WindFrame.solve_nonlinear; destruct (0 <? _)%nat; reflexivity).
  assert (HYw : WindFrame.turbineYw u'
                = vadd (vscale (WindFrame.turbineX p) (sin (- rad)))
                       (vscale (WindFrame.turbineY p) (cos (- rad))))
    by (unfold u', WindFrame.solve_nonlinear; destruct (0 <? _)%nat; reflexivity).
  rewrite HXw, HYw. unfold vsub, vadd.
  rewrite !idx_zip_with by (unfold vscale; rewrite !length_fmap; lia).
  rewrite !idx_vscale, Hc, Hs. split; ring.
Qed.

Lemma WindFrame_rotation_witness :
  let p := WindFrame.Params 8 300 [3; 0] [4; 1] [] [] [] in
  let theta := PI * (270 - 300) / 180 in
  (WindFrame.turbineXw
     (WindFrame.solve_nonlinear (WindFrame.Build 2 0) p
        (WindFrame.init_unknowns (WindFrame.Build 2 0)))).[0]
  = 3 * cos theta + 4 * sin theta.
Proof.
  exact (proj1 (WindFrame_rotation (WindFrame.Build 2 0)
                  (WindFrame.Params 8 300 [3; 0] [4; 1] [] [] [])
                  (WindFrame.init_unknowns (WindFrame.Build 2 0)) 0
                  eq_refl eq_refl ltac:(simpl; lia))).
Defined.

(** ** AdjustCtCpYaw *)

Lemma length_vmul (a b : vec) (n : nat) :
  length a = n -> length b = n -> length (vmul a b) = n.
Proof. intros Ha Hb. unfold vmul. rewrite length_zip_with. lia. Qed.

(** X3. With every turbine at zero yaw the coefficients pass through
    unchanged, whatever the two "already corrected" flags say. *)
Theorem AdjustCtCpYaw_zero_yaw_all (self : AdjustCtCpYaw.component) (n : nat)
    (Ct Cp : vec) (pP : R) (CTcorrected CPcorrected : bool) :
  length Ct = n -> length Cp = n ->
  AdjustCtCpYaw.solve_nonlinear self
    (AdjustCtCpYaw.Params Ct Cp (np_zeros n) pP CTcorrected CPcorrected)
  = AdjustCtCpYaw.Unknowns Ct Cp.
Proof.
  intros HCt HCp. unfold AdjustCtCpYaw.solve_nonlinear. simpl.
  set (yaw := vdivs (vscale (np_zeros n) PI) 180).
  assert (Hyl : length yaw = n)
    by (unfold yaw, vdivs, vscale, np_zeros; rewrite !length_fmap; apply length_replicate).
  assert (Hy : forall i, (i < n)%nat -> yaw.[i] = 0).
  { intros i Hi. unfold yaw. rewrite idx_vdivs, idx_vscale, idx_np_zeros. lra. }
  f_equal.
  - destruct CTcorrected; simpl; [reflexivity|].
    apply vec_ext.
    + rewrite (length_vmul _ _ n); [lia | | exact HCt].
      apply length_vmul; rewrite length_fmap; exact Hyl.
    + rewrite (length_vmul _ _ n);
        [| apply length_vmul; rewrite length_fmap; exact Hyl | exact HCt].
      intros i Hi. rewrite !idx_vmul, idx_fmap, (Hy i Hi), cos_0 by lia. lra.
  - destruct CPcorrected; simpl; [reflexivity|].
    apply vec_ext.
    + rewrite (length_vmul _ _ n); [lia | exact HCp | rewrite length_fmap; exact Hyl].
    + rewrite (length_vmul _ _ n); [| exact HCp | rewrite length_fmap; exact Hyl].
      intros i Hi. rewrite idx_vmul, idx_fmap, (Hy i Hi), cos_0, np_power_one by lia. lra.
Qed.

Lemma AdjustCtCpYaw_zero_yaw_all_witness :
  AdjustCtCpYaw.solve_nonlinear (AdjustCtCpYaw.Build 2 0)
    (AdjustCtCpYaw.Params [0.8; 0.7] [0.4; 0.5] (np_zeros 2) 1.88 false false)
  = AdjustCtCpYaw.Unknowns [0.8; 0.7] [0.4; 0.5].
Proof.
  exact (AdjustCtCpYaw_zero_yaw_all (AdjustCtCpYaw.Build 2 0) 2 [0.8; 0.7] [0.4; 0.5]
           1.88 false false eq_refl eq_refl).
Defined.

(** X4. Each output coefficient is its own Jacobian block applied to the
    input coefficient: [Ct_out = J[Ct_out, Ct_in] · Ct_in] and
    [Cp_out = J[Cp_out, Cp_in] · Cp_in], with either setting of the
    flags. *)
Theorem AdjustCtCpYaw_forward_is_jacobian_product (self : AdjustCtCpYaw.component)
    (p : AdjustCtCpYaw.params) :
  length (AdjustCtCpYaw.Cp_in p) = length (AdjustCtCpYaw.Ct_in p) ->
  length (AdjustCtCpYaw.yaw p) = length (AdjustCtCpYaw.Ct_in p) ->
  let J := AdjustCtCpYaw.linearize self p in
  let u := AdjustCtCpYaw.solve_nonlinear self p in
  AdjustCtCpYaw.Ct_out u = np_matmul (block J "Ct_out" "Ct_in") (AdjustCtCpYaw.Ct_in p) /\
  AdjustCtCpYaw.Cp_out u = np_matmul (block J "Cp_out" "Cp_in") (AdjustCtCpYaw.Cp_in p).
Proof.
  intros HCp Hyaw J u.
  set (n := length (AdjustCtCpYaw.Ct_in p)) in *.
  set (yaw := vdivs (vscale (AdjustCtCpYaw.yaw p) PI) 180).
  assert (Hyl : length yaw = n)
    by (unfold yaw, vdivs, vscale; rewrite !length_fmap; exact Hyaw).
  assert (Hones : length (np_ones n) = n) by apply length_replicate.
  assert (Heye : forall x, length x = n -> np_matmul (np_eye n) x = x).
  { intros x Hx. rewrite (np_matmul_diag _ _ _ n (is_diag_eye n) Hones Hx).
    apply vmul_ones. exact Hx. }
  split.
  - assert (Hb : block J "Ct_out" "Ct_in"
                 = if negb (AdjustCtCpYaw.CTcorrected p)
                   then mrow_mul (mrow_mul (np_eye n) (cos <$> yaw)) (cos <$> yaw)
                   else np_eye n).
    { unfold block, J, AdjustCtCpYaw.linearize. fold n. fold yaw.
      destruct (AdjustCtCpYaw.CTcorrected p), (AdjustCtCpYaw.CPcorrected p); cbn [negb];
        lookup_block; reflexivity. }
    rewrite Hb. unfold u, AdjustCtCpYaw.solve_nonlinear. cbn [AdjustCtCpYaw.Ct_out].
    fold yaw. destruct (AdjustCtCpYaw.CTcorrected p); cbn [negb].
    + symmetry. apply Heye. reflexivity.
    + rewrite (np_matmul_diag _ (vmul (vmul (np_ones n) (cos <$> yaw)) (cos <$> yaw)) _ n).
      * f_equal. f_equal. symmetry. apply vmul_ones. rewrite length_fmap. exact Hyl.
      * apply is_diag_mrow_mul; [rewrite length_fmap; exact Hyl|].
        apply is_diag_mrow_mul; [rewrite length_fmap; exact Hyl|]. apply is_diag_eye.
      * repeat apply length_vmul; rewrite ?length_fmap; assumption.
      * reflexivity.
  - assert (Hb : block J "Cp_out" "Cp_in"
                 = if negb (AdjustCtCpYaw.CPcorrected p)
                   then mrow_mul (np_eye n)
                          ((fun y => np_power (cos y) (AdjustCtCpYaw.pP p)) <$> yaw)
                   else np_eye n).
    { unfold block, J, AdjustCtCpYaw.linearize. fold n. fold yaw.
      destruct (AdjustCtCpYaw.CTcorrected p), (AdjustCtCpYaw.CPcorrected p); cbn [negb];
        lookup_block; reflexivity. }
    rewrite Hb. unfold u, AdjustCtCpYaw.solve_nonlinear. cbn [AdjustCtCpYaw.Cp_out].
    fold yaw. destruct (AdjustCtCpYaw.CPcorrected p); cbn [negb].
    + symmetry. apply Heye. exact HCp.
    + rewrite (np_matmul_diag _
                 (vmul (np_ones n) ((fun y => np_power (cos y) (AdjustCtCpYaw.pP p)) <$> yaw))
                 _ n).
      * rewrite vmul_ones by (rewrite length_fmap; exact Hyl).
        apply vec_ext.
        -- rewrite !(length_vmul _ _ n); rewrite ?length_fmap; (reflexivity || assumption).
        -- intros i Hi. rewrite !idx_vmul. lra.
      * apply is_diag_mrow_mul; [rewrite length_fmap; exact Hyl|]. apply is_diag_eye.
      * apply length_vmul; rewrite ?length_fmap; assumption.
      * exact HCp.
Qed.

Lemma AdjustCtCpYaw_forward_is_jacobian_product_witness :
  let p := AdjustCtCpYaw.Params [0.8; 0.7] [0.4; 0.5] [10; 20] 1.88 false true in
  AdjustCtCpYaw.Ct_out (AdjustCtCpYaw.solve_nonlinear (AdjustCtCpYaw.Build 2 0) p)
  = np_matmul (block (AdjustCtCpYaw.linearize (AdjustCtCpYaw.Build 2 0) p) "Ct_out" "Ct_in")
      [0.8; 0.7].
Proof.
  exact (proj1 (AdjustCtCpYaw_forward_is_jacobian_product (AdjustCtCpYaw.Build 2 0)
                  (AdjustCtCpYaw.Params [0.8; 0.7] [0.4; 0.5] [10; 20] 1.88 false true)
                  eq_refl eq_refl)).
Defined.

(** ** WindFarmAEP *)

Lemma spec_sum_scale (f : nat -> R) (c : R) (n : nat) :
  spec_sum (fun i => f i * c) n = spec_sum f n * c.
Proof. induction n as [|n IH]; simpl; [lra|]. rewrite IH. lra. Qed.

(** X5. With method 'none' the energy is linear in the direction powers
    and the block of [linearize] is its row of coefficients:
    [J[AEP, dirPowers] · dirPowers = [AEP]]. *)
Theorem WindFarmAEP_none_is_jacobian_product (self : WindFarmAEP.component)
    (dp wf : vec) (calls calls' : nat) :
  length dp = length wf ->
  exists aep J c c',
    WindFarmAEP.solve_nonlinear self (WindFarmAEP.Params dp wf "none") calls = Ok (aep, c) /\
    WindFarmAEP.linearize self (WindFarmAEP.Params dp wf "none") calls' = Ok (J, c') /\
    np_matmul (block J "AEP" "dirPowers") dp = [aep].
Proof.
  intros Hlen. unfold WindFarmAEP.solve_nonlinear, WindFarmAEP.linearize. simpl.
  do 4 eexists. split; [reflexivity|]. split; [reflexivity|].
  unfold block. rewrite lookup_insert_eq. unfold np_matmul. simpl. f_equal.
  set (n := length wf) in *.
  assert (H1 : length (vmul (vscale (vmul (np_ones n) wf) WindFarmAEP.hours) dp) = n).
  { apply length_vmul; [|exact Hlen]. unfold vscale. rewrite length_fmap.
    apply length_vmul; [apply length_replicate | reflexivity]. }
  assert (H2 : length (vmul dp wf) = n) by (apply length_vmul; [exact Hlen | reflexivity]).
  rewrite !py_sum_spec_sum, H1, H2, <- spec_sum_scale.
  apply spec_sum_ext. intros i Hi.
  rewrite !idx_vmul, idx_vscale, idx_vmul, idx_np_ones by exact Hi. lra.
Qed.

Lemma WindFarmAEP_none_is_jacobian_product_witness :
  exists aep J c c',
    WindFarmAEP.solve_nonlinear (WindFarmAEP.Build 2 false)
      (WindFarmAEP.Params [100; 200] [0.5; 0.5] "none") 0 = Ok (aep, c) /\
    WindFarmAEP.linearize (WindFarmAEP.Build 2 false)
      (WindFarmAEP.Params [100; 200] [0.5; 0.5] "none") 0 = Ok (J, c') /\
    np_matmul (block J "AEP" "dirPowers") [100; 200] = [aep].
Proof.
  exact (WindFarmAEP_none_is_jacobian_product (WindFarmAEP.Build 2 false)
           [100; 200] [0.5; 0.5] 0 0 eq_refl).
Defined.

(** ** WindDirectionPower: bounds, clamping and the parameter store *)

Lemma power_curve_wtPower (self : WindDirectionPower.component)
    (p : WindDirectionPower.params) (n : nat) :
  WindDirectionPower.use_power_curve_definition p = true ->
  (n < WindDirectionPower.nTurbines self)%nat ->
  (WindDirectionPower.wtPower (WindDirectionPower.solve_nonlinear self p).2).[n]
  = power_curve_value p n 0.
Proof.
  intros Hmode Hn. unfold WindDirectionPower.solve_nonlinear. rewrite Hmode. simpl.
  rewrite (fold_left_ext _ (pointwise (power_curve_value p)))
    by apply power_curve_step_pointwise.
  rewrite fold_pointwise_idx by (unfold np_zeros; rewrite length_replicate; lia).
  rewrite idx_np_zeros. destruct (decide _); [reflexivity | lia].
Qed.

(** X7. In power-curve mode a turbine with a non-negative rated power
    never produces a negative power nor more than its rated power,
    whatever the wind speed and the envelope. *)
Theorem WindDirectionPower_power_curve_bounds (self : WindDirectionPower.component)
    (p : WindDirectionPower.params) (n : nat) :
  WindDirectionPower.use_power_curve_definition p = true ->
  (n < WindDirectionPower.nTurbines self)%nat ->
  0 <= (WindDirectionPower.rated_power p).[n] ->
  0 <= (WindDirectionPower.wtPower (WindDirectionPower.solve_nonlinear self p).2).[n]
    <= (WindDirectionPower.rated_power p).[n].
Proof.
  intros Hmode Hn Hrp. rewrite (power_curve_wtPower self p n Hmode Hn).
  unfold power_curve_value.
  set (v := (WindDirectionPower.wtVelocity p).[n]).
  set (c := (WindDirectionPower.cut_in_speed p).[n]).
  set (r := (WindDirectionPower.rated_wind_speed p).[n]).
  set (rp := (WindDirectionPower.rated_power p).[n]) in *.
  destruct (decide (c <= v /\ v < r)) as [[H1 H2]|_].
  - assert (Hd : 0 < r - c) by lra.
    assert (Ht : 0 <= (v - c) / (r - c) < 1).
    { split.
      - apply Rmult_le_pos; [lra|]. left. apply Rinv_0_lt_compat. exact Hd.
      - apply (Rmult_lt_reg_r (r - c)); [exact Hd|].
        unfold Rdiv. rewrite Rmult_assoc, Rinv_l by lra. lra. }
    set (t := (v - c) / (r - c)) in *.
    assert (H3 : 0 <= t ^ 3 <= 1).
    { simpl. rewrite Rmult_1_r. split; [|]; nra. }
    nra.
  - destruct (decide _); lra.
Qed.

Lemma WindDirectionPower_power_curve_bounds_witness :
  0 <= (WindDirectionPower.wtPower
          (WindDirectionPower.solve_nonlinear (WindDirectionPower.Build 2 0 false 1 None)
             curve_params).2).[0]
    <= (WindDirectionPower.rated_power curve_params).[0].
Proof.
  apply (WindDirectionPower_power_curve_bounds (WindDirectionPower.Build 2 0 false 1 None)
           curve_params 0 eq_refl ltac:(simpl; lia)).
  unfold idx. simpl. lra.
Defined.

Lemma interp_Cp_fold_fields (l : list nat) (p : WindDirectionPower.params) :
  let q := fold_left WindDirectionPower.interp_Cp_step l p in
  WindDirectionPower.air_density q = WindDirectionPower.air_density p /\
  WindDirectionPower.rotorDiameter q = WindDirectionPower.rotorDiameter p /\
  WindDirectionPower.generatorEfficiency q = WindDirectionPower.generatorEfficiency p /\
  WindDirectionPower.wtVelocity q = WindDirectionPower.wtVelocity p /\
  WindDirectionPower.rated_power q = WindDirectionPower.rated_power p /\
  WindDirectionPower.cut_in_speed q = WindDirectionPower.cut_in_speed p /\
  WindDirectionPower.cp_curve_cp q = WindDirectionPower.cp_curve_cp p /\
  WindDirectionPower.cp_curve_wind_speed q = WindDirectionPower.cp_curve_wind_speed p.
Proof.
  revert p. induction l as [|k l IH]; intros p; simpl; [repeat split; reflexivity|].
  destruct (IH (WindDirectionPower.interp_Cp_step p k)) as (H1 & H2 & H3 & H4 & H5 & H6 & H7 & H8).
  simpl in *. rewrite H1, H2, H3, H4, H5, H6, H7, H8. repeat split; reflexivity.
Qed.

Lemma interp_Cp_fold_Cp (n : nat) (p : WindDirectionPower.params) (i : nat) :
  (i < n)%nat -> (n <= length (WindDirectionPower.Cp p))%nat ->
  (WindDirectionPower.Cp (fold_left WindDirectionPower.interp_Cp_step (seq 0 n) p)).[i]
  = np_interp (WindDirectionPower.wtVelocity p).[i]
      (WindDirectionPower.cp_curve_wind_speed p) (WindDirectionPower.cp_curve_cp p).
Proof.
  intros Hi Hlen.
  set (g := fun k => np_interp (WindDirectionPower.wtVelocity p).[k]
                       (WindDirectionPower.cp_curve_wind_speed p)
                       (WindDirectionPower.cp_curve_cp p)).
  assert (Hfold : forall l q,
             WindDirectionPower.wtVelocity q = WindDirectionPower.wtVelocity p ->
             WindDirectionPower.cp_curve_wind_speed q = WindDirectionPower.cp_curve_wind_speed p ->
             WindDirectionPower.cp_curve_cp q = WindDirectionPower.cp_curve_cp p ->
             WindDirectionPower.Cp (fold_left WindDirectionPower.interp_Cp_step l q)
             = fold_left (fun acc k => <[k := g k]> acc) l (WindDirectionPower.Cp q)).
  { induction l as [|k l IH]; intros q H1 H2 H3; simpl; [reflexivity|].
    rewrite IH by (simpl; assumption). f_equal.
    unfold WindDirectionPower.interp_Cp_step, WindDirectionPower.store_Cp. simpl.
    unfold g. rewrite H1, H2, H3. reflexivity. }
  rewrite Hfold by reflexivity.
  rewrite fold_fill by lia.
  unfold idx. apply nth_lookup_Some.
  rewrite lookup_app_l by (rewrite length_fmap, length_seq; lia).
  rewrite list_lookup_fmap, lookup_seq_lt by lia. reflexivity.
Qed.

Lemma rated_step_pointwise (p : WindDirectionPower.params) (w : vec) (i : nat) :
  WindDirectionPower.rated_step p w i
  = pointwise (fun k old => if decide (old >= (WindDirectionPower.rated_power p).[k])
                            then (WindDirectionPower.rated_power p).[k] else old) w i.
Proof.
  unfold WindDirectionPower.rated_step, pointwise.
  destruct (decide _); [reflexivity|]. symmetry. apply insert_idx_same.
Qed.

Lemma cut_in_step_pointwise (p : WindDirectionPower.params) (w : vec) (i : nat) :
  WindDirectionPower.cut_in_step p w i
  = pointwise (fun k old => if decide ((WindDirectionPower.wtVelocity p).[k]
                                       < (WindDirectionPower.cut_in_speed p).[k])
                            then 0 else old) w i.
Proof.
  unfold WindDirectionPower.cut_in_step, pointwise.
  destruct (decide _); [reflexivity|]. symmetry. apply insert_idx_same.
Qed.

(** Lines 458-477 on a store [p1] that differs from [p] in [Cp] at most,
    with the coefficient array [Cp1]. *)
Lemma coefficient_tail (self : WindDirectionPower.component)
    (p p1 : WindDirectionPower.params) (Cp1 : vec) (i : nat) :
  let n := WindDirectionPower.nTurbines self in
  turbine_arrays self p ->
  WindDirectionPower.air_density p1 = WindDirectionPower.air_density p ->
  WindDirectionPower.rotorDiameter p1 = WindDirectionPower.rotorDiameter p ->
  WindDirectionPower.generatorEfficiency p1 = WindDirectionPower.generatorEfficiency p ->
  WindDirectionPower.wtVelocity p1 = WindDirectionPower.wtVelocity p ->
  WindDirectionPower.rated_power p1 = WindDirectionPower.rated_power p ->
  WindDirectionPower.cut_in_speed p1 = WindDirectionPower.cut_in_speed p ->
  length Cp1 = n -> (i < n)%nat ->
  let w0 := vdivs (vmul (WindDirectionPower.generatorEfficiency p1)
                     (vmul (vmul (svmul (0.5 * WindDirectionPower.air_density p1)
                                        (WindDirectionPower.rotorArea p1)) Cp1)
                           ((fun v => v ^ 3) <$> WindDirectionPower.wtVelocity p1))) 1000 in
  let raw := (WindDirectionPower.generatorEfficiency p).[i]
             * (0.5 * WindDirectionPower.air_density p
                * (0.25 * PI * (WindDirectionPower.rotorDiameter p).[i] ^ 2)
                * Cp1.[i] * (WindDirectionPower.wtVelocity p).[i] ^ 3) / 1000 in
  (fold_left (WindDirectionPower.cut_in_step p1) (seq 0 n)
     (if negb (WindDirectionPower.use_rotor_components self)
      then fold_left (WindDirectionPower.rated_step p1) (seq 0 n) w0 else w0)).[i]
  = if decide ((WindDirectionPower.wtVelocity p).[i] < (WindDirectionPower.cut_in_speed p).[i])
    then 0
    else if WindDirectionPower.use_rotor_components self then raw
    else if decide (raw >= (WindDirectionPower.rated_power p).[i])
    then (WindDirectionPower.rated_power p).[i] else raw.
Proof.
  intros n (HD & HC & HE & HV) F1 F2 F3 F4 F5 F6 HCl Hi w0 raw. fold n in HD, HC, HE, HV.
  assert (Hw0l : length w0 = n).
  { unfold w0, vdivs, WindDirectionPower.rotorArea, svmul. rewrite length_fmap.
    rewrite F2, F3, F4.
    repeat apply length_vmul; rewrite ?length_fmap; assumption. }
  assert (Hw0 : w0.[i] = raw).
  { unfold w0, raw. rewrite idx_vdivs, !idx_vmul.
    unfold WindDirectionPower.rotorArea, svmul.
    rewrite F1, F2, F3, F4.
    rewrite !idx_fmap by (rewrite ?length_fmap; lia). reflexivity. }
  rewrite (fold_left_ext _ _ _ _ (cut_in_step_pointwise p1)).
  rewrite fold_pointwise_idx.
  2:{ destruct (negb (WindDirectionPower.use_rotor_components self)); [|lia].
      rewrite (fold_left_ext _ _ _ _ (rated_step_pointwise p1)), fold_pointwise_length. lia. }
  rewrite decide_True by lia. rewrite F4, F6.
  destruct (decide _) as [Hcut|Hcut]; [reflexivity|].
  destruct (WindDirectionPower.use_rotor_components self); cbn [negb]; [exact Hw0|].
  rewrite (fold_left_ext _ _ _ _ (rated_step_pointwise p1)).
  rewrite fold_pointwise_idx by lia.
  rewrite decide_True by lia. rewrite F5, Hw0. reflexivity.
Qed.

(** X8. In coefficient mode the power of turbine [i] is [0] below its
    cut-in speed; otherwise it is [eta·0.5·rho·A·Cp·v^3/1000], replaced by
    the rated power when it reaches it unless [use_rotor_components] is
    set.  [Cp] is the table or spline value when more than one Cp point is
    configured, the input [Cp] otherwise. *)
Theorem WindDirectionPower_coefficient_mode (self : WindDirectionPower.component)
    (p : WindDirectionPower.params) (i : nat) :
  WindDirectionPower.use_power_curve_definition p = false ->
  turbine_arrays self p ->
  (i < WindDirectionPower.nTurbines self)%nat ->
  let wtPower := WindDirectionPower.wtPower (WindDirectionPower.solve_nonlinear self p).2 in
  let raw := raw_power self p i in
  let rated := (WindDirectionPower.rated_power p).[i] in
  wtPower.[i]
  = if decide ((WindDirectionPower.wtVelocity p).[i] < (WindDirectionPower.cut_in_speed p).[i])
    then 0
    else if WindDirectionPower.use_rotor_components self then raw
    else if decide (raw >= rated) then rated else raw.
Proof.
  intros Hmode Harr Hi wtPower raw rated.
  pose proof Harr as (HD & HC & HE & HV).
  unfold wtPower, raw, rated, raw_power, effective_Cp, WindDirectionPower.solve_nonlinear.
  rewrite Hmode.
  destruct (1 <? WindDirectionPower.cp_points self)%nat;
    [destruct (WindDirectionPower.cp_curve_spline self) as [s|]|];
    cbn [snd WindDirectionPower.wtPower].
  - rewrite (coefficient_tail self p p _ i Harr) by (rewrite ?length_fmap; auto).
    rewrite idx_fmap by lia. reflexivity.
  - pose proof (interp_Cp_fold_fields (seq 0 (WindDirectionPower.nTurbines self)) p) as F.
    cbv zeta in F. destruct F as (F1 & F2 & F3 & F4 & F5 & F6 & _).
    assert (Hl : forall l q, length (WindDirectionPower.Cp
                              (fold_left WindDirectionPower.interp_Cp_step l q))
                             = length (WindDirectionPower.Cp q)).
    { induction l as [|k l IH]; intros q; simpl; [reflexivity|].
      rewrite IH. simpl. apply length_insert. }
    rewrite (coefficient_tail self p _ _ i Harr F1 F2 F3 F4 F5 F6) by (rewrite ?Hl; auto).
    rewrite interp_Cp_fold_Cp by lia. reflexivity.
  - rewrite (coefficient_tail self p p _ i Harr) by auto. reflexivity.
Qed.

Lemma WindDirectionPower_coefficient_mode_witness :
  (WindDirectionPower.wtPower
     (WindDirectionPower.solve_nonlinear table_component table_params).2).[0]
  = if decide ((WindDirectionPower.wtVelocity table_params).[0]
               < (WindDirectionPower.cut_in_speed table_params).[0])
    then 0
    else if WindDirectionPower.use_rotor_components table_component
    then raw_power table_component table_params 0
    else if decide (raw_power table_component table_params 0
                    >= (WindDirectionPower.rated_power table_params).[0])
    then (WindDirectionPower.rated_power table_params).[0]
    else raw_power table_component table_params 0.
Proof.
  apply (WindDirectionPower_coefficient_mode table_component table_params 0 eq_refl).
  - repeat split; reflexivity.
  - simpl. lia.
Defined.

Lemma interp_deriv_fold_store (l : list nat) (p : WindDirectionPower.params) (d : vec) :
  (fold_left WindDirectionPower.interp_deriv_step l (p, d)).1
  = fold_left WindDirectionPower.interp_Cp_step l p.
Proof.
  revert p d. induction l as [|k l IH]; intros p d; simpl; [reflexivity|]. apply IH.
Qed.

(** X9. The Jacobian pass leaves the parameter store exactly as the forward
    pass does: untouched in power-curve mode, with a spline, or with a
    single Cp point, and with [params['Cp']] overwritten by the same
    interpolated coefficients otherwise. *)
Theorem WindDirectionPower_linearize_store (self : WindDirectionPower.component)
    (p : WindDirectionPower.params) (u : WindDirectionPower.unknowns) :
  (WindDirectionPower.linearize self p u).1 = (WindDirectionPower.solve_nonlinear self p).1 /\
  (WindDirectionPower.use_power_curve_definition p = true
   \/ WindDirectionPower.cp_curve_spline self <> None
   \/ (WindDirectionPower.cp_points self <= 1)%nat ->
   (WindDirectionPower.linearize self p u).1 = p).
Proof.
  assert (H : (WindDirectionPower.linearize self p u).1
              = (WindDirectionPower.solve_nonlinear self p).1).
  { unfold WindDirectionPower.linearize, WindDirectionPower.solve_nonlinear.
    destruct (WindDirectionPower.use_power_curve_definition p); [reflexivity|].
    destruct (WindDirectionPower.cp_curve_spline self) as [s|].
    - destruct (1 <? WindDirectionPower.cp_points self)%nat; cbn [fst];
        repeat match goal with
               | |- context [let '(_, _) := ?x in _] => destruct x
               end; reflexivity.
    - destruct (1 <? WindDirectionPower.cp_points self)%nat.
      + pose proof (interp_deriv_fold_store (seq 0 (WindDirectionPower.nTurbines self)) p
                      (np_zeros (length (WindDirectionPower.Cp p)))) as Hs.
        destruct (fold_left WindDirectionPower.interp_deriv_step _ _) as [p' d'].
        cbn [fst] in Hs. subst p'.
        repeat match goal with
               | |- context [let '(_, _) := ?x in _] => destruct x
               end.
        reflexivity.
      + repeat match goal with
               | |- context [let '(_, _) := ?x in _] => destruct x
               end.
        reflexivity. }
  split; [exact H|].
  intros Hcase. rewrite H. apply WindDirectionPower_solve_keeps_params. exact Hcase.
Qed.

(** ** [calculate_distance]: missing normals, and normals of any length *)

Lemma face_loop_ok (points vertices unit_normals : list vec2) (i : nat) (pt : vec2)
    (fd : matrix) (k : nat) :
  points !! i = Some pt ->
  (k <= length vertices)%nat -> (k <= length unit_normals)%nat ->
  exists fd', for_range (face_step points vertices unit_normals i) (range 0 k) fd = Ok fd'.
Proof.
  intros Hpt. induction k as [|k IH]; intros Hv Hn.
  - exists fd. reflexivity.
  - destruct IH as [fd' Hfd']; [lia | lia |].
    destruct (lookup_lt_is_Some_2 vertices k ltac:(lia)) as [v Hvk].
    destruct (lookup_lt_is_Some_2 unit_normals k ltac:(lia)) as [n Hnk].
    rewrite range_0_S, for_range_app, Hfd'. simpl.
    unfold face_step. rewrite Hpt, Hvk, Hnk. eexists. reflexivity.
Qed.

Lemma face_loop_raises (points vertices unit_normals : list vec2) (i : nat) (pt : vec2)
    (fd : matrix) :
  points !! i = Some pt ->
  (length unit_normals < length vertices)%nat ->
  for_range (face_step points vertices unit_normals i) (range 0 (length vertices)) fd
  = Raise IndexError.
Proof.
  intros Hpt Hlt.
  set (m := length unit_normals) in *.
  assert (Hsplit : range 0 (length vertices)
                   = range 0 m ++ m :: seq (S m) (length vertices - S m)).
  { unfold range. rewrite !Nat.sub_0_r.
    replace (length vertices) with (m + S (length vertices - S m))%nat at 1 by lia.
    rewrite seq_app. reflexivity. }
  rewrite Hsplit, for_range_app.
  destruct (face_loop_ok points vertices unit_normals i pt fd m Hpt) as [fd' ->]; [lia | lia |].
  simpl. unfold face_step at 1. rewrite Hpt.
  destruct (lookup_lt_is_Some_2 vertices m ltac:(lia)) as [v ->].
  rewrite (lookup_ge_None_2 unit_normals m) by (unfold m; lia). reflexivity.
Qed.

(** X10. When there are fewer normals than vertices and at least one
    point, [calculate_distance] raises [IndexError], with either value of
    [return_bool]: the first point already runs out of normals. *)
Theorem calculate_distance_missing_normals (points vertices unit_normals : list vec2)
    (return_bool : bool) :
  points <> [] ->
  (length unit_normals < length vertices)%nat ->
  calculate_distance points vertices unit_normals return_bool = Raise IndexError.
Proof.
  intros Hne Hlt. destruct points as [|pt points]; [congruence|].
  unfold calculate_distance.
  assert (Hr : range 0 (length (pt :: points)) = O :: seq 1 (length points)).
  { unfold range. rewrite Nat.sub_0_r. reflexivity. }
  rewrite Hr.
  destruct return_bool; cbn [negb for_range].
  - unfold inside_step at 1.
    rewrite (face_loop_raises (pt :: points) vertices unit_normals 0 pt) by (reflexivity || lia).
    reflexivity.
  - rewrite (face_loop_raises (pt :: points) vertices unit_normals 0 pt) by (reflexivity || lia).
    reflexivity.
Qed.

Lemma calculate_distance_missing_normals_witness :
  calculate_distance [(0.5, 0.5)] square [(0, -1); (1, 0)] true = Raise IndexError.
Proof.
  apply (calculate_distance_missing_normals [(0.5, 0.5)] square [(0, -1); (1, 0)] true).
  - discriminate.
  - simpl. lia.
Defined.

Lemma calculate_distance_result (points vertices unit_normals : list vec2) :
  length unit_normals = length vertices ->
  calculate_distance points vertices unit_normals true
  = Ok (DistancesInside (distance_rows points vertices unit_normals)
                        (inside_flags points vertices unit_normals)) /\
  calculate_distance points vertices unit_normals false
  = Ok (Distances (distance_rows points vertices unit_normals)).
Proof.
  intros Hlen.
  set (fd0 := np_zeros2 (length points) (length vertices)).
  assert (Hfd0 : length fd0 = length points) by apply length_replicate.
  assert (Hrows0 : Forall (fun r => length r = length vertices) fd0).
  { apply Forall_replicate. apply length_replicate. }
  assert (Hfull : forall (A : Type) (new old : list A) (n : nat),
             length new = n -> length old = n -> take n new ++ drop n old = new).
  { intros A new old n H1 H2. rewrite take_ge, drop_ge, app_nil_r by lia. reflexivity. }
  assert (Hlr : length (distance_rows points vertices unit_normals) = length points)
    by (unfold distance_rows; apply length_fmap).
  assert (Hlf : length (inside_flags points vertices unit_normals) = length points)
    by (unfold inside_flags; apply length_fmap).
  assert (Hlz : length (np_zeros (length points)) = length points)
    by apply length_replicate.
  split.
  - unfold calculate_distance. simpl. fold fd0.
    rewrite (inside_loop points vertices unit_normals fd0 (length points)) by (assumption || lia).
    rewrite (Hfull _ _ fd0 (length points) Hlr Hfd0).
    rewrite (Hfull _ _ (np_zeros (length points)) (length points) Hlf Hlz).
    reflexivity.
  - unfold calculate_distance. simpl. fold fd0.
    rewrite (distance_loop points vertices unit_normals fd0 (length points)) by (assumption || lia).
    rewrite (Hfull _ _ fd0 (length points) Hlr Hfd0).
    reflexivity.
Qed.

Lemma face_value_scaled (pt v n : vec2) :
  face_value pt v n = vdot (v.1 - pt.1, v.2 - pt.2) n * (n.1 * n.1 + n.2 * n.2).
Proof. unfold face_value, vdot, scale2. simpl. ring. Qed.

Lemma norm_sq_pos (n : vec2) : n <> (0, 0) -> 0 < n.1 * n.1 + n.2 * n.2.
Proof.
  destruct n as [a b]. simpl. intros Hne.
  destruct (Req_dec a 0) as [Ha|Ha], (Req_dec b 0) as [Hb|Hb]; subst; try nra.
  exfalso. apply Hne. reflexivity.
Qed.

(** X11. The inside test does not need unit normals: with as many normals
    as vertices, none of them the zero vector, the stored distance is
    [dot(vertices[j] - points[i], n_j)] scaled by the squared length of
    [n_j], and [inside[i]] is [1] exactly when every
    [dot(vertices[j] - points[i], n_j)] is non-negative. *)
Theorem calculate_distance_any_normals (points vertices unit_normals : list vec2) :
  length unit_normals = length vertices ->
  Forall (fun n => n <> (0, 0)) unit_normals ->
  exists face_distance inside,
    calculate_distance points vertices unit_normals true
    = Ok (DistancesInside face_distance inside) /\
    forall i pt, points !! i = Some pt ->
      (forall j v n, vertices !! j = Some v -> unit_normals !! j = Some n ->
         idx2 face_distance i j
         = vdot (v.1 - pt.1, v.2 - pt.2) n * (n.1 * n.1 + n.2 * n.2)) /\
      (inside.[i] = 1 <->
       forall j v n, vertices !! j = Some v -> unit_normals !! j = Some n ->
                     vdot (v.1 - pt.1, v.2 - pt.2) n >= 0).
Proof.
  intros Hlen Hnz.
  exists (distance_rows points vertices unit_normals),
         (inside_flags points vertices unit_normals).
  split; [apply (calculate_distance_result points vertices unit_normals Hlen)|].
  intros i pt Hpt.
  assert (Hrow : nth i (distance_rows points vertices unit_normals) []
                 = distance_row vertices unit_normals pt).
  { apply nth_lookup_Some. unfold distance_rows. rewrite list_lookup_fmap, Hpt. reflexivity. }
  assert (Hflag : (inside_flags points vertices unit_normals).[i]
                  = if all_nonneg (distance_row vertices unit_normals pt) then 1 else 0).
  { unfold idx. apply nth_lookup_Some. unfold inside_flags.
    rewrite list_lookup_fmap, Hpt. reflexivity. }
  split.
  - intros j v n Hv Hn. unfold idx2. rewrite Hrow.
    apply nth_lookup_Some. unfold distance_row.
    rewrite lookup_zip_with, Hv, Hn. simpl. f_equal. apply face_value_scaled.
  - rewrite Hflag.
    assert (Hall : all_nonneg (distance_row vertices unit_normals pt) = true <->
                   forall j v n, vertices !! j = Some v -> unit_normals !! j = Some n ->
                                 vdot (v.1 - pt.1, v.2 - pt.2) n >= 0).
    { rewrite all_nonneg_spec. split.
      - intros H j v n Hv Hn.
        assert (Hx : distance_row vertices unit_normals pt !! j = Some (face_value pt v n))
          by (unfold distance_row; rewrite lookup_zip_with, Hv, Hn; reflexivity).
        pose proof (H j _ Hx) as Hge. rewrite face_value_scaled in Hge.
        rewrite Forall_lookup in Hnz. pose proof (norm_sq_pos n (Hnz j n Hn)) as Hpos.
        nra.
      - intros H j x Hx. unfold distance_row in Hx.
        apply lookup_zip_with_Some in Hx as (v & n & -> & Hv & Hn).
        rewrite face_value_scaled.
        rewrite Forall_lookup in Hnz. pose proof (norm_sq_pos n (Hnz j n Hn)) as Hpos.
        pose proof (H j v n Hv Hn) as Hge. nra. }
    destruct (all_nonneg (distance_row vertices unit_normals pt)) eqn:E.
    + split; [intros _; apply Hall; reflexivity | reflexivity].
    + split; [intros H; lra|]. intros H. apply Hall in H. discriminate H.
Qed.

Lemma calculate_distance_any_normals_witness :
  exists face_distance inside,
    calculate_distance [(0.5, 0.5); (2, 0.5)] square [(0, -2); (3, 0); (0, 1); (-5, 0)] true
    = Ok (DistancesInside face_distance inside).
Proof.
  destruct (calculate_distance_any_normals [(0.5, 0.5); (2, 0.5)] square
              [(0, -2); (3, 0); (0, 1); (-5, 0)] eq_refl)
    as (fd & ins & Hrun & _).
  - repeat constructor; intros H; injection H; intros; lra.
  - exists fd, ins. exact Hrun.
Defined.

(** ** [calculate_boundary] followed by [calculate_distance] *)

Lemma calculate_boundary_result (ConvexHull : list vec2 -> result (list nat))
    (pts : list vec2) (hull : list nat) :
  ConvexHull pts = Ok hull ->
  Forall (fun k => (k < length pts)%nat) hull ->
  calculate_boundary ConvexHull pts
  = Ok (polygon_of pts hull,
        unit_normal (polygon_of pts hull) (length hull) <$> seq 0 (length hull)).
Proof.
  intros Hhull Hrange.
  assert (Hn : length (polygon_of pts hull) = length hull)
    by (unfold polygon_of; apply length_fmap).
  unfold calculate_boundary. rewrite Hhull, take_rows_polygon by exact Hrange.
  rewrite Hn. f_equal. f_equal.
  rewrite (fold_left_ext _ (fun acc j =>
             <[j := unit_normal (polygon_of pts hull) (length hull) j]> acc))
    by (intros; apply normal_step_insert).
  unfold range. rewrite Nat.sub_0_r, fold_fill by (rewrite length_replicate; lia).
  rewrite drop_ge by (rewrite length_replicate; lia). apply app_nil_r.
Qed.

Lemma right_normal_distance (e v q : vec2) :
  e <> (0, 0) ->
  vdot (v.1 - q.1, v.2 - q.2) (div2 (e.2, - e.1) (norm2 (e.2, - e.1)))
  = cross2 e (sub2 q v) / norm2 e.
Proof.
  destruct e as [dx dy], v as [vx vy], q as [qx qy]. intros Hne.
  assert (Hpos : 0 < dx * dx + dy * dy) by (apply (norm_sq_pos (dx, dy)); exact Hne).
  assert (HN : norm2 (dy, - dx) = norm2 (dx, dy)).
  { unfold norm2. simpl. f_equal. ring. }
  assert (Hgt : 0 < norm2 (dx, dy)) by (unfold norm2; simpl; apply sqrt_lt_R0; exact Hpos).
  cbn [fst snd]. rewrite HN. remember (norm2 (dx, dy)) as N eqn:EN. clear EN HN.
  unfold vdot, div2, cross2, sub2. simpl. field. lra.
Qed.

(** X12. [calculate_boundary] followed by [calculate_distance] on the same
    points: under the contract of scipy's [ConvexHull], the distance stored
    for point [q] and face [j] is the perpendicular distance of [q] from the
    line of the face, [cross(edge_j, q - v_j) / |edge_j|]; it is
    non-negative, and zero for the two hull vertices of the face, which is
    where the [>= 0] test of the inside flag sits on the boundary. *)
Theorem boundary_distances_of_its_points (ConvexHull : list vec2 -> result (list nat))
    (pts : list vec2) (hull : list nat) :
  ConvexHull pts = Ok hull ->
  Forall (fun k => (k < length pts)%nat) hull ->
  let n := length hull in
  let V i := row (polygon_of pts hull) i in
  let edge j := sub2 (V ((j + 1) mod n)%nat) (V j) in
  (forall i, (i < n)%nat -> V ((i + 1) mod n)%nat <> V i) ->
  (forall i q, (i < n)%nat -> q ∈ pts -> 0 <= cross2 (edge i) (sub2 q (V i))) ->
  exists vertices unit_normals face_distance,
    calculate_boundary ConvexHull pts = Ok (vertices, unit_normals) /\
    calculate_distance pts vertices unit_normals false = Ok (Distances face_distance) /\
    length face_distance = length pts /\
    forall i j q, pts !! i = Some q -> (j < n)%nat ->
      idx2 face_distance i j = cross2 (edge j) (sub2 q (V j)) / norm2 (edge j) /\
      0 <= idx2 face_distance i j /\
      (q = V j \/ q = V ((j + 1) mod n)%nat -> idx2 face_distance i j = 0).
Proof.
  intros Hhull Hrange n V edge Hdistinct Hccw.
  set (vs := polygon_of pts hull).
  set (ns := unit_normal vs n <$> seq 0 n).
  assert (Hvs : length vs = n) by (unfold vs, polygon_of; apply length_fmap).
  assert (Hns : length ns = n) by (unfold ns; rewrite length_fmap; apply length_seq).
  exists vs, ns, (distance_rows pts vs ns).
  split; [apply calculate_boundary_result; assumption|].
  split; [apply calculate_distance_result; lia|].
  split; [unfold distance_rows; apply length_fmap|].
  intros i j q Hq Hj.
  assert (Hedge : edge j <> (0, 0)).
  { unfold edge, sub2. intros H. apply (Hdistinct j Hj).
    injection H as H1 H2.
    destruct (V ((j + 1) mod n)%nat) as [a b], (V j) as [c d]. simpl in *.
    f_equal; lra. }
  assert (Hshape : unit_normal vs n j
                   = div2 ((edge j).2, - (edge j).1) (norm2 ((edge j).2, - (edge j).1))).
  { unfold unit_normal. rewrite (next_index n j Hj). reflexivity. }
  assert (Hval : idx2 (distance_rows pts vs ns) i j
                 = cross2 (edge j) (sub2 q (V j)) / norm2 (edge j)).
  { unfold idx2.
    erewrite (nth_lookup_Some (distance_rows _ _ _))
      by (unfold distance_rows; rewrite list_lookup_fmap, Hq; reflexivity).
    destruct (lookup_lt_is_Some_2 vs j ltac:(lia)) as [v Hv].
    assert (Hvj : v = V j) by (unfold V, row; symmetry; apply nth_lookup_Some; exact Hv).
    erewrite (nth_lookup_Some (distance_row _ _ _)).
    2:{ unfold distance_row, ns.
        rewrite lookup_zip_with, Hv, list_lookup_fmap, lookup_seq_lt by lia. reflexivity. }
    destruct (right_normal (edge j) (sub2 q (V j)) Hedge) as (Hunit & _ & _).
    rewrite <- Hshape in Hunit.
    change (0 + j)%nat with j.
    rewrite face_value_unit by exact Hunit.
    rewrite Hshape, Hvj. apply right_normal_distance. exact Hedge. }
  assert (Hgt : 0 < norm2 (edge j)).
  { unfold norm2. apply sqrt_lt_R0. apply norm_sq_pos. exact Hedge. }
  rewrite Hval. split; [reflexivity|]. split.
  - apply Rmult_le_pos.
    + apply Hccw; [exact Hj|]. eapply list_elem_of_lookup_2. exact Hq.
    + left. apply Rinv_0_lt_compat. exact Hgt.
  - intros [->| ->].
    + replace (cross2 (edge j) (sub2 (V j) (V j))) with 0
        by (unfold cross2, sub2; simpl; ring).
      unfold Rdiv. apply Rmult_0_l.
    + replace (cross2 (edge j) (sub2 (V ((j + 1) mod n)%nat) (V j))) with 0
        by (unfold edge, cross2, sub2; simpl; ring).
      unfold Rdiv. apply Rmult_0_l.
Qed.

Lemma boundary_distances_of_its_points_witness :
  exists vertices unit_normals face_distance,
    calculate_boundary triangle_hull triangle = Ok (vertices, unit_normals) /\
    calculate_distance triangle vertices unit_normals false = Ok (Distances face_distance) /\
    length face_distance = length triangle.
Proof.
  destruct (boundary_distances_of_its_points triangle_hull triangle [0; 1; 2]%nat eq_refl)
    as (vs & ns & fd & Hb & Hd & Hl & _).
  - repeat constructor.
  - intros [|[|[|i]]] Hi; simpl in Hi; try lia; simpl; intros H; injection H; lra.
  - intros [|[|[|i]]] q Hi Hq; simpl in Hi; try lia;
      repeat (apply elem_of_cons in Hq as [->|Hq]);
      try (apply elem_of_nil in Hq; contradiction);
      unfold cross2, sub2; simpl; lra.
  - exists vs, ns, fd. repeat split; assumption.
Defined.

(** ** BoundaryComp: the polygon distances *)

(** X13. For a polygon boundary with as many unit normals as vertices, the
    forward pass of BoundaryComp returns an array with one row per turbine
    whose entry [[i, j]] is the signed distance
    [dot(boundaryVertices[j] - (turbineX[i], turbineY[i]), boundaryNormals[j])]. *)
Theorem BoundaryComp_polygon_distances (self : BoundaryComp.component)
    (p : BoundaryComp.params) :
  BoundaryComp.type self = BoundaryComp.polygon ->
  length (BoundaryComp.boundaryNormals p) = length (BoundaryComp.boundaryVertices p) ->
  Forall (fun n => norm2 n = 1) (BoundaryComp.boundaryNormals p) ->
  exists d,
    BoundaryComp.solve_nonlinear self p = Ok (A2 d) /\
    length d = BoundaryComp.nTurbines self /\
    forall i j v n, (i < BoundaryComp.nTurbines self)%nat ->
      BoundaryComp.boundaryVertices p !! j = Some v ->
      BoundaryComp.boundaryNormals p !! j = Some n ->
      idx2 d i j
      = vdot (v.1 - (BoundaryComp.turbineX p).[i], v.2 - (BoundaryComp.turbineY p).[i]) n.
Proof.
  intros Htype Hlen Hunit.
  set (locations := (fun i => ((BoundaryComp.turbineX p).[i], (BoundaryComp.turbineY p).[i]))
                      <$> range 0 (BoundaryComp.nTurbines self)).
  exists (distance_rows locations (BoundaryComp.boundaryVertices p)
            (BoundaryComp.boundaryNormals p)).
  split; [|split].
  - unfold BoundaryComp.solve_nonlinear. rewrite Htype. fold locations.
    destruct (calculate_distance_result locations _ _ Hlen) as [_ ->]. reflexivity.
  - unfold distance_rows, locations, range.
    rewrite !length_fmap, length_seq. lia.
  - intros i j v n Hi Hv Hn. unfold idx2.
    assert (Hloc : locations !! i
                   = Some ((BoundaryComp.turbineX p).[i], (BoundaryComp.turbineY p).[i])).
    { unfold locations, range. rewrite list_lookup_fmap, lookup_seq_lt by lia. reflexivity. }
    erewrite (nth_lookup_Some (distance_rows _ _ _))
      by (unfold distance_rows; rewrite list_lookup_fmap, Hloc; reflexivity).
    apply nth_lookup_Some. unfold distance_row.
    rewrite lookup_zip_with, Hv, Hn. simpl. f_equal.
    apply face_value_unit. rewrite Forall_lookup in Hunit. exact (Hunit j n Hn).
Qed.

Lemma BoundaryComp_polygon_distances_witness :
  exists d,
    BoundaryComp.solve_nonlinear (BoundaryComp.Build 2 4 BoundaryComp.polygon)
      (BoundaryComp.Params square square_normals 0 (0, 0) [0.5; 2] [0.5; 0.5]) = Ok (A2 d) /\
    length d = 2%nat.
Proof.
  destruct (BoundaryComp_polygon_distances (BoundaryComp.Build 2 4 BoundaryComp.polygon)
              (BoundaryComp.Params square square_normals 0 (0, 0) [0.5; 2] [0.5; 0.5])
              eq_refl eq_refl) as (d & Hrun & Hlen & _).
  - repeat constructor; unfold norm2; simpl;
      match goal with |- sqrt ?x = 1 => replace x with 1 by lra end; apply sqrt_1.
  - exists d. split; [exact Hrun | exact Hlen].
Defined.

(** ** MUX and DeMUX: the Jacobians and the errors *)

Lemma idx_one_hot (n i j : nat) :
  (i < n)%nat -> (one_hot n i).[j] = if decide (i = j) then 1 else 0.
Proof.
  intros Hi. unfold one_hot. rewrite idx_insert, idx_np_zeros.
  unfold np_zeros. rewrite length_replicate.
  destruct (decide (i = j /\ (i < n)%nat)), (decide (i = j)); try reflexivity; tauto.
Qed.

Lemma MUX_linearize_prefix (n k : nat) :
  (k <= n)%nat ->
  exists J, fold_left MUX.linearize_step (range 0 k) (np_zeros n, ∅) = (np_zeros n, J) /\
    forall i, (i < k)%nat -> J !! ("Array"%string, MUX.input_name i) = Some (A1 (one_hot n i)).
Proof.
  induction k as [|k IH]; intros Hk.
  - exists ∅. split; [reflexivity | intros; lia].
  - destruct IH as (J & Hrun & HJ); [lia|].
    exists (<[("Array"%string, MUX.input_name k) := A1 (one_hot n k)]> J).
    rewrite range_0_S, fold_left_app, Hrun. simpl. split.
    + f_equal. rewrite list_insert_insert_eq. apply list_insert_id.
      apply lookup_replicate_2. lia.
    + intros i Hi. destruct (decide (i = k)) as [->|Hne].
      * apply lookup_insert_eq.
      * rewrite lookup_insert_ne; [apply HJ; lia|].
        intros H. apply Hne.
        assert (H' : MUX.input_name k = MUX.input_name i) by congruence.
        symmetry. exact (MUX_input_name_inj _ _ H').
Qed.

(** X14. The Jacobian of MUX gives input [i] the one-hot vector of
    position [i]: the scratch vector the loop reuses is back to zero before
    each turn, so no block carries a [1] left over from an earlier input. *)
Theorem MUX_linearize_one_hot (self : MUX.component) (i : nat) :
  (i < MUX.nElements self)%nat ->
  exists d, MUX.linearize self !! ("Array"%string, MUX.input_name i) = Some (A1 d) /\
    length d = MUX.nElements self /\
    forall j, (j < MUX.nElements self)%nat -> d.[j] = if decide (i = j) then 1 else 0.
Proof.
  intros Hi. exists (one_hot (MUX.nElements self) i).
  destruct (MUX_linearize_prefix (MUX.nElements self) (MUX.nElements self) ltac:(lia))
    as (J & Hrun & HJ).
  split; [|split].
  - unfold MUX.linearize. rewrite Hrun. apply HJ. exact Hi.
  - unfold one_hot, np_zeros. rewrite length_insert. apply length_replicate.
  - intros j Hj. apply idx_one_hot. exact Hi.
Qed.

Lemma MUX_linearize_one_hot_witness :
  exists d, MUX.linearize (MUX.Build 3) !! ("Array"%string, MUX.input_name 1) = Some (A1 d) /\
    length d = 3%nat /\
    forall j, (j < 3)%nat -> d.[j] = if decide (1%nat = j) then 1 else 0.
Proof. exact (MUX_linearize_one_hot (MUX.Build 3) 1 ltac:(simpl; lia)). Defined.

Lemma DeMUX_linearize_lookup (M : matrix) (l : list nat) (J : jacobian) (i : nat) :
  i ∈ l ->
  fold_left (fun J i => <[(DeMUX.output_name i, "Array"%string) := A2 [nth i M []]]> J) l J
    !! (DeMUX.output_name i, "Array"%string)
  = Some (A2 [nth i M []]).
Proof.
  revert J. induction l as [|k l IH] using rev_ind; intros J Hin.
  - apply elem_of_nil in Hin. contradiction.
  - rewrite fold_left_app. simpl.
    destruct (decide (i = k)) as [->|Hne].
    + apply lookup_insert_eq.
    + rewrite lookup_insert_ne.
      * apply IH. apply elem_of_app in Hin as [Hin|Hin]; [exact Hin|].
        apply list_elem_of_singleton in Hin. contradiction.
      * intros H. apply Hne.
        assert (H' : DeMUX.output_name k = DeMUX.output_name i) by congruence.
        symmetry. exact (DeMUX_output_name_inj _ _ H').
Qed.

(** X15. The Jacobian of DeMUX gives output [i] a single row, the one-hot
    vector of position [i]. *)
Theorem DeMUX_linearize_one_hot (self : DeMUX.component) (i : nat) :
  (i < DeMUX.nElements self)%nat ->
  exists d, DeMUX.linearize self !! (DeMUX.output_name i, "Array"%string) = Some (A2 [d]) /\
    length d = DeMUX.nElements self /\
    forall j, (j < DeMUX.nElements self)%nat -> d.[j] = if decide (i = j) then 1 else 0.
Proof.
  intros Hi. set (n := DeMUX.nElements self) in *.
  exists (nth i (np_eye n) []).
  destruct (is_diag_eye n) as [_ Hd]. destruct (Hd i Hi) as [Hrow Hent].
  split; [|split].
  - unfold DeMUX.linearize. fold n. apply DeMUX_linearize_lookup.
    unfold range. apply elem_of_seq. lia.
  - exact Hrow.
  - intros j Hj. pose proof (Hent j Hj) as He. unfold idx2 in He.
    unfold idx. rewrite He. rewrite idx_np_ones by exact Hi. reflexivity.
Qed.

Lemma DeMUX_linearize_one_hot_witness :
  exists d, DeMUX.linearize (DeMUX.Build 3) !! (DeMUX.output_name 2, "Array"%string)
            = Some (A2 [d]) /\
    length d = 3%nat /\
    forall j, (j < 3)%nat -> d.[j] = if decide (2%nat = j) then 1 else 0.
Proof. exact (DeMUX_linearize_one_hot (DeMUX.Build 3) 2 ltac:(simpl; lia)). Defined.

Lemma for_range_raises {St : Type} (body : St -> nat -> result St) (k m : nat)
    (s s' : St) (e : exn) :
  (m < k)%nat ->
  for_range body (range 0 m) s = Ok s' ->
  body s' m = Raise e ->
  for_range body (range 0 k) s = Raise e.
Proof.
  intros Hm Hrun Hbody.
  assert (Hsplit : range 0 k = range 0 m ++ m :: seq (S m) (k - S m)).
  { unfold range. rewrite !Nat.sub_0_r.
    replace k with (m + S (k - S m))%nat at 1 by lia.
    rewrite seq_app. reflexivity. }
  rewrite Hsplit, for_range_app, Hrun. simpl. rewrite Hbody. reflexivity.
Qed.

(** X16. A DeMUX fed an array with fewer than [nElements] entries raises
    [IndexError]; no output dictionary is returned, not even the outputs
    that could have been filled. *)
Theorem DeMUX_short_array (self : DeMUX.component) (Array : vec)
    (unknowns : gmap string R) :
  (length Array < DeMUX.nElements self)%nat ->
  DeMUX.solve_nonlinear self Array unknowns = Raise IndexError.
Proof.
  intros Hlen. unfold DeMUX.solve_nonlinear.
  destruct (DeMUX_solve_prefix Array unknowns (length Array) ltac:(lia)) as (out & Hrun & _).
  apply (for_range_raises _ _ (length Array) _ out); [exact Hlen | exact Hrun |].
  unfold DeMUX.solve_step. rewrite lookup_ge_None_2 by lia. reflexivity.
Qed.

Lemma DeMUX_short_array_witness :
  DeMUX.solve_nonlinear (DeMUX.Build 3) [1; 2] ∅ = Raise IndexError.
Proof. exact (DeMUX_short_array (DeMUX.Build 3) [1; 2] ∅ ltac:(simpl; lia)). Defined.

(** X17. A MUX whose parameters lack ['input%i' % m], all inputs before it
    being present, raises [KeyError] with that name. *)
Theorem MUX_missing_input (self : MUX.component) (params : gmap string R)
    (Array : vec) (m : nat) :
  (m < MUX.nElements self)%nat ->
  length Array = MUX.nElements self ->
  (forall i, (i < m)%nat -> is_Some (params !! MUX.input_name i)) ->
  params !! MUX.input_name m = None ->
  MUX.solve_nonlinear self params Array = Raise (KeyError (MUX.input_name m)).
Proof.
  intros Hm Hlen Hbefore Hmiss. unfold MUX.solve_nonlinear.
  assert (Hrun : forall k, (k <= m)%nat ->
             exists A, for_range (MUX.solve_step params) (range 0 k) Array = Ok A /\
                       length A = length Array).
  { induction k as [|k IH]; intros Hk.
    - exists Array. split; reflexivity.
    - destruct IH as (A & HA & HAl); [lia|].
      destruct (Hbefore k ltac:(lia)) as [x Hx].
      exists (<[k := x]> A). rewrite range_0_S, for_range_app, HA. simpl.
      unfold MUX.solve_step. rewrite Hx, decide_True by lia.
      split; [reflexivity|]. rewrite length_insert. exact HAl. }
  destruct (Hrun m ltac:(lia)) as (A & HA & _).
  apply (for_range_raises _ _ m _ A); [exact Hm | exact HA |].
  unfold MUX.solve_step. rewrite Hmiss. reflexivity.
Qed.

Lemma MUX_missing_input_witness :
  MUX.solve_nonlinear (MUX.Build 2) (<["input0"%string := 7]> ∅) [0; 0]
  = Raise (KeyError (MUX.input_name 1)).
Proof.
  apply (MUX_missing_input (MUX.Build 2) (<["input0"%string := 7]> ∅) [0; 0] 1).
  - simpl. lia.
  - reflexivity.
  - intros [|i] Hi; [|lia]. exists 7. reflexivity.
  - reflexivity.
Defined.

(** ** CPCT interpolation: empty tables and the Jacobians *)

Ltac cpct_key_ne :=
  unfold CPCT_Interpolate_Gradients.yaw_name, CPCT_Interpolate_Gradients.wtVelocity_name,
    CPCT_Interpolate_Gradients_Smooth.yaw_name,
    CPCT_Interpolate_Gradients_Smooth.wtVelocity_name;
  cbn [String.append]; intros Hkey; discriminate Hkey.

Ltac cpct_lookup :=
  repeat first [ rewrite lookup_insert_eq | rewrite lookup_insert_ne by cpct_key_ne ].

Lemma CPCT_coefficients_ok (p : CPCT_Interpolate_Gradients.params) (yaw v : vec) :
  let ws := CPCT_Interpolate_Gradients.windSpeedToCPCT_wind_speed p in
  ws <> [] ->
  length (CPCT_Interpolate_Gradients.windSpeedToCPCT_CP p) = length ws ->
  length (CPCT_Interpolate_Gradients.windSpeedToCPCT_CT p) = length ws ->
  exists u, CPCT_Interpolate_Gradients.coefficients p yaw v = Ok u /\
    length (CPCT_Interpolate_Gradients.Cp_out u) = Nat.min (length yaw) (length v) /\
    length (CPCT_Interpolate_Gradients.Ct_out u) = Nat.min (length yaw) (length v).
Proof.
  intros ws Hne HCP HCT.
  rewrite (CPCT_coefficients_value p yaw v Hne HCP HCT).
  eexists. split; [reflexivity|].
  cbn [CPCT_Interpolate_Gradients.Cp_out CPCT_Interpolate_Gradients.Ct_out].
  unfold vmul, np_minimum, np_maximum, CPCT_Interpolate_Gradients.cos_yaw.
  rewrite !length_zip_with, !length_fmap, !length_zip_with, !length_fmap. lia.
Qed.

Lemma CPCT_coefficients_empty (p : CPCT_Interpolate_Gradients.params) (yaw v : vec) :
  CPCT_Interpolate_Gradients.windSpeedToCPCT_wind_speed p = [] ->
  CPCT_Interpolate_Gradients.coefficients p yaw v = Raise IndexError.
Proof.
  intros He. unfold CPCT_Interpolate_Gradients.coefficients,
    CPCT_Interpolate_Gradients.wind_speed_ax. rewrite He. reflexivity.
Qed.

Lemma CPCT_coefficients_mismatch (p : CPCT_Interpolate_Gradients.params) (yaw v : vec) :
  let ws := CPCT_Interpolate_Gradients.windSpeedToCPCT_wind_speed p in
  ws <> [] ->
  length (CPCT_Interpolate_Gradients.windSpeedToCPCT_CP p) <> length ws
  \/ length (CPCT_Interpolate_Gradients.windSpeedToCPCT_CT p) <> length ws ->
  CPCT_Interpolate_Gradients.coefficients p yaw v
  = Raise (ValueError "fp and xp are not of the same length.").
Proof.
  intros ws Hne Hmis.
  unfold CPCT_Interpolate_Gradients.coefficients, CPCT_Interpolate_Gradients.wind_speed_ax.
  fold ws. destruct ws as [|first rest] eqn:Hws; [congruence|].
  destruct (decide (length (CPCT_Interpolate_Gradients.windSpeedToCPCT_CP p)
                    = length (first :: rest))) as [HCP|HCP].
  - rewrite np_interp_array_ok by assumption.
    rewrite np_interp_array_mismatch; [reflexivity | exact Hne |].
    destruct Hmis as [H|H]; [contradiction | exact H].
  - rewrite np_interp_array_mismatch by assumption. reflexivity.
Qed.

(** X18. The table variant needs a well-formed table.  With an empty
    wind-speed array (the default [datasize=0] allocates one) both passes
    raise [IndexError] at the first table access; with a non-empty one but
    a [CP] or [CT] array of another length both passes raise the
    [ValueError] of [interp]. *)
Theorem CPCT_table_needs_data (self : CPCT_Interpolate_Gradients.component)
    (p : CPCT_Interpolate_Gradients.params) :
  let ws := CPCT_Interpolate_Gradients.windSpeedToCPCT_wind_speed p in
  let CP := CPCT_Interpolate_Gradients.windSpeedToCPCT_CP p in
  let CT := CPCT_Interpolate_Gradients.windSpeedToCPCT_CT p in
  (ws = [] ->
   CPCT_Interpolate_Gradients.solve_nonlinear self p = Raise IndexError /\
   CPCT_Interpolate_Gradients.linearize self p = Raise IndexError) /\
  (ws <> [] -> length CP <> length ws \/ length CT <> length ws ->
   CPCT_Interpolate_Gradients.solve_nonlinear self p
   = Raise (ValueError "fp and xp are not of the same length.") /\
   CPCT_Interpolate_Gradients.linearize self p
   = Raise (ValueError "fp and xp are not of the same length.")).
Proof.
  intros ws CP CT. split.
  - intros He. unfold CPCT_Interpolate_Gradients.solve_nonlinear,
      CPCT_Interpolate_Gradients.linearize.
    rewrite !CPCT_coefficients_empty by exact He. split; reflexivity.
  - intros Hne Hmis. unfold CPCT_Interpolate_Gradients.solve_nonlinear,
      CPCT_Interpolate_Gradients.linearize.
    rewrite !(CPCT_coefficients_mismatch p _ _ Hne Hmis). split; reflexivity.
Qed.

Lemma CPCT_solve_shift_yaw (self : CPCT_Interpolate_Gradients.component)
    (p : CPCT_Interpolate_Gradients.params) (d : R) :
  CPCT_Interpolate_Gradients.solve_nonlinear self (shift_yaw p d)
  = CPCT_Interpolate_Gradients.coefficients p
      ((fun x => x + d) <$> CPCT_Interpolate_Gradients.yaw p)
      (CPCT_Interpolate_Gradients.wtVelocity p).
Proof. reflexivity. Qed.

Lemma CPCT_solve_shift_speed (self : CPCT_Interpolate_Gradients.component)
    (p : CPCT_Interpolate_Gradients.params) (d : R) :
  CPCT_Interpolate_Gradients.solve_nonlinear self (shift_speed p d)
  = CPCT_Interpolate_Gradients.coefficients p
      (CPCT_Interpolate_Gradients.yaw p)
      ((fun x => x + d) <$> CPCT_Interpolate_Gradients.wtVelocity p).
Proof. reflexivity. Qed.

Lemma fmap_minus_as_plus (a : vec) (h : R) :
  (fun x => x - h) <$> a = (fun x => x + - h) <$> a.
Proof. apply list_fmap_ext. intros i x _. lra. Qed.

Lemma is_diag_difference (hi lo : vec) (n : nat) (c : R) :
  length hi = n -> length lo = n ->
  is_diag (mdivs (mrow_mul (np_eye n) (vsub hi lo)) c) (vdivs (vsub hi lo) c) n.
Proof.
  intros Hhi Hlo.
  apply (is_diag_ext _ (vdivs (vmul (np_ones n) (vsub hi lo)) c)).
  - intros i Hi. rewrite !idx_vdivs, idx_vmul, idx_np_ones by exact Hi. lra.
  - apply is_diag_mdivs, is_diag_mrow_mul; [|apply is_diag_eye].
    unfold vsub. rewrite length_zip_with. lia.
Qed.

(** X19. On a non-empty table whose coefficient arrays have the length of
    the wind-speed array, the Jacobian of the table variant is the central
    difference of its own forward pass with step [h = 1e-6], turbine by turbine: each
    block is diagonal, with the difference quotient of [Cp_out] (or
    [Ct_out]) under a shift of all yaws (or all wind speeds) by [±h] on
    the diagonal. *)
Theorem CPCT_table_jacobian_is_central_difference
    (self : CPCT_Interpolate_Gradients.component) (p : CPCT_Interpolate_Gradients.params) :
  let n := CPCT_Interpolate_Gradients.nTurbines self in
  let h := CPCT_Interpolate_Gradients.h in
  let ws := CPCT_Interpolate_Gradients.windSpeedToCPCT_wind_speed p in
  ws <> [] ->
  length (CPCT_Interpolate_Gradients.windSpeedToCPCT_CP p) = length ws ->
  length (CPCT_Interpolate_Gradients.windSpeedToCPCT_CT p) = length ws ->
  length (CPCT_Interpolate_Gradients.yaw p) = n ->
  length (CPCT_Interpolate_Gradients.wtVelocity p) = n ->
  exists J, CPCT_Interpolate_Gradients.linearize self p = Ok J /\
    is_diag (block J "Cp_out" (CPCT_Interpolate_Gradients.yaw_name self))
      (central_difference (fun d => table_Cp self (shift_yaw p d)) h) n /\
    is_diag (block J "Cp_out" (CPCT_Interpolate_Gradients.wtVelocity_name self))
      (central_difference (fun d => table_Cp self (shift_speed p d)) h) n /\
    is_diag (block J "Ct_out" (CPCT_Interpolate_Gradients.yaw_name self))
      (central_difference (fun d => table_Ct self (shift_yaw p d)) h) n /\
    is_diag (block J "Ct_out" (CPCT_Interpolate_Gradients.wtVelocity_name self))
      (central_difference (fun d => table_Ct self (shift_speed p d)) h) n.
Proof.
  intros n h ws Hne HCP HCT Hy Hv.
  unfold central_difference, table_Cp, table_Ct.
  rewrite !CPCT_solve_shift_yaw, !CPCT_solve_shift_speed.
  unfold CPCT_Interpolate_Gradients.linearize. fold h. fold n.
  rewrite !fmap_minus_as_plus.
  set (yaw := CPCT_Interpolate_Gradients.yaw p) in *.
  set (v := CPCT_Interpolate_Gradients.wtVelocity p) in *.
  destruct (CPCT_coefficients_ok p ((fun x => x + h) <$> yaw) v Hne HCP HCT) as (u1 & -> & L1 & L1').
  destruct (CPCT_coefficients_ok p ((fun x => x + - h) <$> yaw) v Hne HCP HCT) as (u2 & -> & L2 & L2').
  destruct (CPCT_coefficients_ok p yaw ((fun x => x + h) <$> v) Hne HCP HCT) as (u3 & -> & L3 & L3').
  destruct (CPCT_coefficients_ok p yaw ((fun x => x + - h) <$> v) Hne HCP HCT) as (u4 & -> & L4 & L4').
  rewrite ?length_fmap, Hy, Hv, Nat.min_id in L1, L1', L2, L2', L3, L3', L4, L4'.
  eexists. split; [reflexivity|].
  unfold block.
  split; [|split; [|split]]; cpct_lookup; apply is_diag_difference; assumption.
Qed.

Lemma CPCT_table_jacobian_is_central_difference_witness :
  exists J, CPCT_Interpolate_Gradients.linearize (CPCT_Interpolate_Gradients.Build 1 0 3)
              table_cpct_params = Ok J.
Proof.
  destruct (CPCT_table_jacobian_is_central_difference
              (CPCT_Interpolate_Gradients.Build 1 0 3) table_cpct_params
              ltac:(discriminate) eq_refl eq_refl eq_refl eq_refl) as (J & HJ & _).
  exists J. exact HJ.
Defined.



(** ** SpacingComp: the pair list and the gradient rows *)

Lemma fold_left_nested {A B C : Type} (f : B -> A -> C -> A) (g : B -> list C)
    (l : list B) (s : A) :
  fold_left (fun s i => fold_left (f i) (g i) s) l s
  = fold_left (fun s ij => f ij.1 s ij.2) (i ← l; (fun j => (i, j)) <$> g i) s.
Proof.
  revert s. induction l as [|i l IH]; intros s; [reflexivity|].
  rewrite bind_cons, fold_left_app. simpl. rewrite <- IH. f_equal.
  generalize (g i). intros gl. revert s.
  induction gl as [|j gl IHg]; intros s; [reflexivity|]. simpl. apply IHg.
Qed.

(** A loop that alters the entry under a running counter. *)
Lemma fold_counter {A B : Type} (G : B -> A -> A) (l : list B) (k : nat) (a : list A) :
  (k + length l <= length a)%nat ->
  fold_left (fun s x => (S s.1, alter (G x) s.1 s.2)) l (k, a)
  = ((k + length l)%nat,
     take k a ++ zip_with G l (take (length l) (drop k a)) ++ drop (k + length l) a).
Proof.
  revert k a. induction l as [|x l IH]; intros k a Hk.
  - simpl. rewrite Nat.add_0_r, take_drop. reflexivity.
  - cbn [fold_left fst snd length] in *.
    destruct (lookup_lt_is_Some_2 a k ltac:(lia)) as [y Hy].
    rewrite IH by (rewrite length_alter; lia).
    replace (S k + length l)%nat with (k + S (length l))%nat by lia.
    f_equal.
    rewrite !drop_alter_lt by lia.
    rewrite (take_S_r (alter (G x) k a) k (G x y))
      by (rewrite list_lookup_alter_eq, Hy; reflexivity).
    rewrite take_alter_ge by lia.
    rewrite (drop_S a y k Hy). cbn [take zip_with].
    rewrite <- !app_assoc. reflexivity.
Qed.

Lemma insert_as_alter {A : Type} (a : list A) (k : nat) (v : A) :
  <[k := v]> a = alter (fun _ => v) k a.
Proof.
  revert k. induction a as [|y a IH]; intros [|k]; try reflexivity.
  simpl. f_equal. apply IH.
Qed.

Lemma elem_of_turbine_pairs (n i j : nat) :
  (i, j) ∈ turbine_pairs n <-> (i < j < n)%nat.
Proof.
  unfold turbine_pairs, range. rewrite list_elem_of_bind. split.
  - intros (i' & Hij & Hi'). apply list_elem_of_fmap in Hij as (j' & Heq & Hj').
    injection Heq as -> ->. apply elem_of_seq in Hi', Hj'. lia.
  - intros Hij. exists i. split.
    + apply list_elem_of_fmap. exists j. split; [reflexivity|]. apply elem_of_seq. lia.
    + apply elem_of_seq. lia.
Qed.

Lemma zip_with_replicate_r {A B : Type} (G : B -> A -> A) (l : list B) (z : A) :
  zip_with G l (replicate (length l) z) = (fun x => G x z) <$> l.
Proof. induction l as [|x l IH]; [reflexivity|]. simpl. f_equal. exact IH. Qed.

Lemma turbine_pairs_count (n m : nat) :
  (m <= n)%nat ->
  (2 * length (i ← seq 0 m; (fun j => (i, j)) <$> range (i + 1) n) + m * (m + 1)
   = 2 * m * n)%nat.
Proof.
  induction m as [|m IH]; intros Hm; [reflexivity|].
  rewrite seq_S, bind_app, length_app. specialize (IH ltac:(lia)).
  cbn [mbind list_bind app]. rewrite app_nil_r, length_fmap.
  remember (length (seq 0 m ≫= λ i : nat, (λ j : nat, (i, j)) <$> range (i + 1) n)) as L.
  unfold range. rewrite length_seq. nia.
Qed.

Lemma length_turbine_pairs (n : nat) : length (turbine_pairs n) = SpacingComp.nPairs n.
Proof.
  pose proof (turbine_pairs_count n n (Nat.le_refl n)) as H.
  unfold turbine_pairs, SpacingComp.nPairs.
  replace (range 0 n) with (seq 0 n) by (unfold range; f_equal; lia).
  apply Nat.div_unique_exact; [lia|]. nia.
Qed.

Lemma SpacingComp_pairs_form (self : SpacingComp.component) (p : SpacingComp.params) :
  SpacingComp.solve_nonlinear self p
  = separation p <$> turbine_pairs (length (SpacingComp.turbineX p)).
Proof.
  set (n := length (SpacingComp.turbineX p)).
  unfold SpacingComp.solve_nonlinear. fold n.
  rewrite (fold_left_nested (SpacingComp.separation_step p) (fun i => range (i + 1) n)).
  cbv beta. fold (turbine_pairs n).
  rewrite (fold_left_ext _ (fun s x => (S s.1, alter (fun _ => separation p x) s.1 s.2))).
  2:{ intros [k a] [i j]. cbn [fst snd SpacingComp.separation_step].
      rewrite insert_as_alter. reflexivity. }
  rewrite fold_counter
    by (unfold np_zeros; rewrite length_replicate, length_turbine_pairs; lia).
  cbn [snd Nat.add]. rewrite take_0, drop_0. cbn [app].
  rewrite drop_ge by (unfold np_zeros; rewrite length_replicate, length_turbine_pairs; lia).
  rewrite app_nil_r.
  rewrite take_ge by (unfold np_zeros; rewrite length_replicate, length_turbine_pairs; lia).
  unfold np_zeros. rewrite <- length_turbine_pairs.
  apply zip_with_replicate_r.
Qed.

(** X21. The forward pass of SpacingComp lists the squared separations of
    the pairs [(i, j)], [i < j], row by row ([(0,1), (0,2), ..., (1,2), ...]),
    so it fills all [n (n - 1) / 2] cells of the output and no cell twice. *)
Theorem SpacingComp_all_pairs (self : SpacingComp.component) (p : SpacingComp.params) :
  let n := length (SpacingComp.turbineX p) in
  (n <= length (SpacingComp.turbineY p))%nat ->
  SpacingComp.solve_nonlinear self p = separation p <$> turbine_pairs n /\
  (2 * length (SpacingComp.solve_nonlinear self p) = n * (n - 1))%nat.
Proof.
  intros n _.
  pose proof (SpacingComp_pairs_form self p) as Hs. fold n in Hs.
  split; [exact Hs|].
  rewrite Hs, length_fmap.
  pose proof (turbine_pairs_count n n (Nat.le_refl n)) as H.
  unfold turbine_pairs.
  replace (range 0 n) with (seq 0 n) by (unfold range; f_equal; lia). nia.
Qed.

Lemma SpacingComp_all_pairs_witness :
  SpacingComp.solve_nonlinear (SpacingComp.Build 3)
    (SpacingComp.Params [0; 3; 0] [0; 0; 4])
  = separation (SpacingComp.Params [0; 3; 0] [0; 0; 4]) <$> [(0, 1); (0, 2); (1, 2)]%nat.
Proof.
  destruct (SpacingComp_all_pairs (SpacingComp.Build 3)
              (SpacingComp.Params [0; 3; 0] [0; 0; 4])) as [H _]; [simpl; lia|].
  exact H.
Defined.

(** X22. The squared separations do not change when the whole farm is
    translated. *)
Theorem SpacingComp_translation_invariant (self : SpacingComp.component)
    (p : SpacingComp.params) (dx dy : R) :
  (length (SpacingComp.turbineX p) <= length (SpacingComp.turbineY p))%nat ->
  SpacingComp.solve_nonlinear self (translate p dx dy) = SpacingComp.solve_nonlinear self p.
Proof.
  intros Hlen.
  rewrite (SpacingComp_pairs_form self p), (SpacingComp_pairs_form self (translate p dx dy)).
  cbn [translate SpacingComp.turbineX]. rewrite length_fmap.
  apply list_fmap_ext. intros k [i j] Hk.
  apply list_elem_of_lookup_2, elem_of_turbine_pairs in Hk.
  unfold separation. cbn [translate SpacingComp.turbineX SpacingComp.turbineY fst snd].
  rewrite !idx_fmap by lia. ring.
Qed.

Lemma SpacingComp_translation_invariant_witness :
  SpacingComp.solve_nonlinear (SpacingComp.Build 3)
    (translate (SpacingComp.Params [0; 3; 0] [0; 0; 4]) 10 (-5))
  = SpacingComp.solve_nonlinear (SpacingComp.Build 3)
      (SpacingComp.Params [0; 3; 0] [0; 0; 4]).
Proof.
  apply (SpacingComp_translation_invariant (SpacingComp.Build 3)
           (SpacingComp.Params [0; 3; 0] [0; 0; 4])).
  simpl. lia.
Defined.

Lemma derivable_pt_lim_ext (f g : R -> R) (x l : R) :
  (forall y, f y = g y) -> derivable_pt_lim f x l -> derivable_pt_lim g x l.
Proof.
  intros Hfg Hf eps Heps. destruct (Hf eps Heps) as [d Hd]. exists d.
  intros h Hh Hlt. rewrite <- !Hfg. apply Hd; assumption.
Qed.

Lemma derivable_pt_lim_sq_affine (s t b x : R) :
  derivable_pt_lim (fun y => (s * y + t) ^ 2 + b) x (2 * s * (s * x + t)).
Proof.
  intros eps Heps.
  assert (Hpos : 0 < s * s + 1) by nra.
  assert (Hd : 0 < eps / (s * s + 1)) by (apply Rdiv_lt_0_compat; assumption).
  exists (mkposreal _ Hd). intros h Hh Hlt. simpl in Hlt.
  replace (((s * (x + h) + t) ^ 2 + b - ((s * x + t) ^ 2 + b)) / h - 2 * s * (s * x + t))
    with (s * s * h) by (field; exact Hh).
  apply (Rmult_lt_compat_r (s * s + 1)) in Hlt; [|exact Hpos].
  replace (eps / (s * s + 1) * (s * s + 1)) with eps in Hlt by (field; lra).
  rewrite Rabs_mult, (Rabs_pos_eq (s * s)) by nra.
  pose proof (Rabs_pos h). nra.
Qed.

Lemma separation_gradient_exact (a : vec) (b : R) (i j c : nat) :
  (i < j < length a)%nat -> (c < length a)%nat ->
  derivable_pt_lim
    (fun x => ((<[c := x]> a).[j] - (<[c := x]> a).[i]) ^ 2 + b) a.[c]
    (separation_gradient a (i, j) c).
Proof.
  intros Hij Hc. unfold separation_gradient. cbn [fst snd].
  destruct (decide (c = i)) as [->|Hci]; [|destruct (decide (c = j)) as [->|Hcj]].
  - apply (derivable_pt_lim_ext (fun x => (-1 * x + a.[j]) ^ 2 + b)).
    + intros x. rewrite !idx_insert.
      destruct (decide (i = j /\ _)) as [[? _]|_]; [lia|].
      destruct (decide (i = i /\ _)) as [_|Hn]; [|lia]. ring.
    + replace (-2 * (a.[j] - a.[i])) with (2 * -1 * (-1 * a.[i] + a.[j])) by ring.
      apply derivable_pt_lim_sq_affine.
  - apply (derivable_pt_lim_ext (fun x => (1 * x + - a.[i]) ^ 2 + b)).
    + intros x. rewrite !idx_insert.
      destruct (decide (j = j /\ _)) as [_|Hn]; [|lia].
      destruct (decide (j = i /\ _)) as [[? _]|_]; [lia|]. ring.
    + replace (2 * (a.[j] - a.[i])) with (2 * 1 * (1 * a.[j] + - a.[i])) by ring.
      apply derivable_pt_lim_sq_affine.
  - apply (derivable_pt_lim_ext (fun x => (0 * x + (a.[j] - a.[i])) ^ 2 + b)).
    + intros x. rewrite !idx_insert.
      destruct (decide (c = j /\ _)) as [[? _]|_]; [congruence|].
      destruct (decide (c = i /\ _)) as [[? _]|_]; [congruence|]. ring.
    + pose proof (derivable_pt_lim_sq_affine 0 (a.[j] - a.[i]) b a.[c]) as H.
      replace (2 * 0 * (0 * a.[c] + (a.[j] - a.[i]))) with 0 in H by ring. exact H.
Qed.

Lemma SpacingComp_gradient_array (p : SpacingComp.params) :
  let n := length (SpacingComp.turbineX p) in
  let X := SpacingComp.turbineX p in
  let Y := SpacingComp.turbineY p in
  (fold_left (fun s i => fold_left (SpacingComp.gradient_step p n i) (range (i + 1) n) s)
     (range 0 n) (0%nat, np_zeros2 (SpacingComp.nPairs n) (2 * n))).2
  = (fun ij : nat * nat =>
       <[(ij.1 + n)%nat := -2 * (Y.[ij.2] - Y.[ij.1])]>
         (<[(ij.2 + n)%nat := 2 * (Y.[ij.2] - Y.[ij.1])]>
            (<[ij.1 := -2 * (X.[ij.2] - X.[ij.1])]>
               (<[ij.2 := 2 * (X.[ij.2] - X.[ij.1])]> (np_zeros (2 * n))))))
    <$> turbine_pairs n.
Proof.
  intros n X Y.
  rewrite (fold_left_nested (SpacingComp.gradient_step p n) (fun i => range (i + 1) n)).
  cbv beta. fold (turbine_pairs n).
  rewrite (fold_left_ext _
             (fun s (ij : nat * nat) =>
                (S s.1,
                 alter (fun row =>
                          <[(ij.1 + n)%nat := -2 * (Y.[ij.2] - Y.[ij.1])]>
                            (<[(ij.2 + n)%nat := 2 * (Y.[ij.2] - Y.[ij.1])]>
                               (<[ij.1 := -2 * (X.[ij.2] - X.[ij.1])]>
                                  (<[ij.2 := 2 * (X.[ij.2] - X.[ij.1])]> row))))
                   s.1 s.2))).
  2:{ intros [k a] [i j]. cbn [fst snd SpacingComp.gradient_step]. unfold mset.
      rewrite !list_alter_alter_eq. reflexivity. }
  rewrite fold_counter
    by (unfold np_zeros2; rewrite length_replicate, length_turbine_pairs; lia).
  cbn [snd Nat.add]. rewrite take_0, drop_0. cbn [app].
  rewrite drop_ge by (unfold np_zeros2; rewrite length_replicate, length_turbine_pairs; lia).
  rewrite app_nil_r.
  rewrite take_ge by (unfold np_zeros2; rewrite length_replicate, length_turbine_pairs; lia).
  unfold np_zeros2. rewrite <- length_turbine_pairs.
  apply (zip_with_replicate_r
           (fun (ij : nat * nat) row =>
              <[(ij.1 + n)%nat := -2 * (Y.[ij.2] - Y.[ij.1])]>
                (<[(ij.2 + n)%nat := 2 * (Y.[ij.2] - Y.[ij.1])]>
                   (<[ij.1 := -2 * (X.[ij.2] - X.[ij.1])]>
                      (<[ij.2 := 2 * (X.[ij.2] - X.[ij.1])]> row))))).
Qed.

(** X23. The Jacobian of SpacingComp has one row per turbine pair, in the
    order of the forward pass.  In the row of the pair [(i, j)] the entry
    for turbine [c] is [-2 (a[j] - a[i])] for [c = i], [2 (a[j] - a[i])]
    for [c = j] and [0] otherwise ([a] being [turbineX] or [turbineY]),
    and that is the partial derivative of the pair's squared separation
    in that coordinate. *)
Theorem SpacingComp_gradient_rows (self : SpacingComp.component) (p : SpacingComp.params) :
  let n := length (SpacingComp.turbineX p) in
  let MX := block (SpacingComp.linearize self p) "wtSeparationSquared" "turbineX" in
  let MY := block (SpacingComp.linearize self p) "wtSeparationSquared" "turbineY" in
  length (SpacingComp.turbineY p) = n ->
  length MX = SpacingComp.nPairs n /\ length MY = SpacingComp.nPairs n /\
  forall k ij, turbine_pairs n !! k = Some ij ->
    forall c, (c < n)%nat ->
      idx2 MX k c = separation_gradient (SpacingComp.turbineX p) ij c /\
      idx2 MY k c = separation_gradient (SpacingComp.turbineY p) ij c /\
      derivable_pt_lim (fun x => separation (with_turbineX p c x) ij)
        (SpacingComp.turbineX p).[c] (idx2 MX k c) /\
      derivable_pt_lim (fun y => separation (with_turbineY p c y) ij)
        (SpacingComp.turbineY p).[c] (idx2 MY k c).
Proof.
  intros n MX MY HY.
  assert (HMX : MX = take n <$> ((fold_left
              (fun s i => fold_left (SpacingComp.gradient_step p n i) (range (i + 1) n) s)
              (range 0 n) (0%nat, np_zeros2 (SpacingComp.nPairs n) (2 * n))).2)).
  { unfold MX, block, SpacingComp.linearize. fold n.
    rewrite lookup_insert_ne by (intros Hk; discriminate Hk).
    rewrite lookup_insert_eq. reflexivity. }
  assert (HMY : MY = drop n <$> ((fold_left
              (fun s i => fold_left (SpacingComp.gradient_step p n i) (range (i + 1) n) s)
              (range 0 n) (0%nat, np_zeros2 (SpacingComp.nPairs n) (2 * n))).2)).
  { unfold MY, block, SpacingComp.linearize. fold n.
    rewrite lookup_insert_eq. reflexivity. }
  pose proof (SpacingComp_gradient_array p) as Ha. cbv zeta in Ha. fold n in Ha.
  rewrite Ha in HMX, HMY. clearbody MX MY. subst MX MY.
  rewrite !length_fmap, length_turbine_pairs.
  split; [reflexivity|]. split; [reflexivity|].
  intros k [i j] Hk c Hc.
  pose proof (proj1 (elem_of_turbine_pairs n i j) (list_elem_of_lookup_2 _ _ _ Hk)) as Hij.
  assert (EX : idx2 (take n <$> ((fun ij : nat * nat =>
       <[(ij.1 + n)%nat := -2 * ((SpacingComp.turbineY p).[ij.2] - (SpacingComp.turbineY p).[ij.1])]>
         (<[(ij.2 + n)%nat := 2 * ((SpacingComp.turbineY p).[ij.2] - (SpacingComp.turbineY p).[ij.1])]>
            (<[ij.1 := -2 * ((SpacingComp.turbineX p).[ij.2] - (SpacingComp.turbineX p).[ij.1])]>
               (<[ij.2 := 2 * ((SpacingComp.turbineX p).[ij.2] - (SpacingComp.turbineX p).[ij.1])]>
                  (np_zeros (2 * n)))))) <$> turbine_pairs n)) k c
        = separation_gradient (SpacingComp.turbineX p) (i, j) c).
  { unfold idx2. rewrite <- list_fmap_compose.
    erewrite (nth_lookup_Some _ k []) by (rewrite list_lookup_fmap, Hk; reflexivity).
    cbn [compose fst snd]. rewrite nth_lookup, lookup_take_lt by exact Hc.
    rewrite <- nth_lookup. fold (idx (<[(i + n)%nat := -2 * ((SpacingComp.turbineY p).[j] - (SpacingComp.turbineY p).[i])]>
         (<[(j + n)%nat := 2 * ((SpacingComp.turbineY p).[j] - (SpacingComp.turbineY p).[i])]>
            (<[i := -2 * ((SpacingComp.turbineX p).[j] - (SpacingComp.turbineX p).[i])]>
               (<[j := 2 * ((SpacingComp.turbineX p).[j] - (SpacingComp.turbineX p).[i])]>
                  (np_zeros (2 * n)))))) c).
    rewrite !idx_insert, idx_np_zeros. unfold separation_gradient. cbn [fst snd].
    rewrite !length_insert. unfold np_zeros. rewrite length_replicate.
    repeat (destruct (decide _)); try reflexivity; lia. }
  assert (EY : idx2 (drop n <$> ((fun ij : nat * nat =>
       <[(ij.1 + n)%nat := -2 * ((SpacingComp.turbineY p).[ij.2] - (SpacingComp.turbineY p).[ij.1])]>
         (<[(ij.2 + n)%nat := 2 * ((SpacingComp.turbineY p).[ij.2] - (SpacingComp.turbineY p).[ij.1])]>
            (<[ij.1 := -2 * ((SpacingComp.turbineX p).[ij.2] - (SpacingComp.turbineX p).[ij.1])]>
               (<[ij.2 := 2 * ((SpacingComp.turbineX p).[ij.2] - (SpacingComp.turbineX p).[ij.1])]>
                  (np_zeros (2 * n)))))) <$> turbine_pairs n)) k c
        = separation_gradient (SpacingComp.turbineY p) (i, j) c).
  { unfold idx2. rewrite <- list_fmap_compose.
    erewrite (nth_lookup_Some _ k []) by (rewrite list_lookup_fmap, Hk; reflexivity).
    cbn [compose fst snd]. rewrite nth_lookup, lookup_drop.
    rewrite <- nth_lookup. fold (idx (<[(i + n)%nat := -2 * ((SpacingComp.turbineY p).[j] - (SpacingComp.turbineY p).[i])]>
         (<[(j + n)%nat := 2 * ((SpacingComp.turbineY p).[j] - (SpacingComp.turbineY p).[i])]>
            (<[i := -2 * ((SpacingComp.turbineX p).[j] - (SpacingComp.turbineX p).[i])]>
               (<[j := 2 * ((SpacingComp.turbineX p).[j] - (SpacingComp.turbineX p).[i])]>
                  (np_zeros (2 * n)))))) (n + c)).
    rewrite !idx_insert, idx_np_zeros. unfold separation_gradient. cbn [fst snd].
    rewrite !length_insert. unfold np_zeros. rewrite length_replicate.
    repeat (destruct (decide _)); try reflexivity; lia. }
  rewrite EX, EY.
  split; [reflexivity|]. split; [reflexivity|]. split.
  - unfold separation, with_turbineX. cbn [SpacingComp.turbineX SpacingComp.turbineY fst snd].
    apply separation_gradient_exact; fold n; lia.
  - apply (derivable_pt_lim_ext
             (fun y => ((<[c := y]> (SpacingComp.turbineY p)).[j]
                        - (<[c := y]> (SpacingComp.turbineY p)).[i]) ^ 2
                       + ((SpacingComp.turbineX p).[j] - (SpacingComp.turbineX p).[i]) ^ 2)).
    + intros y. unfold separation, with_turbineY.
      cbn [SpacingComp.turbineX SpacingComp.turbineY fst snd]. ring.
    + apply separation_gradient_exact; rewrite HY; lia.
Qed.

Lemma SpacingComp_gradient_rows_witness :
  length (block (SpacingComp.linearize (SpacingComp.Build 3)
                   (SpacingComp.Params [0; 3; 0] [0; 0; 4]))
            "wtSeparationSquared" "turbineX") = 3%nat.
Proof.
  destruct (SpacingComp_gradient_rows (SpacingComp.Build 3)
              (SpacingComp.Params [0; 3; 0] [0; 0; 4]) eq_refl) as [H _].
  exact H.
Defined.

(** ** BoundaryComp: the Jacobians *)

Lemma derivable_pt_lim_affine (s t x : R) : derivable_pt_lim (fun y => s * y + t) x s.
Proof.
  intros eps Heps. exists (mkposreal 1 Rlt_0_1). intros h Hh _.
  replace ((s * (x + h) + t - (s * x + t)) / h - s) with 0 by (field; exact Hh).
  rewrite Rabs_R0. exact Heps.
Qed.

Lemma circle_distance_dx (r : R) (center : vec2) (x y : R) :
  derivable_pt_lim (fun x => circle_distance r center x y) x (-2 * (x - center.1)).
Proof.
  apply (derivable_pt_lim_ext
           (mult_real_fct (-1)
              (fun x => (1 * x + - center.1) ^ 2 + ((y - center.2) ^ 2 - r ^ 2)))).
  - intros x'. unfold mult_real_fct, circle_distance. ring.
  - replace (-2 * (x - center.1)) with (-1 * (2 * 1 * (1 * x + - center.1))) by ring.
    apply derivable_pt_lim_scal, derivable_pt_lim_sq_affine.
Qed.

Lemma circle_distance_dy (r : R) (center : vec2) (x y : R) :
  derivable_pt_lim (fun y => circle_distance r center x y) y (-2 * (y - center.2)).
Proof.
  apply (derivable_pt_lim_ext
           (mult_real_fct (-1)
              (fun y => (1 * y + - center.2) ^ 2 + ((x - center.1) ^ 2 - r ^ 2)))).
  - intros y'. unfold mult_real_fct, circle_distance. ring.
  - replace (-2 * (y - center.2)) with (-1 * (2 * 1 * (1 * y + - center.2))) by ring.
    apply derivable_pt_lim_scal, derivable_pt_lim_sq_affine.
Qed.

(** X24. For a circular boundary the output for turbine [i] is
    [r^2 - ((x_i - xc)^2 + (y_i - yc)^2)], and the two Jacobian blocks are
    diagonal with the partial derivatives of that expression in [x_i] and
    in [y_i] on the diagonal. *)
Theorem BoundaryComp_circle_jacobian (self : BoundaryComp.component)
    (p : BoundaryComp.params) :
  let n := BoundaryComp.nTurbines self in
  let X := BoundaryComp.turbineX p in
  let Y := BoundaryComp.turbineY p in
  let dist := circle_distance (BoundaryComp.boundary_radius p) (BoundaryComp.boundary_center p) in
  BoundaryComp.type self = BoundaryComp.circle ->
  length X = n -> length Y = n ->
  exists d J gx gy,
    BoundaryComp.solve_nonlinear self p = Ok (A1 d) /\
    BoundaryComp.linearize self p = Ok J /\
    length d = n /\
    is_diag (block J "boundaryDistances" "turbineX") gx n /\
    is_diag (block J "boundaryDistances" "turbineY") gy n /\
    forall i, (i < n)%nat ->
      d.[i] = dist X.[i] Y.[i] /\
      derivable_pt_lim (fun x => dist x Y.[i]) X.[i] gx.[i] /\
      derivable_pt_lim (fun y => dist X.[i] y) Y.[i] gy.[i].
Proof.
  intros n X Y dist Ht HX HY.
  unfold BoundaryComp.solve_nonlinear, BoundaryComp.linearize. rewrite Ht. fold n X Y.
  eexists _, _,
    (vmul (np_ones n)
       (svmul (-2) ((fun x => x - (BoundaryComp.boundary_center p).1) <$> X))),
    (vmul (np_ones n)
       (svmul (-2) ((fun y => y - (BoundaryComp.boundary_center p).2) <$> Y))).
  split; [reflexivity|]. split; [reflexivity|].
  split; [|split; [|split]].
  - unfold vadd. rewrite length_fmap, length_zip_with, !length_fmap. lia.
  - unfold block. rewrite lookup_insert_ne by (intros Hk; discriminate Hk).
    rewrite lookup_insert_eq.
    apply is_diag_mrow_mul; [|apply is_diag_eye].
    unfold svmul. rewrite !length_fmap. exact HX.
  - unfold block. rewrite lookup_insert_eq.
    apply is_diag_mrow_mul; [|apply is_diag_eye].
    unfold svmul. rewrite !length_fmap. exact HY.
  - intros i Hi. split; [|split].
    + rewrite idx_fmap
        by (unfold vadd; rewrite length_zip_with, !length_fmap; lia).
      unfold vadd. rewrite idx_zip_with by (rewrite !length_fmap; lia).
      rewrite !idx_fmap by lia. reflexivity.
    + rewrite idx_vmul, idx_np_ones by exact Hi. unfold svmul.
      rewrite idx_fmap by (rewrite length_fmap; lia). rewrite idx_fmap by lia.
      rewrite Rmult_1_l. apply circle_distance_dx.
    + rewrite idx_vmul, idx_np_ones by exact Hi. unfold svmul.
      rewrite idx_fmap by (rewrite length_fmap; lia). rewrite idx_fmap by lia.
      rewrite Rmult_1_l. apply circle_distance_dy.
Qed.

Lemma BoundaryComp_circle_jacobian_witness :
  exists J,
    BoundaryComp.linearize (BoundaryComp.Build 3 1 BoundaryComp.circle)
      (BoundaryComp.Params [] [] 10 (0, 0) [10; 0; 20] [0; 0; 0]) = Ok J.
Proof.
  destruct (BoundaryComp_circle_jacobian (BoundaryComp.Build 3 1 BoundaryComp.circle)
              (BoundaryComp.Params [] [] 10 (0, 0) [10; 0; 20] [0; 0; 0])
              eq_refl eq_refl eq_refl) as (d & J & gx & gy & _ & HJ & _).
  exists J. exact HJ.
Defined.

Lemma for_range_pure {St : Type} (body : St -> nat -> result St) (g : St -> nat -> St)
    (l : list nat) (s : St) :
  (forall s x, x ∈ l -> body s x = Ok (g s x)) ->
  for_range body l s = Ok (fold_left g l s).
Proof.
  revert s. induction l as [|a l IH]; intros s H; simpl; [reflexivity|].
  rewrite H by constructor. apply IH. intros s' x Hx. apply H. constructor. exact Hx.
Qed.

Lemma fold_left_pair {A B C : Type} (f : A -> C -> A) (g : B -> C -> B) (l : list C)
    (a : A) (b : B) :
  fold_left (fun s x => (f s.1 x, g s.2 x)) l (a, b) = (fold_left f l a, fold_left g l b).
Proof.
  revert a b. induction l as [|x l IH]; intros a b; [reflexivity|]. simpl. apply IH.
Qed.

Lemma nth_mset (M : matrix) (r0 c0 : nat) (v : R) (r : nat) :
  nth r (mset M r0 c0 v) []
  = if decide (r = r0) then <[c0 := v]> (nth r M []) else nth r M [].
Proof.
  unfold mset. rewrite !nth_lookup.
  destruct (decide (r = r0)) as [->|Hne].
  - rewrite list_lookup_alter_eq. destruct (M !! r0); reflexivity.
  - rewrite list_lookup_alter_ne by congruence. reflexivity.
Qed.

Lemma idx2_mset (M : matrix) (r0 c0 : nat) (v : R) (r c : nat) :
  idx2 (mset M r0 c0 v) r c
  = if decide (r = r0 /\ c = c0 /\ (c0 < length (nth r0 M []))%nat) then v else idx2 M r c.
Proof.
  unfold idx2. rewrite nth_mset.
  destruct (decide (r = r0)) as [->|Hne].
  - fold (idx (<[c0 := v]> (nth r0 M [])) c). rewrite idx_insert.
    destruct (decide (c0 = c /\ _)) as [[-> Hlt]|Hn], (decide (r0 = r0 /\ _)) as [Hy|Hy'];
      try reflexivity; naive_solver.
  - destruct (decide (r = r0 /\ _)) as [[? _]|_]; [contradiction | reflexivity].
Qed.

Lemma mset_row_length (M : matrix) (r0 c0 : nat) (v : R) (r : nat) :
  length (nth r (mset M r0 c0 v) []) = length (nth r M []).
Proof.
  rewrite nth_mset. destruct (decide (r = r0)); [apply length_insert | reflexivity].
Qed.

Section Writes.

Context {B : Type} (tr tc : B -> nat) (val : B -> R).

(** A run of item assignments [M[tr x, tc x] = val x]. *)
Let writes (l : list B) (M : matrix) : matrix :=
  fold_left (fun M x => mset M (tr x) (tc x) (val x)) l M.

Lemma writes_length (l : list B) (M : matrix) : length (writes l M) = length M.
Proof.
  revert M. induction l as [|x l IH]; intros M; [reflexivity|].
  unfold writes in *. simpl. rewrite IH. unfold mset. apply length_alter.
Qed.

Lemma writes_row_length (l : list B) (M : matrix) (r : nat) :
  length (nth r (writes l M) []) = length (nth r M []).
Proof.
  revert M. induction l as [|x l IH]; intros M; [reflexivity|].
  unfold writes in *. simpl. rewrite IH. apply mset_row_length.
Qed.

Lemma writes_other (l : list B) (M : matrix) (r c : nat) :
  (forall x, x ∈ l -> ~ (tr x = r /\ tc x = c)) ->
  idx2 (writes l M) r c = idx2 M r c.
Proof.
  revert M. induction l as [|x l IH]; intros M H; [reflexivity|].
  unfold writes in *. simpl. rewrite IH by (intros y Hy; apply H; constructor; exact Hy).
  rewrite idx2_mset.
  destruct (decide _) as [(Hr & Hc & _)|_]; [|reflexivity].
  exfalso. apply (H x); [constructor | split; congruence].
Qed.

Lemma writes_hit (l : list B) (M : matrix) (r c : nat) (v : R) :
  (exists x, x ∈ l /\ tr x = r /\ tc x = c) ->
  (forall x, x ∈ l -> tr x = r -> tc x = c -> val x = v) ->
  (c < length (nth r M []))%nat ->
  idx2 (writes l M) r c = v.
Proof.
  revert M. induction l as [|y l IH]; intros M Hex Hval Hc.
  - destruct Hex as (x & Hx & _). inversion Hx.
  - unfold writes in *. simpl.
    destruct (decide (Exists (fun x => tr x = r /\ tc x = c) l)) as [He|Hn].
    + apply IH.
      * apply Exists_exists in He. exact He.
      * intros x Hx. apply Hval. constructor. exact Hx.
      * rewrite mset_row_length. exact Hc.
    + rewrite (writes_other l).
      2:{ intros x Hx Hrc. apply Hn, Exists_exists. exists x. split; assumption. }
      destruct Hex as (x & Hx & Hr & Hcx).
      assert (x = y) as ->.
      { inversion Hx; subst; [reflexivity|].
        exfalso. apply Hn, Exists_exists. eexists. split; [eassumption|]. split; reflexivity. }
      rewrite idx2_mset.
      destruct (decide _) as [_|Hno].
      * apply Hval; [constructor | assumption | assumption].
      * exfalso. apply Hno. subst r c. split; [reflexivity|]. split; [reflexivity|]. exact Hc.
Qed.

End Writes.

Lemma np_zeros2_row_length (rows cols r : nat) :
  (r < rows)%nat -> length (nth r (np_zeros2 rows cols) []) = cols.
Proof.
  intros Hr. unfold np_zeros2.
  rewrite (nth_lookup_Some _ r [] (np_zeros cols)) by (apply lookup_replicate_2; exact Hr).
  unfold np_zeros. apply length_replicate.
Qed.

Lemma idx2_np_zeros2 (rows cols r c : nat) : idx2 (np_zeros2 rows cols) r c = 0.
Proof.
  unfold idx2, np_zeros2. rewrite (nth_lookup _ r).
  destruct (decide (r < rows)%nat).
  - rewrite lookup_replicate_2 by assumption. apply idx_np_zeros.
  - rewrite lookup_ge_None_2 by (rewrite length_replicate; lia). simpl. destruct c; reflexivity.
Qed.

Lemma elem_of_turbine_faces (nT nV i j : nat) :
  (i, j) ∈ turbine_faces nT nV <-> (i < nT)%nat /\ (j < nV)%nat.
Proof.
  unfold turbine_faces, range. rewrite list_elem_of_bind. split.
  - intros (i' & Hij & Hi'). apply list_elem_of_fmap in Hij as (j' & Heq & Hj').
    injection Heq as -> ->. apply elem_of_seq in Hi', Hj'. lia.
  - intros Hij. exists i. split.
    + apply list_elem_of_fmap. exists j. split; [reflexivity|]. apply elem_of_seq. lia.
    + apply elem_of_seq. lia.
Qed.

Lemma BoundaryComp_gradient_loops (nT nV : nat) (unit_normals : list vec2)
    (s : matrix * matrix) :
  (nV <= length unit_normals)%nat ->
  for_range (fun s i => for_range (BoundaryComp.gradient_step nV unit_normals i)
                          (range 0 nV) s) (range 0 nT) s
  = Ok (fold_left (fun M (ij : nat * nat) =>
                     mset M (ij.1 * nV + ij.2) ij.1
                       (vdot (scale2 (vdot (-1, 0) (row unit_normals ij.2))
                                (row unit_normals ij.2)) (row unit_normals ij.2)))
          (turbine_faces nT nV) s.1,
        fold_left (fun M (ij : nat * nat) =>
                     mset M (ij.1 * nV + ij.2) ij.1
                       (vdot (scale2 (vdot (0, -1) (row unit_normals ij.2))
                                (row unit_normals ij.2)) (row unit_normals ij.2)))
          (turbine_faces nT nV) s.2).
Proof.
  intros Hn.
  set (G := fun (i : nat) (s : matrix * matrix) (j : nat) =>
              (mset s.1 (i * nV + j) i
                 (vdot (scale2 (vdot (-1, 0) (row unit_normals j)) (row unit_normals j))
                    (row unit_normals j)),
               mset s.2 (i * nV + j) i
                 (vdot (scale2 (vdot (0, -1) (row unit_normals j)) (row unit_normals j))
                    (row unit_normals j)))).
  rewrite (for_range_pure _ (fun s i => fold_left (G i) (range 0 nV) s)).
  2:{ intros s' i _. apply for_range_pure. intros [dx dy] j Hj.
      unfold range in Hj. apply elem_of_seq in Hj.
      unfold BoundaryComp.gradient_step.
      destruct (lookup_lt_is_Some_2 unit_normals j ltac:(lia)) as [n Hnj].
      rewrite Hnj. unfold G, row. rewrite (nth_lookup_Some _ _ _ _ Hnj). reflexivity. }
  f_equal.
  rewrite (fold_left_nested G (fun _ => range 0 nV)). cbv beta. fold (turbine_faces nT nV).
  destruct s as [dx dy]. unfold G. cbn [fst snd].
  apply (fold_left_pair
           (fun M (ij : nat * nat) =>
              mset M (ij.1 * nV + ij.2) ij.1
                (vdot (scale2 (vdot (-1, 0) (row unit_normals ij.2))
                         (row unit_normals ij.2)) (row unit_normals ij.2)))
           (fun M (ij : nat * nat) =>
              mset M (ij.1 * nV + ij.2) ij.1
                (vdot (scale2 (vdot (0, -1) (row unit_normals ij.2))
                         (row unit_normals ij.2)) (row unit_normals ij.2)))).
Qed.

Lemma face_index_inj (nV i j i' j' : nat) :
  (j < nV)%nat -> (j' < nV)%nat -> (i' * nV + j' = i * nV + j)%nat -> i' = i /\ j' = j.
Proof.
  intros Hj Hj' He.
  assert (i' = i).
  { destruct (Nat.lt_trichotomy i' i) as [Hlt|[Heq|Hgt]]; [|exact Heq|].
    - assert ((i' + 1) * nV <= i * nV)%nat by (apply Nat.mul_le_mono_r; lia). lia.
    - assert ((i + 1) * nV <= i' * nV)%nat by (apply Nat.mul_le_mono_r; lia). lia. }
  subst. split; [reflexivity | lia].
Qed.

Lemma face_gradient_entry (nT nV : nat) (val : nat * nat -> R) (i j c : nat) :
  (i < nT)%nat -> (j < nV)%nat -> (c < nT)%nat ->
  idx2 (fold_left (fun M (ij : nat * nat) => mset M (ij.1 * nV + ij.2) ij.1 (val ij))
          (turbine_faces nT nV) (np_zeros2 (nT * nV) nT)) (i * nV + j) c
  = if decide (c = i) then val (i, j) else 0.
Proof.
  intros Hi Hj Hc.
  destruct (decide (c = i)) as [->|Hne].
  - apply (writes_hit (fun ij : nat * nat => (ij.1 * nV + ij.2)%nat) fst val).
    + exists (i, j). split; [|split; reflexivity].
      apply elem_of_turbine_faces. lia.
    + intros [i' j'] Hx Hr Hcx. cbn [fst snd] in *. subst i'.
      apply elem_of_turbine_faces in Hx.
      assert (j' = j) by lia. subst. reflexivity.
    + rewrite np_zeros2_row_length; [exact Hi|]. nia.
  - rewrite (writes_other (fun ij : nat * nat => (ij.1 * nV + ij.2)%nat) fst val).
    + apply idx2_np_zeros2.
    + intros [i' j'] Hx [Hr Hcx]. cbn [fst snd] in *. subst i'.
      apply elem_of_turbine_faces in Hx.
      destruct (face_index_inj nV i j c j') as [? _]; [lia | lia | exact Hr | congruence].
Qed.

(** X25. For a polygon whose normals cover the [nVertices] faces, the
    Jacobian of BoundaryComp has [nTurbines * nVertices] rows, row
    [i * nVertices + j] belonging to turbine [i] and face [j].  In that row
    only the entry of turbine [i] can be non-zero; it is
    [-n_x (n_x^2 + n_y^2)] in the [turbineX] block and [-n_y (n_x^2 + n_y^2)]
    in the [turbineY] block for the face normal [(n_x, n_y)], which is the
    partial derivative of the distance the forward pass stores for that
    turbine and face. *)
Theorem BoundaryComp_polygon_jacobian (self : BoundaryComp.component)
    (p : BoundaryComp.params) :
  let nT := BoundaryComp.nTurbines self in
  let nV := Z.to_nat (BoundaryComp.nVertices self) in
  let X := BoundaryComp.turbineX p in
  let Y := BoundaryComp.turbineY p in
  BoundaryComp.type self = BoundaryComp.polygon ->
  (nV <= length (BoundaryComp.boundaryNormals p))%nat ->
  exists J,
    BoundaryComp.linearize self p = Ok J /\
    length (block J "boundaryDistances" "turbineX") = (nT * nV)%nat /\
    length (block J "boundaryDistances" "turbineY") = (nT * nV)%nat /\
    forall i j c n v, (i < nT)%nat -> (j < nV)%nat -> (c < nT)%nat ->
      BoundaryComp.boundaryNormals p !! j = Some n ->
      idx2 (block J "boundaryDistances" "turbineX") (i * nV + j) c
      = (if decide (c = i) then - n.1 * (n.1 * n.1 + n.2 * n.2) else 0) /\
      idx2 (block J "boundaryDistances" "turbineY") (i * nV + j) c
      = (if decide (c = i) then - n.2 * (n.1 * n.1 + n.2 * n.2) else 0) /\
      derivable_pt_lim (fun x => face_value (x, Y.[i]) v n) X.[i]
        (idx2 (block J "boundaryDistances" "turbineX") (i * nV + j) i) /\
      derivable_pt_lim (fun y => face_value (X.[i], y) v n) Y.[i]
        (idx2 (block J "boundaryDistances" "turbineY") (i * nV + j) i).
Proof.
  intros nT nV X Y Ht Hn.
  unfold BoundaryComp.linearize. rewrite Ht. fold nT nV.
  rewrite BoundaryComp_gradient_loops by exact Hn. cbn [fst snd].
  eexists. split; [reflexivity|].
  unfold block. rewrite lookup_insert_eq.
  rewrite lookup_insert_ne by (intros Hk; discriminate Hk). rewrite lookup_insert_eq.
  split; [|split].
  - rewrite (writes_length (fun ij : nat * nat => (ij.1 * nV + ij.2)%nat) fst).
    unfold np_zeros2. apply length_replicate.
  - rewrite (writes_length (fun ij : nat * nat => (ij.1 * nV + ij.2)%nat) fst).
    unfold np_zeros2. apply length_replicate.
  - intros i j c n v Hi Hj Hc Hnj.
    rewrite !(face_gradient_entry nT nV
                (fun ij : nat * nat =>
                   vdot (scale2 (vdot (-1, 0) (row (BoundaryComp.boundaryNormals p) ij.2))
                           (row (BoundaryComp.boundaryNormals p) ij.2))
                     (row (BoundaryComp.boundaryNormals p) ij.2))) by assumption.
    rewrite !(face_gradient_entry nT nV
                (fun ij : nat * nat =>
                   vdot (scale2 (vdot (0, -1) (row (BoundaryComp.boundaryNormals p) ij.2))
                           (row (BoundaryComp.boundaryNormals p) ij.2))
                     (row (BoundaryComp.boundaryNormals p) ij.2))) by assumption.
    cbn [fst snd]. unfold row. rewrite (nth_lookup_Some _ _ _ _ Hnj).
    destruct (decide (i = i)) as [_|Hne]; [|congruence].
    assert (Ex : vdot (scale2 (vdot (-1, 0) n) n) n = - n.1 * (n.1 * n.1 + n.2 * n.2))
      by (unfold vdot, scale2; cbn [fst snd]; ring).
    assert (Ey : vdot (scale2 (vdot (0, -1) n) n) n = - n.2 * (n.1 * n.1 + n.2 * n.2))
      by (unfold vdot, scale2; cbn [fst snd]; ring).
    rewrite Ex, Ey.
    split; [reflexivity|]. split; [reflexivity|]. split.
    + apply (derivable_pt_lim_ext
               (fun x => - n.1 * (n.1 * n.1 + n.2 * n.2) * x
                         + (v.1 * n.1 + (v.2 - Y.[i]) * n.2) * (n.1 * n.1 + n.2 * n.2))).
      * intros x. unfold face_value, vdot, scale2. cbn [fst snd]. ring.
      * apply derivable_pt_lim_affine.
    + apply (derivable_pt_lim_ext
               (fun y => - n.2 * (n.1 * n.1 + n.2 * n.2) * y
                         + ((v.1 - X.[i]) * n.1 + v.2 * n.2) * (n.1 * n.1 + n.2 * n.2))).
      * intros y. unfold face_value, vdot, scale2. cbn [fst snd]. ring.
      * apply derivable_pt_lim_affine.
Qed.

Lemma BoundaryComp_polygon_jacobian_witness :
  exists J,
    BoundaryComp.linearize (BoundaryComp.Build 2 4 BoundaryComp.polygon)
      (BoundaryComp.Params square square_normals 0 (0, 0) [1; 3] [1; 1]) = Ok J.
Proof.
  destruct (BoundaryComp_polygon_jacobian (BoundaryComp.Build 2 4 BoundaryComp.polygon)
              (BoundaryComp.Params square square_normals 0 (0, 0) [1; 3] [1; 1])
              eq_refl) as (J & HJ & _).
  - simpl. lia.
  - exists J. exact HJ.
Defined.

(** ** WindFarmAEP: the gradients of the 'log' and 'inverse' methods *)

Lemma spec_sum_update (f g : nat -> R) (i n : nat) (delta : R) :
  (i < n)%nat ->
  (forall k, (k < n)%nat -> g k = f k + if decide (k = i) then delta else 0) ->
  spec_sum g n = spec_sum f n + delta.
Proof.
  induction n as [|n IH]; intros Hi H; [lia|]. simpl.
  rewrite (H n) by lia.
  destruct (decide (n = i)) as [->|Hne].
  - rewrite (spec_sum_ext g f).
    + lra.
    + intros k Hk. rewrite H by lia. destruct (decide (k = i)); [lia | lra].
  - rewrite IH by (try lia; intros k Hk; apply H; lia). lra.
Qed.

Lemma py_sum_insert (P W : vec) (i : nat) (x : R) :
  (i < length P)%nat -> (i < length W)%nat ->
  py_sum (vmul (<[i := x]> P) W) = py_sum (vmul P W) + (x - P.[i]) * W.[i].
Proof.
  intros HP HW. rewrite !py_sum_spec_sum.
  assert (Hl : length (vmul (<[i := x]> P) W) = length (vmul P W))
    by (unfold vmul; rewrite !length_zip_with, length_insert; reflexivity).
  rewrite Hl. apply (spec_sum_update _ _ i).
  - unfold vmul. rewrite length_zip_with. lia.
  - intros k Hk. rewrite !idx_vmul, idx_insert.
    destruct (decide (k = i)) as [->|Hne].
    + destruct (decide (i = i /\ _)) as [_|Hn]; [lra|].
      exfalso. apply Hn. split; [reflexivity | exact HP].
    + destruct (decide (i = k /\ _)) as [[? _]|_]; [congruence | lra].
Qed.

Lemma annual_energy_with_dirPower (p : WindFarmAEP.params) (i : nat) (x : R) :
  (i < length (WindFarmAEP.dirPowers p))%nat ->
  (i < length (WindFarmAEP.windFrequencies p))%nat ->
  annual_energy (with_dirPower p i x)
  = (WindFarmAEP.windFrequencies p).[i] * WindFarmAEP.hours * x
    + (annual_energy p
       - (WindFarmAEP.windFrequencies p).[i] * WindFarmAEP.hours * (WindFarmAEP.dirPowers p).[i]).
Proof.
  intros HP HW. unfold annual_energy, with_dirPower.
  cbn [WindFarmAEP.dirPowers WindFarmAEP.windFrequencies].
  rewrite py_sum_insert by assumption. ring.
Qed.

(** X26. Method 'log': the forward pass returns [ln AEP], whose partial
    derivative in the power of direction [i] is
    [windFrequencies[i] * hours / AEP]; [linearize] stores [1 / dirPowers[i]]
    instead.  The two agree exactly when direction [i] alone produces the
    whole energy, as with a single direction. *)
Theorem WindFarmAEP_log_gradient (self : WindFarmAEP.component) (p : WindFarmAEP.params)
    (calls i : nat) :
  let P := WindFarmAEP.dirPowers p in
  let W := WindFarmAEP.windFrequencies p in
  WindFarmAEP.AEP_method p = "log"%string ->
  length P = length W -> (i < length P)%nat ->
  0 < annual_energy p -> P.[i] <> 0 ->
  exists J c,
    WindFarmAEP.linearize self p calls = Ok (J, c) /\
    idx2 (block J "AEP" "dirPowers") 0 i = / P.[i] /\
    derivable_pt_lim (fun x => AEP_value self (with_dirPower p i x)) P.[i]
      (W.[i] * WindFarmAEP.hours / annual_energy p) /\
    (idx2 (block J "AEP" "dirPowers") 0 i = W.[i] * WindFarmAEP.hours / annual_energy p
     <-> P.[i] * W.[i] * WindFarmAEP.hours = annual_energy p).
Proof.
  intros P W Hm Hlen Hi Hpos HP.
  unfold WindFarmAEP.linearize. rewrite Hm.
  destruct (decide ("log"%string = "none"%string)) as [E|_]; [discriminate E|].
  destruct (decide ("log"%string = "log"%string)) as [_|E]; [|congruence].
  eexists _, _. split; [reflexivity|].
  assert (Hent : idx2 (block (<[("AEP"%string, "dirPowers"%string) := A2 [Rinv <$> P]]> ∅)
                         "AEP" "dirPowers") 0 i = / P.[i]).
  { unfold block. rewrite lookup_insert_eq. unfold idx2. cbn [nth].
    fold (idx (Rinv <$> P) i). apply idx_fmap. exact Hi. }
  fold P. rewrite Hent.
  split; [reflexivity|]. split.
  - apply (derivable_pt_lim_ext
             (comp ln (fun x => W.[i] * WindFarmAEP.hours * x
                                + (annual_energy p - W.[i] * WindFarmAEP.hours * P.[i])))).
    + intros x. unfold comp.
      pose proof (annual_energy_with_dirPower p i x) as Ha. fold P W in Ha.
      rewrite <- Ha by lia. clear Ha.
      unfold AEP_value, WindFarmAEP.solve_nonlinear, with_dirPower.
      cbn [WindFarmAEP.dirPowers WindFarmAEP.windFrequencies WindFarmAEP.AEP_method].
      rewrite Hm.
      destruct (decide ("log"%string = "none"%string)) as [E|_]; [discriminate E|].
      destruct (decide ("log"%string = "log"%string)) as [_|E]; [|congruence].
      reflexivity.
    + replace (W.[i] * WindFarmAEP.hours / annual_energy p)
        with (/ (W.[i] * WindFarmAEP.hours * P.[i]
                 + (annual_energy p - W.[i] * WindFarmAEP.hours * P.[i]))
              * (W.[i] * WindFarmAEP.hours)).
      2:{ replace (W.[i] * WindFarmAEP.hours * P.[i]
                   + (annual_energy p - W.[i] * WindFarmAEP.hours * P.[i]))
            with (annual_energy p) by ring.
          field. lra. }
      apply (derivable_pt_lim_comp
               (fun x => W.[i] * WindFarmAEP.hours * x
                         + (annual_energy p - W.[i] * WindFarmAEP.hours * P.[i])) ln).
      * apply derivable_pt_lim_affine.
      * apply derivable_pt_lim_ln.
        replace (W.[i] * WindFarmAEP.hours * P.[i]
                 + (annual_energy p - W.[i] * WindFarmAEP.hours * P.[i]))
          with (annual_energy p) by ring.
        exact Hpos.
  - assert (E1 : / P.[i] * (P.[i] * annual_energy p) = annual_energy p) by (field; exact HP).
    assert (E2 : W.[i] * WindFarmAEP.hours / annual_energy p * (P.[i] * annual_energy p)
                 = P.[i] * W.[i] * WindFarmAEP.hours) by (field; lra).
    split.
    + intros H. rewrite H in E1. lra.
    + intros H. apply (Rmult_eq_reg_r (P.[i] * annual_energy p)).
      * rewrite E1, E2. lra.
      * apply Rmult_integral_contrapositive_currified; lra.
Qed.

Lemma WindFarmAEP_log_gradient_witness :
  exists J c,
    WindFarmAEP.linearize (WindFarmAEP.Build 2 false)
      (WindFarmAEP.Params [1; 2] [1; 1] "log") 0 = Ok (J, c).
Proof.
  destruct (WindFarmAEP_log_gradient (WindFarmAEP.Build 2 false)
              (WindFarmAEP.Params [1; 2] [1; 1] "log") 0 0 eq_refl eq_refl)
    as (J & c & HJ & _).
  - simpl. lia.
  - unfold annual_energy, py_sum, vmul, WindFarmAEP.hours. simpl. lra.
  - unfold idx. simpl. lra.
  - exists J, c. exact HJ.
Defined.

Lemma derivable_pt_lim_Rinv (y : R) : y <> 0 -> derivable_pt_lim Rinv y (- / (y * y)).
Proof.
  intros Hy.
  pose proof (derivable_pt_lim_div (fct_cte 1) id y 0 1 (derivable_pt_lim_const 1 y)
                (derivable_pt_lim_id y) Hy) as H.
  apply (derivable_pt_lim_ext (fct_cte 1 / id)%F).
  - intros z. unfold div_fct, fct_cte, id. unfold Rdiv. apply Rmult_1_l.
  - replace (- / (y * y)) with ((0 * id y - 1 * fct_cte 1 y) / Rsqr (id y)); [exact H|].
    unfold Rsqr, id, fct_cte. field. exact Hy.
Qed.

(** X27. Method 'inverse': the forward pass returns [1 / AEP], whose
    partial derivative in the power of direction [i] is
    [- windFrequencies[i] * hours / AEP^2]; [linearize] stores
    [- 1 / (hours * windFrequencies[i] * dirPowers[i]^2)] instead.  The two
    agree exactly when the energy of direction [i] alone has the square of
    the whole energy, as with a single direction. *)
Theorem WindFarmAEP_inverse_gradient (self : WindFarmAEP.component)
    (p : WindFarmAEP.params) (calls i : nat) :
  let P := WindFarmAEP.dirPowers p in
  let W := WindFarmAEP.windFrequencies p in
  WindFarmAEP.AEP_method p = "inverse"%string ->
  length P = length W -> (i < length P)%nat ->
  annual_energy p <> 0 -> P.[i] <> 0 -> W.[i] <> 0 ->
  exists J c,
    WindFarmAEP.linearize self p calls = Ok (J, c) /\
    idx2 (block J "AEP" "dirPowers") 0 i = - / (WindFarmAEP.hours * W.[i] * P.[i] ^ 2) /\
    derivable_pt_lim (fun x => AEP_value self (with_dirPower p i x)) P.[i]
      (- (W.[i] * WindFarmAEP.hours) / (annual_energy p) ^ 2) /\
    (idx2 (block J "AEP" "dirPowers") 0 i
     = - (W.[i] * WindFarmAEP.hours) / (annual_energy p) ^ 2
     <-> (P.[i] * W.[i] * WindFarmAEP.hours) ^ 2 = (annual_energy p) ^ 2).
Proof.
  intros P W Hm Hlen Hi Hne HP HW.
  assert (Hh : WindFarmAEP.hours <> 0) by (unfold WindFarmAEP.hours; lra).
  unfold WindFarmAEP.linearize. rewrite Hm.
  destruct (decide ("inverse"%string = "none"%string)) as [E|_]; [discriminate E|].
  destruct (decide ("inverse"%string = "log"%string)) as [E|_]; [discriminate E|].
  destruct (decide ("inverse"%string = "inverse"%string)) as [_|E]; [|congruence].
  eexists _, _. split; [reflexivity|].
  fold P W.
  assert (Hent : idx2 (block (<[("AEP"%string, "dirPowers"%string) :=
                                 A2 [(fun x => - / x)
                                       <$> vmul (svmul WindFarmAEP.hours W)
                                                ((fun x => x ^ 2) <$> P)]]> ∅)
                         "AEP" "dirPowers") 0 i
                = - / (WindFarmAEP.hours * W.[i] * P.[i] ^ 2)).
  { unfold block. rewrite lookup_insert_eq. unfold idx2. cbn [nth].
    fold (idx ((fun x => - / x) <$> vmul (svmul WindFarmAEP.hours W) ((fun x => x ^ 2) <$> P)) i).
    rewrite idx_fmap
      by (unfold vmul, svmul; rewrite length_zip_with, !length_fmap; lia).
    rewrite idx_vmul. unfold svmul. rewrite !idx_fmap by lia. reflexivity. }
  rewrite Hent.
  split; [reflexivity|]. split.
  - apply (derivable_pt_lim_ext
             (comp Rinv (fun x => W.[i] * WindFarmAEP.hours * x
                                  + (annual_energy p - W.[i] * WindFarmAEP.hours * P.[i])))).
    + intros x. unfold comp.
      pose proof (annual_energy_with_dirPower p i x) as Ha. fold P W in Ha.
      rewrite <- Ha by lia. clear Ha.
      unfold AEP_value, WindFarmAEP.solve_nonlinear, with_dirPower.
      cbn [WindFarmAEP.dirPowers WindFarmAEP.windFrequencies WindFarmAEP.AEP_method].
      rewrite Hm.
      destruct (decide ("inverse"%string = "none"%string)) as [E|_]; [discriminate E|].
      destruct (decide ("inverse"%string = "log"%string)) as [E|_]; [discriminate E|].
      destruct (decide ("inverse"%string = "inverse"%string)) as [_|E]; [|congruence].
      match goal with
      | |- context [match ?l with [] => _ | _ :: _ => _ end] => destruct l eqn:Hv
      end.
      * exfalso. apply (f_equal length) in Hv. unfold vmul in Hv.
        rewrite length_zip_with, length_insert in Hv. simpl in Hv. fold P W in Hv. lia.
      * rewrite <- Hv. reflexivity.
    + assert (Hat : W.[i] * WindFarmAEP.hours * P.[i]
                    + (annual_energy p - W.[i] * WindFarmAEP.hours * P.[i])
                    = annual_energy p) by ring.
      replace (- (W.[i] * WindFarmAEP.hours) / annual_energy p ^ 2)
        with (- / ((W.[i] * WindFarmAEP.hours * P.[i]
                    + (annual_energy p - W.[i] * WindFarmAEP.hours * P.[i]))
                   * (W.[i] * WindFarmAEP.hours * P.[i]
                      + (annual_energy p - W.[i] * WindFarmAEP.hours * P.[i])))
              * (W.[i] * WindFarmAEP.hours))
        by (rewrite Hat; field; exact Hne).
      apply (derivable_pt_lim_comp
               (fun x => W.[i] * WindFarmAEP.hours * x
                         + (annual_energy p - W.[i] * WindFarmAEP.hours * P.[i])) Rinv).
      * apply derivable_pt_lim_affine.
      * apply derivable_pt_lim_Rinv. rewrite Hat. exact Hne.
  - assert (Hden : WindFarmAEP.hours * W.[i] * P.[i] ^ 2 <> 0).
    { apply Rmult_integral_contrapositive_currified;
        [apply Rmult_integral_contrapositive_currified; assumption|].
      apply pow_nonzero. exact HP. }
    assert (Hsq : annual_energy p ^ 2 <> 0) by (apply pow_nonzero; exact Hne).
    assert (E1 : - / (WindFarmAEP.hours * W.[i] * P.[i] ^ 2)
                 * ((WindFarmAEP.hours * W.[i] * P.[i] ^ 2) * annual_energy p ^ 2)
                 = - annual_energy p ^ 2) by (field; repeat split; assumption).
    assert (E2 : - (W.[i] * WindFarmAEP.hours) / annual_energy p ^ 2
                 * ((WindFarmAEP.hours * W.[i] * P.[i] ^ 2) * annual_energy p ^ 2)
                 = - (P.[i] * W.[i] * WindFarmAEP.hours) ^ 2) by (field; exact Hne).
    split.
    + intros H. rewrite H in E1. lra.
    + intros H. apply (Rmult_eq_reg_r ((WindFarmAEP.hours * W.[i] * P.[i] ^ 2)
                                       * annual_energy p ^ 2)).
      * rewrite E1, E2. lra.
      * apply Rmult_integral_contrapositive_currified; assumption.
Qed.

Lemma WindFarmAEP_inverse_gradient_witness :
  exists J c,
    WindFarmAEP.linearize (WindFarmAEP.Build 2 false)
      (WindFarmAEP.Params [1; 2] [1; 1] "inverse") 0 = Ok (J, c).
Proof.
  destruct (WindFarmAEP_inverse_gradient (WindFarmAEP.Build 2 false)
              (WindFarmAEP.Params [1; 2] [1; 1] "inverse") 0 0 eq_refl eq_refl)
    as (J & c & HJ & _).
  - simpl. lia.
  - unfold annual_energy, py_sum, vmul, WindFarmAEP.hours. simpl. lra.
  - unfold idx. simpl. lra.
  - unfold idx. simpl. lra.
  - exists J, c. exact HJ.
Defined.

(** ** AdjustCtCpYaw: the yaw gradient of the thrust coefficient *)

(** X28. Without the "already corrected" flag the block
    [J[Ct_out, yaw]] is diagonal, and its entry for turbine [i] is the
    derivative of [Ct_out[i]] in the yaw angle of that turbine (in
    degrees). *)
Theorem AdjustCtCpYaw_Ct_yaw_gradient (self : AdjustCtCpYaw.component)
    (p : AdjustCtCpYaw.params) :
  let n := length (AdjustCtCpYaw.Ct_in p) in
  AdjustCtCpYaw.CTcorrected p = false ->
  length (AdjustCtCpYaw.yaw p) = n ->
  exists g,
    is_diag (block (AdjustCtCpYaw.linearize self p) "Ct_out" (AdjustCtCpYaw.yaw_name self))
      g n /\
    forall i, (i < n)%nat ->
      derivable_pt_lim
        (fun y => (AdjustCtCpYaw.Ct_out
                     (AdjustCtCpYaw.solve_nonlinear self (with_yaw p i y))).[i])
        (AdjustCtCpYaw.yaw p).[i] g.[i].
Proof.
  intros n Hc Hy.
  set (yaw := vdivs (vscale (AdjustCtCpYaw.yaw p) PI) 180).
  assert (Hyl : length yaw = n)
    by (unfold yaw, vdivs, vscale; rewrite !length_fmap; exact Hy).
  exists (vdivs (vscale (vmul (vmul (np_ones n) (AdjustCtCpYaw.Ct_in p))
                           (vmul (svmul (-2) (sin <$> yaw)) (cos <$> yaw))) PI) 180).
  split.
  - assert (Hb : block (AdjustCtCpYaw.linearize self p) "Ct_out" (AdjustCtCpYaw.yaw_name self)
                 = mdivs (mscale (mrow_mul (mrow_mul (np_eye n) (AdjustCtCpYaw.Ct_in p))
                                    (vmul (svmul (-2) (sin <$> yaw)) (cos <$> yaw)))
                            PI) 180).
    { unfold block, AdjustCtCpYaw.linearize. fold n. fold yaw. rewrite Hc.
      destruct (AdjustCtCpYaw.CPcorrected p); cbn [negb]; lookup_block; reflexivity. }
    rewrite Hb.
    apply is_diag_mdivs, is_diag_mscale, is_diag_mrow_mul.
    + apply length_vmul; unfold svmul; rewrite !length_fmap; exact Hyl.
    + apply is_diag_mrow_mul; [reflexivity | apply is_diag_eye].
  - intros i Hi.
    assert (Hyi : yaw.[i] = (AdjustCtCpYaw.yaw p).[i] * PI / 180)
      by (unfold yaw; rewrite idx_vdivs, idx_vscale; reflexivity).
    apply (derivable_pt_lim_ext
             (comp (fun z => (cos * cos)%F z * (AdjustCtCpYaw.Ct_in p).[i])
                   (fun y => PI / 180 * y + 0))).
    + intros y. unfold comp, mult_fct, AdjustCtCpYaw.solve_nonlinear, with_yaw.
      cbn [AdjustCtCpYaw.Ct_in AdjustCtCpYaw.yaw AdjustCtCpYaw.CTcorrected
           AdjustCtCpYaw.Ct_out].
      rewrite Hc. cbn [negb]. rewrite !idx_vmul.
      rewrite idx_fmap by (unfold vdivs, vscale; rewrite !length_fmap, length_insert; lia).
      rewrite idx_vdivs, idx_vscale, idx_insert.
      destruct (decide (i = i /\ _)) as [_|Hn]; [|exfalso; apply Hn; split; [reflexivity|lia]].
      replace (PI / 180 * y + 0) with (y * PI / 180) by field. reflexivity.
    + replace ((vdivs (vscale (vmul (vmul (np_ones n) (AdjustCtCpYaw.Ct_in p))
                                 (vmul (svmul (-2) (sin <$> yaw)) (cos <$> yaw))) PI) 180).[i])
        with ((- sin (PI / 180 * (AdjustCtCpYaw.yaw p).[i] + 0)
               * cos (PI / 180 * (AdjustCtCpYaw.yaw p).[i] + 0)
               + cos (PI / 180 * (AdjustCtCpYaw.yaw p).[i] + 0)
                 * - sin (PI / 180 * (AdjustCtCpYaw.yaw p).[i] + 0))
              * (AdjustCtCpYaw.Ct_in p).[i] * (PI / 180)).
      2:{ rewrite idx_vdivs, idx_vscale, !idx_vmul, idx_np_ones by exact Hi.
          unfold svmul. rewrite idx_fmap by (rewrite length_fmap; lia).
          rewrite !idx_fmap by lia. rewrite Hyi.
          replace (PI / 180 * (AdjustCtCpYaw.yaw p).[i] + 0)
            with ((AdjustCtCpYaw.yaw p).[i] * PI / 180) by field.
          field. }
      apply (derivable_pt_lim_comp (fun y => PI / 180 * y + 0)
               (fun z => (cos * cos)%F z * (AdjustCtCpYaw.Ct_in p).[i])).
      * apply derivable_pt_lim_affine.
      * apply derivable_pt_lim_scal_right, derivable_pt_lim_mult; apply derivable_pt_lim_cos.
Qed.

Lemma AdjustCtCpYaw_Ct_yaw_gradient_witness :
  exists g,
    is_diag (block (AdjustCtCpYaw.linearize (AdjustCtCpYaw.Build 2 0)
                      (AdjustCtCpYaw.Params [1; 2] [3; 4] [0; 30] 2 false false))
               "Ct_out" "yaw0") g 2.
Proof.
  destruct (AdjustCtCpYaw_Ct_yaw_gradient (AdjustCtCpYaw.Build 2 0)
              (AdjustCtCpYaw.Params [1; 2] [3; 4] [0; 30] 2 false false)
              eq_refl eq_refl) as (g & Hg & _).
  exists g. exact Hg.
Defined.

(** ** WindDirectionPower: the Jacobian of the power curve *)

Lemma derivable_pt_lim_ext_near (f g : R -> R) (x l delta : R) :
  0 < delta -> (forall y, Rabs (y - x) < delta -> f y = g y) ->
  derivable_pt_lim f x l -> derivable_pt_lim g x l.
Proof.
  intros Hdelta Hfg Hf eps Heps. destruct (Hf eps Heps) as [d Hd].
  exists (mkposreal (Rmin d delta) (Rmin_pos _ _ (cond_pos d) Hdelta)).
  intros h Hh Hlt. simpl in Hlt.
  rewrite <- (Hfg (x + h)), <- (Hfg x).
  - apply Hd; [exact Hh|]. eapply Rlt_le_trans; [exact Hlt | apply Rmin_l].
  - replace (x - x) with 0 by ring. rewrite Rabs_R0. exact Hdelta.
  - replace (x + h - x) with h by ring. eapply Rlt_le_trans; [exact Hlt | apply Rmin_r].
Qed.

Lemma cubic_ramp_derivative (rp ci rw v : R) :
  rw - ci <> 0 ->
  derivable_pt_lim (fun x => rp * ((x - ci) / (rw - ci)) ^ 3) v
    (3 * rp * ((v - ci) / (rw - ci)) ^ 2 * (1 / (rw - ci))).
Proof.
  intros Hne.
  apply (derivable_pt_lim_ext
           (mult_real_fct rp
              (comp (fun z => z ^ 3) (fun y => / (rw - ci) * y + - ci / (rw - ci))))).
  - intros x. unfold mult_real_fct, comp. f_equal. f_equal. field. exact Hne.
  - replace (3 * rp * ((v - ci) / (rw - ci)) ^ 2 * (1 / (rw - ci)))
      with (rp * (INR 3 * (/ (rw - ci) * v + - ci / (rw - ci)) ^ Nat.pred 3 * / (rw - ci)))
      by (simpl; field; exact Hne).
    apply derivable_pt_lim_scal.
    apply (derivable_pt_lim_comp (fun y => / (rw - ci) * y + - ci / (rw - ci))
             (fun z => z ^ 3)).
    + apply derivable_pt_lim_affine.
    + apply derivable_pt_lim_pow.
Qed.

Lemma power_curve_deriv_step_length (p : WindDirectionPower.params) (D : matrix) (k : nat) :
  length (WindDirectionPower.power_curve_deriv_step p D k) = length D.
Proof.
  unfold WindDirectionPower.power_curve_deriv_step, mset.
  repeat destruct (decide _); rewrite ?length_alter; reflexivity.
Qed.

Lemma power_curve_deriv_step_row (p : WindDirectionPower.params) (D : matrix) (k r : nat) :
  length (nth r (WindDirectionPower.power_curve_deriv_step p D k) []) = length (nth r D []).
Proof.
  unfold WindDirectionPower.power_curve_deriv_step.
  repeat destruct (decide _); rewrite ?mset_row_length; reflexivity.
Qed.

Lemma power_curve_deriv_step_entry (p : WindDirectionPower.params) (D : matrix)
    (k r c : nat) :
  (k < length (nth k D []))%nat -> idx2 D k k = 0 ->
  idx2 (WindDirectionPower.power_curve_deriv_step p D k) r c
  = if decide (r = k /\ c = k) then power_curve_slope p k else idx2 D r c.
Proof.
  intros Hk Hz. unfold WindDirectionPower.power_curve_deriv_step, power_curve_slope.
  destruct (decide (_ <= _ /\ _ < _)) as [Hramp|Hramp].
  - rewrite idx2_mset.
    destruct (decide (r = k /\ c = k /\ _)) as [(-> & -> & _)|Hn],
             (decide (_ = k /\ _ = k)) as [[? ?]|Hn']; try reflexivity.
    + exfalso. apply Hn'. split; reflexivity.
    + subst. exfalso. apply Hn. split; [reflexivity|]. split; [reflexivity | exact Hk].
  - destruct (decide (_ <= _ /\ _ < _)) as [Hrated|Hrated].
    + rewrite idx2_mset.
      destruct (decide (r = k /\ c = k /\ _)) as [(-> & -> & _)|Hn],
               (decide (_ = k /\ _ = k)) as [[? ?]|Hn']; try reflexivity.
      * exfalso. apply Hn'. split; reflexivity.
      * subst. exfalso. apply Hn. split; [reflexivity|]. split; [reflexivity | exact Hk].
    + destruct (decide (r = k /\ c = k)) as [[-> ->]|_]; [exact Hz | reflexivity].
Qed.

Lemma power_curve_deriv_fold (p : WindDirectionPower.params) (n k : nat) :
  (k <= n)%nat ->
  let D := fold_left (WindDirectionPower.power_curve_deriv_step p) (seq 0 k)
             (np_zeros2 n n) in
  length D = n /\
  (forall r, (r < n)%nat -> length (nth r D []) = n) /\
  forall r c, idx2 D r c = if decide (r = c /\ (r < k)%nat) then power_curve_slope p r else 0.
Proof.
  induction k as [|k IH]; intros Hk; cbv zeta.
  - simpl. split; [unfold np_zeros2; apply length_replicate|]. split.
    + intros r Hr. apply np_zeros2_row_length. exact Hr.
    + intros r c. rewrite idx2_np_zeros2.
      destruct (decide _) as [[_ ?]|_]; [lia | reflexivity].
  - destruct (IH ltac:(lia)) as (Hlen & Hrow & Hent).
    rewrite seq_S, fold_left_app. cbn [fold_left Nat.add].
    split; [rewrite power_curve_deriv_step_length; exact Hlen|]. split.
    + intros r Hr. rewrite power_curve_deriv_step_row. apply Hrow. exact Hr.
    + intros r c. rewrite power_curve_deriv_step_entry.
      * rewrite Hent.
        destruct (decide (r = k /\ c = k)) as [[-> ->]|Hn].
        -- destruct (decide _) as [_|Hn']; [reflexivity|].
           exfalso. apply Hn'. split; [reflexivity | lia].
        -- destruct (decide (r = c /\ (r < k)%nat)) as [[-> ?]|Hn1],
                    (decide (_ = c /\ (_ < S k)%nat)) as [[? ?]|Hn2];
             try reflexivity.
           ++ exfalso. apply Hn2. split; [reflexivity | lia].
           ++ subst. exfalso.
              destruct (decide (c = k)) as [->|?]; [apply Hn; split; reflexivity|].
              apply Hn1. split; [reflexivity | lia].
      * rewrite Hrow by lia. lia.
      * rewrite Hent. destruct (decide _) as [[_ ?]|_]; [lia | reflexivity].
Qed.

Lemma idx_fmap_seq (f : nat -> R) (n i : nat) : (i < n)%nat -> (f <$> seq 0 n).[i] = f i.
Proof.
  intros Hi. unfold idx. apply nth_lookup_Some.
  rewrite list_lookup_fmap, lookup_seq_lt by exact Hi. reflexivity.
Qed.

(** X29. Power-curve mode: [J[wtPower, wtVelocity]] is diagonal, with the
    slope of the cubic ramp for a turbine between cut-in and rated wind
    speed and [0] for every other turbine, and [J[dir_power, wtVelocity]]
    is the row of those slopes.  Strictly inside the ramp, and strictly
    between rated and cut-out speed, the entry is the derivative of the
    turbine's power in its wind speed. *)
Theorem WindDirectionPower_power_curve_jacobian (self : WindDirectionPower.component)
    (p : WindDirectionPower.params) (u : WindDirectionPower.unknowns) :
  let n := WindDirectionPower.nTurbines self in
  let J := (WindDirectionPower.linearize self p u).2 in
  let slopes := power_curve_slope p <$> seq 0 n in
  WindDirectionPower.use_power_curve_definition p = true ->
  is_diag (block J (WindDirectionPower.wtPower_name self)
             (WindDirectionPower.wtVelocity_name self)) slopes n /\
  block J (WindDirectionPower.dir_power_name self) (WindDirectionPower.wtVelocity_name self)
  = [slopes] /\
  forall i, (i < n)%nat -> (i < length (WindDirectionPower.wtVelocity p))%nat ->
    let v := (WindDirectionPower.wtVelocity p).[i] in
    (WindDirectionPower.cut_in_speed p).[i] < v < (WindDirectionPower.rated_wind_speed p).[i]
    \/ (WindDirectionPower.rated_wind_speed p).[i] < v < (WindDirectionPower.cut_out_speed p).[i] ->
    derivable_pt_lim
      (fun x => (WindDirectionPower.wtPower
                   (WindDirectionPower.solve_nonlinear self (with_wtVelocity p i x)).2).[i])
      v slopes.[i].
Proof.
  intros n J slopes Hmode.
  destruct (power_curve_deriv_fold p n n (Nat.le_refl n)) as (Hlen & Hrow & Hent).
  assert (Hdiag : is_diag (fold_left (WindDirectionPower.power_curve_deriv_step p) (seq 0 n)
                             (np_zeros2 n n)) slopes n).
  { split; [exact Hlen|]. intros i Hi. split; [apply Hrow; exact Hi|].
    intros j Hj. rewrite Hent. unfold slopes. rewrite idx_fmap_seq by exact Hi.
    destruct (decide (i = j /\ _)) as [[-> _]|Hn], (decide (_ = j)) as [?|?];
      try reflexivity; try congruence.
    exfalso. apply Hn. split; [assumption | lia]. }
  assert (Hsl : length slopes = n) by (unfold slopes; rewrite length_fmap, length_seq; reflexivity).
  split; [|split].
  - unfold J, block, WindDirectionPower.linearize. rewrite Hmode. cbn [snd]. fold n.
    lookup_block. exact Hdiag.
  - unfold J, block, WindDirectionPower.linearize. rewrite Hmode. cbn [snd]. fold n.
    lookup_block.
    rewrite (np_matmul_diag _ slopes _ n Hdiag Hsl) by (unfold np_ones; apply length_replicate).
    f_equal. apply vec_ext.
    + unfold vmul, np_ones. rewrite length_zip_with, length_replicate. lia.
    + unfold vmul at 1. rewrite length_zip_with. intros i Hi.
      rewrite idx_vmul, idx_np_ones by (unfold np_ones in Hi; rewrite length_replicate in Hi; lia).
      lra.
  - intros i Hi Hiv v Hv. unfold slopes. rewrite idx_fmap_seq by exact Hi.
    assert (Hf : forall x,
               (WindDirectionPower.wtPower
                  (WindDirectionPower.solve_nonlinear self (with_wtVelocity p i x)).2).[i]
               = power_curve_value (with_wtVelocity p i x) i 0).
    { intros x. apply power_curve_wtPower; [exact Hmode | exact Hi]. }
    assert (Hx : forall x, (WindDirectionPower.wtVelocity (with_wtVelocity p i x)).[i] = x).
    { intros x. cbn [with_wtVelocity WindDirectionPower.wtVelocity]. rewrite idx_insert.
      destruct (decide _) as [_|Hn]; [reflexivity|]. exfalso. apply Hn. split; [reflexivity | exact Hiv]. }
    unfold power_curve_slope. fold v.
    destruct Hv as [Hv|Hv].
    + destruct (decide _) as [_|Hn]; [|exfalso; apply Hn; lra].
      apply (derivable_pt_lim_ext_near
               (fun x => (WindDirectionPower.rated_power p).[i]
                         * ((x - (WindDirectionPower.cut_in_speed p).[i])
                            / ((WindDirectionPower.rated_wind_speed p).[i]
                               - (WindDirectionPower.cut_in_speed p).[i])) ^ 3)
               _ v _
               (Rmin (v - (WindDirectionPower.cut_in_speed p).[i])
                     ((WindDirectionPower.rated_wind_speed p).[i] - v))).
      * apply Rmin_pos; lra.
      * intros x Hnear. rewrite Hf. unfold power_curve_value. rewrite Hx.
        cbn [with_wtVelocity WindDirectionPower.cut_in_speed
             WindDirectionPower.rated_wind_speed WindDirectionPower.rated_power
             WindDirectionPower.cut_out_speed].
        destruct (decide _) as [_|Hn]; [reflexivity|].
        exfalso. apply Hn.
        pose proof (Rmin_l (v - (WindDirectionPower.cut_in_speed p).[i])
                      ((WindDirectionPower.rated_wind_speed p).[i] - v)).
        pose proof (Rmin_r (v - (WindDirectionPower.cut_in_speed p).[i])
                      ((WindDirectionPower.rated_wind_speed p).[i] - v)).
        apply Rabs_def2 in Hnear. lra.
      * apply cubic_ramp_derivative. lra.
    + destruct (decide _) as [Hy|_]; [lra|].
      apply (derivable_pt_lim_ext_near
               (fct_cte (WindDirectionPower.rated_power p).[i]) _ v _
               (Rmin (v - (WindDirectionPower.rated_wind_speed p).[i])
                     ((WindDirectionPower.cut_out_speed p).[i] - v))).
      * apply Rmin_pos; lra.
      * intros x Hnear. rewrite Hf. unfold power_curve_value, fct_cte. rewrite Hx.
        cbn [with_wtVelocity WindDirectionPower.cut_in_speed
             WindDirectionPower.rated_wind_speed WindDirectionPower.rated_power
             WindDirectionPower.cut_out_speed].
        pose proof (Rmin_l (v - (WindDirectionPower.rated_wind_speed p).[i])
                      ((WindDirectionPower.cut_out_speed p).[i] - v)).
        pose proof (Rmin_r (v - (WindDirectionPower.rated_wind_speed p).[i])
                      ((WindDirectionPower.cut_out_speed p).[i] - v)).
        apply Rabs_def2 in Hnear.
        destruct (decide _) as [Hy|_]; [lra|].
        destruct (decide _) as [_|Hn]; [reflexivity|]. exfalso. apply Hn. lra.
      * apply derivable_pt_lim_const.
Qed.

Lemma WindDirectionPower_power_curve_jacobian_witness :
  block (WindDirectionPower.linearize (WindDirectionPower.Build 1 0 false 0 None)
           curve_params (WindDirectionPower.Unknowns [0] 0)).2
    "dir_power0" "wtVelocity0"
  = [power_curve_slope curve_params <$> seq 0 1].
Proof.
  destruct (WindDirectionPower_power_curve_jacobian
              (WindDirectionPower.Build 1 0 false 0 None) curve_params
              (WindDirectionPower.Unknowns [0] 0) eq_refl) as (_ & H & _).
  exact H.
Defined.

(** ** WindDirectionPower: the Jacobian of the coefficient mode *)

Section Zeroing.

Context (Q : nat -> Prop) `{Qdec : !forall i, Decision (Q i)}.

Lemma zero_fold_triple (l : list nat) (DV DC DD : matrix) :
  fold_left (fun ds i => if decide (Q i) then WindDirectionPower.zero_diag i ds else ds)
    l (DV, DC, DD)
  = (fold_left (zero_step Q) l DV, fold_left (zero_step Q) l DC, fold_left (zero_step Q) l DD).
Proof.
  revert DV DC DD. induction l as [|a l IH]; intros DV DC DD; [reflexivity|].
  cbn [fold_left]. unfold zero_step at 2 4 6.
  destruct (decide (Q a)); cbn [WindDirectionPower.zero_diag]; apply IH.
Qed.

Lemma is_diag_mset_zero (M : matrix) (d : vec) (n i : nat) :
  is_diag M d n -> is_diag (mset M i i 0) (<[i := 0]> d) n.
Proof.
  intros [Hlen H]. split; [unfold mset; rewrite length_alter; exact Hlen|].
  intros r Hr. destruct (H r Hr) as [Hrow Hent].
  split; [rewrite mset_row_length; exact Hrow|].
  intros c Hc. rewrite idx2_mset, (Hent c Hc), idx_insert.
  destruct (decide (r = i /\ c = i /\ _)) as [(-> & -> & _)|Hn].
  - destruct (decide (i = i)) as [_|?]; [|congruence].
    destruct (decide (i = i /\ _)) as [_|Hn]; [reflexivity|].
    symmetry. apply idx_ge.
    destruct (decide (length d <= i)%nat); [assumption|]. exfalso. apply Hn. split; [reflexivity | lia].
  - destruct (decide (r = c)) as [->|?]; [|reflexivity].
    destruct (decide (i = c /\ _)) as [[-> _]|_]; [|reflexivity].
    exfalso. apply Hn. split; [reflexivity|]. split; [reflexivity|]. rewrite Hrow. exact Hc.
Qed.

Lemma zero_fold_diag (l : list nat) (M : matrix) (d : vec) (n : nat) :
  is_diag M d n ->
  is_diag (fold_left (zero_step Q) l M)
    (fold_left (pointwise (fun i x => if decide (Q i) then 0 else x)) l d) n.
Proof.
  revert M d. induction l as [|a l IH]; intros M d Hd; [exact Hd|].
  cbn [fold_left]. apply IH. unfold zero_step, pointwise.
  destruct (decide (Q a)).
  - apply is_diag_mset_zero. exact Hd.
  - rewrite insert_idx_same. exact Hd.
Qed.

End Zeroing.

Lemma np_sum0_diag (M : matrix) (d : vec) (n : nat) :
  is_diag M d n -> length d = n -> np_sum0 M n = d.
Proof.
  intros [Hlen H] Hd. apply vec_ext.
  - unfold np_sum0. rewrite length_fmap, length_seq. lia.
  - unfold np_sum0 at 1. rewrite length_fmap, length_seq. intros j Hj.
    unfold np_sum0. rewrite idx_fmap_seq by exact Hj.
    rewrite py_sum_spec_sum, length_fmap, Hlen.
    rewrite (spec_sum_ext _ (fun i => idx2 M i j)).
    + rewrite (spec_sum_single _ j n Hj).
      * destruct (H j Hj) as [_ Hent]. rewrite (Hent j Hj).
        destruct (decide (j = j)); [reflexivity | congruence].
      * intros i Hi Hij. destruct (H i Hi) as [_ Hent]. rewrite (Hent j Hj).
        destruct (decide (i = j)); [congruence | reflexivity].
    + intros i Hi. unfold idx at 1. unfold idx2.
      destruct (lookup_lt_is_Some_2 M i ltac:(lia)) as [r Hr].
      rewrite (nth_lookup_Some _ i 0 (r.[j]))
        by (rewrite list_lookup_fmap, Hr; reflexivity).
      rewrite (nth_lookup_Some M i [] r Hr). reflexivity.
Qed.

Lemma length_vadd (a b : vec) (n : nat) :
  length a = n -> length b = n -> length (vadd a b) = n.
Proof. intros Ha Hb. unfold vadd. rewrite length_zip_with. lia. Qed.

Ltac vec_length :=
  unfold vdivs, vscale, svmul, np_zeros, np_ones;
  repeat first [ assumption | apply length_vmul | apply length_vadd
               | rewrite length_fmap | rewrite length_replicate | reflexivity ].

(** X30. Coefficient mode without a Cp table or spline: the three blocks of
    [wtPower] are diagonal and the three blocks of [dir_power] are the rows of
    those diagonals.  The entry of turbine [i] is [0] when the power handed
    in is at or above rated power (whatever [use_rotor_components] says) or
    the wind speed is below cut-in, and otherwise the term-by-term
    derivative of
    [generatorEfficiency * 0.5 * air_density * rotorArea * Cp * v^3 / 1000]
    in the wind speed, in [Cp] and in the rotor diameter, as written out in
    the statement. *)
Theorem WindDirectionPower_coefficient_jacobian (self : WindDirectionPower.component)
    (p : WindDirectionPower.params) (u : WindDirectionPower.unknowns) :
  let n := WindDirectionPower.nTurbines self in
  let J := (WindDirectionPower.linearize self p u).2 in
  let wtPower := WindDirectionPower.wtPower_name self in
  let dir_power := WindDirectionPower.dir_power_name self in
  let wtVelocity := WindDirectionPower.wtVelocity_name self in
  let g := WindDirectionPower.generatorEfficiency p in
  let rho := WindDirectionPower.air_density p in
  let D := WindDirectionPower.rotorDiameter p in
  let Cp := WindDirectionPower.Cp p in
  let v := WindDirectionPower.wtVelocity p in
  let entry (i : nat) (x : R) := if decide (gradient_zeroed p u i) then 0 else x in
  WindDirectionPower.use_power_curve_definition p = false ->
  WindDirectionPower.cp_curve_spline self = None ->
  (WindDirectionPower.cp_points self <= 1)%nat ->
  turbine_arrays self p ->
  exists dV dC dD,
    is_diag (block J wtPower wtVelocity) dV n /\
    is_diag (block J wtPower "Cp") dC n /\
    is_diag (block J wtPower "rotorDiameter") dD n /\
    block J dir_power wtVelocity = [dV] /\
    block J dir_power "Cp" = [dC] /\
    block J dir_power "rotorDiameter" = [dD] /\
    forall i, (i < n)%nat ->
      dV.[i] = entry i (g.[i] * (0.5 * rho * (0.25 * PI * D.[i] ^ 2) * Cp.[i] * (3 * v.[i] ^ 2))
                        / 1000) /\
      dC.[i] = entry i (g.[i] * (0.5 * rho * (0.25 * PI * D.[i] ^ 2) * v.[i] ^ 3) / 1000) /\
      dD.[i] = entry i (g.[i] * (0.5 * rho * (0.25 * PI * (2 * D.[i])) * Cp.[i] * v.[i] ^ 3)
                        / 1000).
Proof.
  intros n J wtPower dir_power wtVelocity g rho D Cp v entry Hmode Hspl Hcp
    (HD & HCp & Hg & Hv).
  fold n in HD, HCp, Hg, Hv. fold D in HD. fold Cp in HCp. fold g in Hg. fold v in Hv.
  set (Qr := fun i => (WindDirectionPower.wtPower u).[i]
                      >= (WindDirectionPower.rated_power p).[i]).
  set (Qc := fun i => (WindDirectionPower.wtVelocity p).[i]
                      < (WindDirectionPower.cut_in_speed p).[i]).
  set (dV0 := vdivs (vmul (vmul (vscale (vmul (vscale (np_ones n) 0.5) g) rho)
                             (WindDirectionPower.rotorArea p))
                       (vadd (vmul (svmul 3 Cp) ((fun v => v ^ 2) <$> v))
                             (vmul ((fun v => v ^ 3) <$> v) (np_zeros (length Cp))))) 1000).
  set (dC0 := vdivs (vmul (vmul (np_ones n) g)
                       (vmul (svmul (0.5 * rho) (WindDirectionPower.rotorArea p))
                             ((fun v => v ^ 3) <$> v))) 1000).
  set (dD0 := vdivs (vmul (vmul (np_ones n) g)
                       (vmul (vmul (svmul (0.5 * rho) (svmul (0.5 * PI) D)) Cp)
                             ((fun v => v ^ 3) <$> v))) 1000).
  set (mask := fun d : vec =>
         fold_left (pointwise (fun i x => if decide (Qc i) then 0 else x)) (seq 0 n)
           (fold_left (pointwise (fun i x => if decide (Qr i) then 0 else x)) (seq 0 n) d)).
  assert (HA : length (WindDirectionPower.rotorArea p) = n)
    by (unfold WindDirectionPower.rotorArea, svmul; rewrite !length_fmap; exact HD).
  assert (HlV : length dV0 = n) by (unfold dV0; vec_length).
  assert (HlC : length dC0 = n) by (unfold dC0; vec_length).
  assert (HlD : length dD0 = n) by (unfold dD0; vec_length).
  assert (Hmask_len : forall d, length d = n -> length (mask d) = n).
  { intros d Hd. unfold mask. rewrite !fold_pointwise_length. exact Hd. }
  assert (Hmask : forall d i, length d = n -> (i < n)%nat -> (mask d).[i] = entry i d.[i]).
  { intros d i Hd Hi. unfold mask.
    rewrite fold_pointwise_idx by (rewrite fold_pointwise_length; lia).
    rewrite fold_pointwise_idx by lia.
    destruct (decide (0 <= i < 0 + n)%nat) as [_|?]; [|lia].
    unfold entry, gradient_zeroed. fold (Qr i) (Qc i).
    destruct (decide (Qc i)), (decide (Qr i)), (decide (Qr i \/ Qc i));
      try reflexivity; tauto. }
  assert (HJ : J = <[(dir_power, "rotorDiameter"%string) :=
                       A2 [np_sum0 (fold_left (zero_step Qc) (seq 0 n)
                              (fold_left (zero_step Qr) (seq 0 n)
                                 (mdivs (mrow_mul (mrow_mul (np_eye n) g)
                                    (vmul (vmul (svmul (0.5 * rho) (svmul (0.5 * PI) D)) Cp)
                                       ((fun v => v ^ 3) <$> v))) 1000))) n]]>
               (<[(dir_power, "Cp"%string) :=
                    A2 [np_sum0 (fold_left (zero_step Qc) (seq 0 n)
                           (fold_left (zero_step Qr) (seq 0 n)
                              (mdivs (mrow_mul (mrow_mul (np_eye n) g)
                                 (vmul (svmul (0.5 * rho) (WindDirectionPower.rotorArea p))
                                    ((fun v => v ^ 3) <$> v))) 1000))) n]]>
               (<[(dir_power, wtVelocity) :=
                    A2 [np_sum0 (fold_left (zero_step Qc) (seq 0 n)
                           (fold_left (zero_step Qr) (seq 0 n)
                              (mdivs
                                 (mrow_mul
                                    (mrow_mul
                                       (mscale (mrow_mul (mscale (np_eye n) 0.5) g) rho)
                                       (WindDirectionPower.rotorArea p))
                                    (vadd (vmul (svmul 3 Cp) ((fun v => v ^ 2) <$> v))
                                       (vmul ((fun v => v ^ 3) <$> v)
                                          (np_zeros (length Cp))))) 1000))) n]]>
               (<[(wtPower, "rotorDiameter"%string) :=
                    A2 (fold_left (zero_step Qc) (seq 0 n)
                          (fold_left (zero_step Qr) (seq 0 n)
                             (mdivs (mrow_mul (mrow_mul (np_eye n) g)
                                (vmul (vmul (svmul (0.5 * rho) (svmul (0.5 * PI) D)) Cp)
                                   ((fun v => v ^ 3) <$> v))) 1000)))]>
               (<[(wtPower, "Cp"%string) :=
                    A2 (fold_left (zero_step Qc) (seq 0 n)
                          (fold_left (zero_step Qr) (seq 0 n)
                             (mdivs (mrow_mul (mrow_mul (np_eye n) g)
                                (vmul (svmul (0.5 * rho) (WindDirectionPower.rotorArea p))
                                   ((fun v => v ^ 3) <$> v))) 1000)))]>
               (<[(wtPower, wtVelocity) :=
                    A2 (fold_left (zero_step Qc) (seq 0 n)
                          (fold_left (zero_step Qr) (seq 0 n)
                             (mdivs
                                (mrow_mul
                                   (mrow_mul
                                      (mscale (mrow_mul (mscale (np_eye n) 0.5) g) rho)
                                      (WindDirectionPower.rotorArea p))
                                   (vadd (vmul (svmul 3 Cp) ((fun v => v ^ 2) <$> v))
                                      (vmul ((fun v => v ^ 3) <$> v)
                                         (np_zeros (length Cp))))) 1000)))]> ∅)))))).
  { unfold J, WindDirectionPower.linearize. rewrite Hmode, Hspl.
    replace (1 <? WindDirectionPower.cp_points self)%nat with false
      by (symmetry; apply Nat.ltb_ge; exact Hcp).
    cbv zeta. fold n.
    change (WindDirectionPower.rated_deriv_step p (WindDirectionPower.wtPower u))
      with (fun ds i => if decide (Qr i) then WindDirectionPower.zero_diag i ds else ds).
    change (WindDirectionPower.cut_in_deriv_step p)
      with (fun ds i => if decide (Qc i) then WindDirectionPower.zero_diag i ds else ds).
    rewrite (zero_fold_triple Qr), (zero_fold_triple Qc). reflexivity. }
  assert (HdV : is_diag (fold_left (zero_step Qc) (seq 0 n)
                  (fold_left (zero_step Qr) (seq 0 n)
                     (mdivs
                        (mrow_mul
                           (mrow_mul (mscale (mrow_mul (mscale (np_eye n) 0.5) g) rho)
                              (WindDirectionPower.rotorArea p))
                           (vadd (vmul (svmul 3 Cp) ((fun v => v ^ 2) <$> v))
                              (vmul ((fun v => v ^ 3) <$> v) (np_zeros (length Cp)))))
                        1000))) (mask dV0) n).
  { unfold mask. apply zero_fold_diag, zero_fold_diag. unfold dV0.
    apply is_diag_mdivs, is_diag_mrow_mul.
    - vec_length.
    - apply is_diag_mrow_mul; [exact HA|].
      apply is_diag_mscale, is_diag_mrow_mul; [exact Hg|].
      apply is_diag_mscale, is_diag_eye. }
  assert (HdC : is_diag (fold_left (zero_step Qc) (seq 0 n)
                  (fold_left (zero_step Qr) (seq 0 n)
                     (mdivs (mrow_mul (mrow_mul (np_eye n) g)
                        (vmul (svmul (0.5 * rho) (WindDirectionPower.rotorArea p))
                           ((fun v => v ^ 3) <$> v))) 1000))) (mask dC0) n).
  { unfold mask. apply zero_fold_diag, zero_fold_diag. unfold dC0.
    apply is_diag_mdivs, is_diag_mrow_mul.
    - vec_length.
    - apply is_diag_mrow_mul; [exact Hg | apply is_diag_eye]. }
  assert (HdD : is_diag (fold_left (zero_step Qc) (seq 0 n)
                  (fold_left (zero_step Qr) (seq 0 n)
                     (mdivs (mrow_mul (mrow_mul (np_eye n) g)
                        (vmul (vmul (svmul (0.5 * rho) (svmul (0.5 * PI) D)) Cp)
                           ((fun v => v ^ 3) <$> v))) 1000))) (mask dD0) n).
  { unfold mask. apply zero_fold_diag, zero_fold_diag. unfold dD0.
    apply is_diag_mdivs, is_diag_mrow_mul.
    - vec_length.
    - apply is_diag_mrow_mul; [exact Hg | apply is_diag_eye]. }
  exists (mask dV0), (mask dC0), (mask dD0).
  rewrite HJ. unfold block, wtPower, dir_power, wtVelocity.
  split; [lookup_block; exact HdV|].
  split; [lookup_block; exact HdC|].
  split; [lookup_block; exact HdD|].
  split; [lookup_block; rewrite (np_sum0_diag _ _ _ HdV) by (apply Hmask_len; exact HlV);
          reflexivity|].
  split; [lookup_block; rewrite (np_sum0_diag _ _ _ HdC) by (apply Hmask_len; exact HlC);
          reflexivity|].
  split; [lookup_block; rewrite (np_sum0_diag _ _ _ HdD) by (apply Hmask_len; exact HlD);
          reflexivity|].
  intros i Hi. rewrite !Hmask by assumption.
  assert (EA : (WindDirectionPower.rotorArea p).[i] = 0.25 * PI * D.[i] ^ 2).
  { unfold WindDirectionPower.rotorArea, svmul. fold D.
    rewrite idx_fmap by (rewrite length_fmap; lia). rewrite idx_fmap by lia. reflexivity. }
  assert (E2 : ((fun v => v ^ 2) <$> v).[i] = v.[i] ^ 2) by (apply idx_fmap; lia).
  assert (E3 : ((fun v => v ^ 3) <$> v).[i] = v.[i] ^ 3) by (apply idx_fmap; lia).
  split; [|split]; f_equal.
  - unfold dV0, vadd. rewrite idx_vdivs, !idx_vmul, !idx_vscale, idx_vmul, idx_vscale.
    rewrite idx_np_ones by exact Hi.
    rewrite idx_zip_with
      by (rewrite (length_vmul _ _ n); [lia | vec_length ..]).
    rewrite !idx_vmul, idx_np_zeros, EA, E2, E3. unfold svmul.
    rewrite idx_fmap by lia. fold Cp. field.
  - unfold dC0. rewrite idx_vdivs, !idx_vmul, idx_np_ones by exact Hi.
    unfold svmul at 1. rewrite idx_fmap by lia. rewrite EA, E3. field.
  - unfold dD0. rewrite idx_vdivs, !idx_vmul, idx_np_ones by exact Hi.
    unfold svmul. rewrite idx_fmap by (rewrite length_fmap; lia). rewrite idx_fmap by lia.
    rewrite E3. fold Cp. replace 0.5 with (0.25 * 2) by lra. field.
Qed.

Lemma WindDirectionPower_coefficient_jacobian_witness :
  exists dC,
    block (WindDirectionPower.linearize (WindDirectionPower.Build 1 0 false 1 None)
             table_params (WindDirectionPower.Unknowns [0] 0)).2
      "dir_power0" "Cp" = [dC].
Proof.
  destruct (WindDirectionPower_coefficient_jacobian
              (WindDirectionPower.Build 1 0 false 1 None) table_params
              (WindDirectionPower.Unknowns [0] 0) eq_refl eq_refl)
    as (dV & dC & dD & _ & _ & _ & _ & H & _).
  - simpl. lia.
  - repeat split; reflexivity.
  - exists dC. exact H.
Defined.
